(** * arb-bot: cross-platform arbitrage scanner

    A shallow embedding of the matcher ([matcher.py]), the opportunity
    detector ([arbitrage.py]), the stats aggregator ([stats_writer.py]),
    the scan loop ([paper_trader.py]) and the pricing and normalisation
    code of the platform clients ([platforms/]), with the properties of
    its specification and further properties of the code.

    Conventions of the embedding.
    - A Python [float] is an IEEE 754 binary64 number, modelled by the
      rational number it denotes ([Q], equal up to [Qeq]).  An arithmetic
      operation on floats is the exact operation followed by the rounding
      [fl] to the nearest binary64 number, ties to even, with gradual
      underflow; comparisons are exact.  A decimal literal of the source
      is the float nearest to it, [fl 0.002] for [0.002].  Infinities, NaN
      and the sign of zero are not modelled: [fl] is the rounding of
      Python for results below [2^1024] in magnitude.
    - A Python [int] is a [Z].
    - A [datetime] is the number of microseconds since the epoch (its
      resolution), so that the difference of two of them is exact, as
      [timedelta] is; [total_seconds()] rounds it to a float.
    - Normalised events and markets are records with the keys that the
      platform clients produce, [None] prices are [option].
    - A raised exception is an explicit result; a [try]/[except] is a
      match on it.
    - Debug printing does not influence any returned or stored value and
      is left out. *)

From Stdlib Require Import ZArith QArith Qabs Qround Qpower Lia Lqa Ascii String.
From Stdlib Require Floats.
From stdpp Require Import base option list strings gmap.

Local Open Scope Z_scope.

(** ** Python helpers *)

(** [x >= y] and [x > y] on floats. *)
Definition Qgeb (x y : Q) : bool := Qle_bool y x.
Definition Qgtb (x y : Q) : bool := negb (Qle_bool x y).
Definition Qltb (x y : Q) : bool := negb (Qle_bool y x).

(** [s[:n]] on strings. *)
Definition str_take (n : nat) (s : string) : string := String.substring 0 n s.

(** ** Python floats: binary64 arithmetic *)

Module Binary64.
Local Open Scope Q_scope.

(** [2^e], for an exponent of either sign. *)
Definition pow2 (e : Z) : Q := 2 ^ e.

(** The exponent of a positive [x]: [2^(ilog2 x) <= x < 2^(ilog2 x + 1)],
    found from the lengths of the numerator and of the denominator. *)
Definition ilog2 (x : Q) : Z :=
  let f := (Z.log2 (Qnum x) - Z.log2 (Zpos (Qden x)))%Z in
  if Qle_bool (pow2 f) x then f else (f - 1)%Z.

(** The nearest integer, the even one of the two at a tie. *)
Definition rnd (q : Q) : Z :=
  let f := Qfloor q in
  match Qcompare (q - inject_Z f) (1 # 2) with
  | Lt => f
  | Gt => (f + 1)%Z
  | Eq => if Z.even f then f else (f + 1)%Z
  end.

(** The exponent of the last place of a positive [x]: 53 significant
    bits, and [2^-1074] for the subnormal numbers. *)
Definition ulp_exp (x : Q) : Z := Z.max (ilog2 x - 52) (-1074).

Definition fl_pos (x : Q) : Q :=
  let e := ulp_exp x in inject_Z (rnd (x / pow2 e)) * pow2 e.

(** The binary64 number nearest to [x], in lowest terms. *)
Definition fl (x : Q) : Q :=
  match Qnum x with
  | Z0 => 0
  | Zpos _ => Qred (fl_pos x)
  | Zneg _ => Qred (- fl_pos (- x))
  end.

(** [x + y], [x - y], [x * y] and [x / y] on floats; the callers of
    [fdiv] test the divisor, on which Python raises
    [ZeroDivisionError]. *)
Definition fadd (x y : Q) : Q := fl (x + y).
Definition fsub (x y : Q) : Q := fl (x - y).
Definition fmul (x y : Q) : Q := fl (x * y).
Definition fdiv (x y : Q) : Q := fl (x / y).

(** [float(n)] of an integer, and the true division [a / b] of two
    integers, which Python rounds once. *)
Definition of_int (n : Z) : Q := fl (inject_Z n).
Definition int_true_div (a b : Z) : Q := fl (inject_Z a / inject_Z b).

(** [x] is a binary64 number. *)
Definition is_float (x : Q) : Prop := fl x == x.

End Binary64.
Import Binary64.

(** *** The binary64 arithmetic of the kernel

    The primitive floats of Rocq are the binary64 numbers of the
    processor, with its operations: the rounding [fl] is compared with
    them on sample values. *)

Module KernelFloats.
Import Floats.
#[local] Set Warnings "-inexact-float".

(** The rational that a finite float denotes. *)
Definition float_value (f : float) : option Q :=
  match Prim2SF f with
  | S754_zero _ => Some 0%Q
  | S754_finite s m e =>
      Some (Qred ((if s then -1 else 1) * inject_Z (Zpos m) * pow2 e))%Q
  | _ => None
  end.

(** The operation [qop] on rationals gives what the operation [op] of
    the kernel gives on [x] and [y]; where the kernel overflows to an
    infinity, [qop] reaches [2^1024]. *)
Definition agrees (op : float → float → float) (qop : Q → Q → Q)
    (x y : float) : bool :=
  match float_value x, float_value y with
  | Some qx, Some qy =>
      match float_value (op x y) with
      | Some qz => Qeq_bool (qop qx qy) qz
      | None => Qle_bool (pow2 1024) (Qabs (qop qx qy))
      end
  | _, _ => false
  end.

Definition agree_on (x y : float) : bool :=
  agrees PrimFloat.add fadd x y && agrees PrimFloat.sub fsub x y
  && agrees PrimFloat.mul fmul x y && agrees PrimFloat.div fdiv x y.

(** The float that the kernel reads in a decimal literal is the rounding
    of the literal. *)
Definition reads (x : float) (literal : Q) : bool :=
  match float_value x with
  | Some qx => Qeq_bool (fl literal) qx
  | None => false
  end.

(** Prices, fee rates and thresholds of the examples, a clock reading, a
    negative number, subnormal numbers and numbers whose products and
    quotients overflow. *)
Definition checked_floats : list float :=
  [0.1; 0.3; 0.4; 0.41; 0.45; 0.55; 0.7; 0.002; 0.008; 0.9870088756218905;
   1; 100; 1700000000.25; -0.62; 1e-320; 3e-310; 1e200]%float.

Definition checked_literals : list (float * Q) :=
  [(0.1%float, 0.1%Q); (0.002%float, 0.002%Q); (0.41%float, 0.41%Q);
   (0.9870088756218905%float, 0.9870088756218905%Q);
   (0.8508%float, 0.8508%Q); (1e-320%float, 1 # 10 ^ 320)].

End KernelFloats.

(** ** Python's [difflib] and [str.lower]

    Library code, outside the repository.  The matcher below takes both as
    parameters; this model instantiates them in the worked examples.  It
    follows the library for ASCII titles whose length stays under the 200
    characters at which [difflib] starts to treat popular characters as
    junk. *)

Module Difflib.

Fixpoint common_prefix (a b : list ascii) : nat :=
  match a, b with
  | x :: a', y :: b' =>
      if Ascii.eqb x y then S (common_prefix a' b') else O
  | _, _ => O
  end.

(** Candidate blocks that start at position [i] of [a] ([a_suffix] is
    what is left of [a] there), for every start [j] in [b]; a block
    replaces the best one only when it is strictly longer. *)
Fixpoint best_from_i (a_suffix b : list ascii) (i j : nat)
    (best : nat * nat * nat) : nat * nat * nat :=
  match b with
  | [] => best
  | _ :: b' =>
      let k := common_prefix a_suffix b in
      best_from_i a_suffix b' i (S j)
        (if (snd best <? k)%nat then (i, j, k) else best)
  end.

Fixpoint best_from (a b : list ascii) (i : nat)
    (best : nat * nat * nat) : nat * nat * nat :=
  match a with
  | [] => best
  | _ :: a' => best_from a' b (S i) (best_from_i a b i O best)
  end.

(** [find_longest_match]: the longest block [a[i:i+k] == b[j:j+k]], the
    one that starts earliest in [a], then earliest in [b]. *)
Definition find_longest_match (a b : list ascii) : nat * nat * nat :=
  best_from a b O (O, O, O).

(** The sum of the sizes of [get_matching_blocks()]: the longest block,
    then the same to its left and to its right. *)
Fixpoint matching_size (fuel : nat) (a b : list ascii) : nat :=
  match fuel with
  | O => O
  | S fuel' =>
      let '(i, j, k) := find_longest_match a b in
      if (k =? 0)%nat then O
      else (k + matching_size fuel' (take i a) (take j b)
              + matching_size fuel' (drop (i + k) a) (drop (j + k) b))%nat
  end.

(** [ratio()]: [2.0 * matches / length], and [1.0] for two empty
    strings. *)
Definition ratio (a b : string) : Q :=
  let la := list_ascii_of_string a in
  let lb := list_ascii_of_string b in
  let total := (length la + length lb)%nat in
  if (total =? 0)%nat then 1%Q
  else fdiv (fmul 2 (of_int (Z.of_nat (matching_size (S (length la)) la lb))))
            (of_int (Z.of_nat total)).

Definition lower_ascii (c : ascii) : ascii :=
  let n := nat_of_ascii c in
  if ((65 <=? n) && (n <=? 90))%nat then ascii_of_nat (n + 32) else c.

Fixpoint lower (s : string) : string :=
  match s with
  | EmptyString => EmptyString
  | String c s' => String (lower_ascii c) (lower s')
  end.

End Difflib.

(** ** Data model: [platforms/base.py] *)

Record Market := {
  market_id : string;
  question : string;
  yes_price : option Q;
  no_price : option Q
}.

Record Event := {
  id : string;
  title : string;
  end_date : Z;
  markets : list Market;
  platform : string
}.

(** ** [matcher.py] *)

Module Matcher.
Section WithRatio.

(** [SequenceMatcher(None, a, b).ratio()] of Python's [difflib], and
    [str.lower]: library functions, parameters of the matcher. *)
Variable ratio : string → string → Q.
Variable lower : string → string.

Definition calculate_title_similarity (title1 title2 : string) : Q :=
  ratio (lower title1) (lower title2).

(** [timedelta.total_seconds()]: the microseconds of the difference
    divided by [10**6], a true division of integers. *)
Definition total_seconds (microseconds : Z) : Q :=
  int_true_div microseconds 1000000.

(** [abs((pm_end_date - kalshi_end_date).total_seconds())] *)
Definition date_diff_seconds (pm_event kalshi_event : Event) : Q :=
  Qabs (total_seconds (end_date pm_event - end_date kalshi_event)).

(** [date_tolerance_days * 24 * 60 * 60] *)
Definition max_diff_seconds (date_tolerance_days : Z) : Z :=
  date_tolerance_days * 24 * 60 * 60.

(** The test [date_diff_seconds > max_diff_seconds] that discards a
    candidate. *)
Definition date_filtered (pm_event kalshi_event : Event)
    (date_tolerance_days : Z) : bool :=
  Qgtb (date_diff_seconds pm_event kalshi_event)
       (inject_Z (max_diff_seconds date_tolerance_days)).

(** The inner [for kalshi_event in kalshi_events] loop, on the loop
    state [(best_match, best_similarity)]. *)
Fixpoint scan_candidates (pm_event : Event) (threshold : Q)
    (date_tolerance_days : Z) (kalshi_events : list Event)
    (best_match : option Event) (best_similarity : Q)
    : option Event * Q :=
  match kalshi_events with
  | [] => (best_match, best_similarity)
  | kalshi_event :: rest =>
      if date_filtered pm_event kalshi_event date_tolerance_days then
        scan_candidates pm_event threshold date_tolerance_days rest
          best_match best_similarity
      else
        let similarity :=
          calculate_title_similarity (title pm_event) (title kalshi_event) in
        if Qgeb similarity threshold && Qgtb similarity best_similarity then
          scan_candidates pm_event threshold date_tolerance_days rest
            (Some kalshi_event) similarity
        else
          scan_candidates pm_event threshold date_tolerance_days rest
            best_match best_similarity
  end.

(** The body of the outer loop for one [pm_event]: [best_match] after
    the inner loop, started at [None] and [0.0]. *)
Definition find_best_match (pm_event : Event) (kalshi_events : list Event)
    (threshold : Q) (date_tolerance_days : Z) : option Event :=
  fst (scan_candidates pm_event threshold date_tolerance_days
         kalshi_events None 0%Q).

Fixpoint match_events (polymarket_events kalshi_events : list Event)
    (title_similarity_threshold : Q) (date_tolerance_days : Z)
    : list (Event * Event) :=
  match polymarket_events with
  | [] => []
  | pm_event :: rest =>
      match find_best_match pm_event kalshi_events
              title_similarity_threshold date_tolerance_days with
      | Some best_match =>
          (pm_event, best_match)
            :: match_events rest kalshi_events
                 title_similarity_threshold date_tolerance_days
      | None =>
          match_events rest kalshi_events
            title_similarity_threshold date_tolerance_days
      end
  end.

(** *** Vocabulary of the specification of the matcher *)

(** The score of a candidate against a source event. *)
Definition similarity (pm_event kalshi_event : Event) : Q :=
  calculate_title_similarity (title pm_event) (title kalshi_event).

(** The candidate survives the date filter. *)
Definition in_tolerance (pm_event kalshi_event : Event)
    (date_tolerance_days : Z) : Prop :=
  date_filtered pm_event kalshi_event date_tolerance_days = false.

(** The selection rule in the words of the specification: [k], at index
    [i] of the targets, is within tolerance, its score reaches the
    threshold and is the highest of the candidates within tolerance, and it
    is the first one with that score. *)
Definition first_highest_qualifying (pm_event : Event)
    (kalshi_events : list Event) (threshold : Q) (date_tolerance_days : Z)
    (i : nat) (k : Event) : Prop :=
  kalshi_events !! i = Some k
  ∧ in_tolerance pm_event k date_tolerance_days
  ∧ (threshold <= similarity pm_event k)%Q
  ∧ (∀ j k', kalshi_events !! j = Some k' →
       in_tolerance pm_event k' date_tolerance_days →
       (similarity pm_event k' <= similarity pm_event k)%Q)
  ∧ (∀ j k', (j < i)%nat → kalshi_events !! j = Some k' →
       in_tolerance pm_event k' date_tolerance_days →
       (similarity pm_event k' < similarity pm_event k)%Q).

End WithRatio.
End Matcher.

(** ** [platforms/]: the client interface and its two implementations *)

(** What a call of [get_events] meets outside the client: an error of
    the request (connection, status, undecodable body); a payload on
    which the normalisation loop of the client runs to its end, given by
    the events that the loop makes of it; or a payload on which the loop
    raises an exception that no [try] of the client catches (in
    [polymarket.py] the comparison of a naive end date with the cutoff, in
    [manifold.py] a probability that is not a number, a market without
    [id], a timestamp out of range). *)
Inductive Response :=
| NetError (msg : string)
| Payload (events : list Event)
| PayloadError (msg : string).

(** A call that returns or raises. *)
Inductive result (A : Type) :=
| Return (a : A)
| Raise (msg : string).
Arguments Return {A} a.
Arguments Raise {A} msg.

(** The abstract base class [PlatformClient]. *)
Class PlatformClient := {
  get_events : Response → result (list Event);
  get_fee_rate : Q;
  get_platform_name : string
}.

(** [PolymarketClient]: [requests.get] and [response.json()] are called
    outside any [try], and so is the normalisation loop. *)
Definition PolymarketClient : PlatformClient := {|
  get_events r :=
    match r with
    | NetError msg => Raise msg
    | Payload events => Return events
    | PayloadError msg => Raise msg
    end;
  get_fee_rate := fl 0.002;
  get_platform_name := "polymarket"
|}.

(** [ManifoldPlatformClient]: the request is inside
    [try: ... except Exception: return []], the normalisation loop comes
    after it. *)
Definition ManifoldPlatformClient : PlatformClient := {|
  get_events r :=
    match r with
    | NetError msg => Return []
    | Payload events => Return events
    | PayloadError msg => Raise msg
    end;
  get_fee_rate := 0%Q;
  get_platform_name := "manifold"
|}.

(** ** [arbitrage.py] *)

Module Arbitrage.

Inductive Direction := pm_yes_kalshi_no | pm_no_kalshi_yes.

Record Opportunity := {
  pm_event : Event;
  kalshi_event : Event;
  pm_market : Market;
  kalshi_market : Market;
  direction : Direction;
  pm_price : Q;
  kalshi_price : Q;
  total_cost : Q;
  total_cost_with_fees : Q;
  payout : Q;
  profit : Q;
  profit_pct : Q
}.

Local Open Scope Q_scope.

(** [cost_with_fees_scenario], [profit_scenario] and
    [profit_pct_scenario] of the two legs [a] (bought on Polymarket) and
    [b] (bought on the other platform), each operation rounded as Python
    rounds it. *)
Definition cost_with_fees (a b pm_fee_rate kalshi_fee_rate : Q) : Q :=
  fadd (fmul a (fadd 1 pm_fee_rate)) (fmul b (fadd 1 kalshi_fee_rate)).

Definition profit_of (cost_with_fees : Q) : Q := fsub 1 cost_with_fees.

Definition profit_pct_of (cost_with_fees : Q) : Q :=
  if Qgtb cost_with_fees 0
  then fmul (fdiv (profit_of cost_with_fees) cost_with_fees) 100
  else 0.

(** The dictionary appended for one scenario. *)
Definition scenario (pm_event kalshi_event : Event)
    (pm_market kalshi_market : Market) (d : Direction) (a b : Q)
    (pm_fee_rate kalshi_fee_rate : Q) : Opportunity :=
  let cwf := cost_with_fees a b pm_fee_rate kalshi_fee_rate in
  {| pm_event := pm_event;
     kalshi_event := kalshi_event;
     pm_market := pm_market;
     kalshi_market := kalshi_market;
     direction := d;
     pm_price := a;
     kalshi_price := b;
     total_cost := fadd a b;
     total_cost_with_fees := cwf;
     payout := 1;
     profit := profit_of cwf;
     profit_pct := profit_pct_of cwf |}.

(** The body of the loop: what one matched pair appends to
    [opportunities]. *)
Definition detect_pair (pm_fee_rate kalshi_fee_rate min_profit_pct : Q)
    (matched : Event * Event) : list Opportunity :=
  let '(pm_event, kalshi_event) := matched in
  match markets pm_event, markets kalshi_event with
  | pm_market :: _, kalshi_market :: _ =>
      match yes_price pm_market, no_price pm_market,
            yes_price kalshi_market, no_price kalshi_market with
      | Some pm_yes, Some pm_no, Some kalshi_yes, Some kalshi_no =>
          let s1 := scenario pm_event kalshi_event pm_market kalshi_market
                      pm_yes_kalshi_no pm_yes kalshi_no
                      pm_fee_rate kalshi_fee_rate in
          let s2 := scenario pm_event kalshi_event pm_market kalshi_market
                      pm_no_kalshi_yes pm_no kalshi_yes
                      pm_fee_rate kalshi_fee_rate in
          (if Qgeb (profit_pct s1) min_profit_pct then [s1] else [])
          ++ (if Qgeb (profit_pct s2) min_profit_pct then [s2] else [])
      | _, _, _, _ => []
      end
  | _, _ => []
  end.

(** [order_size_usd] is not read by the function and is left out. *)
Fixpoint find_arbitrage_opportunities (matched_events : list (Event * Event))
    (polymarket_client kalshi_client : PlatformClient)
    (min_profit_pct : Q) : list Opportunity :=
  match matched_events with
  | [] => []
  | matched :: rest =>
      detect_pair (@get_fee_rate polymarket_client)
                  (@get_fee_rate kalshi_client) min_profit_pct matched
      ++ find_arbitrage_opportunities rest polymarket_client kalshi_client
           min_profit_pct
  end.

(** *** Vocabulary of the specification of the detector *)

(** [fee_cost] and [profit_pct] as real numbers, in the words of the
    specification. *)
Definition real_fee_cost (price_a price_b fee_rate_a fee_rate_b : Q) : Q :=
  price_a * (1 + fee_rate_a) + price_b * (1 + fee_rate_b).

Definition real_profit_pct (fee_cost : Q) : Q :=
  if Qlt_le_dec 0 fee_cost then 100 * (1 - fee_cost) / fee_cost else 0.

(** The same quantities as floats: every operation is rounded, and the
    percentage is the quotient [profit / fee_cost] times 100. *)
Definition spec_fee_cost (price_a price_b fee_rate_a fee_rate_b : Q) : Q :=
  fl (fl (price_a * fl (1 + fee_rate_a)) + fl (price_b * fl (1 + fee_rate_b))).

Definition spec_profit (fee_cost : Q) : Q := fl (1 - fee_cost).

Definition spec_profit_pct (fee_cost : Q) : Q :=
  if Qlt_le_dec 0 fee_cost
  then fl (fl (spec_profit fee_cost / fee_cost) * 100)
  else 0.

(** [o] is the opportunity of direction [d] on the pair [(A, B)], bought
    at [price_a] on the first platform and [price_b] on the second. *)
Definition opportunity_of (o : Opportunity) (A B : Event) (d : Direction)
    (price_a price_b fee_rate_a fee_rate_b : Q) : Prop :=
  pm_event o = A ∧ kalshi_event o = B ∧ direction o = d
  ∧ pm_price o = price_a ∧ kalshi_price o = price_b
  ∧ total_cost o == fl (price_a + price_b)
  ∧ total_cost_with_fees o
    == spec_fee_cost price_a price_b fee_rate_a fee_rate_b
  ∧ payout o == 1
  ∧ profit o
    == spec_profit (spec_fee_cost price_a price_b fee_rate_a fee_rate_b)
  ∧ profit_pct o
    == spec_profit_pct (spec_fee_cost price_a price_b fee_rate_a fee_rate_b).

(** A price of the first market of one of the two events is missing. *)
Definition price_missing (first_a first_b : Market) : Prop :=
  yes_price first_a = None ∨ no_price first_a = None
  ∨ yes_price first_b = None ∨ no_price first_b = None.

End Arbitrage.

(** ** [stats_writer.py] *)

Module StatsWriter.
Import Arbitrage.

(** An entry of [current_scan['opportunities']]. *)
Record OppSummary := {
  summary_title : string;
  summary_direction : Direction;
  summary_profit_pct : Q;
  summary_profit : Q;
  pm_yes : Q;
  pm_no : option Q;
  manifold_yes : option Q;
  manifold_no : Q
}.

(** An entry of [pm_sample] and [manifold_sample]. *)
Record Sample := {
  sample_title : string;
  sample_end_date : option Z;
  markets_count : nat
}.

(** An entry of [matched_details]. *)
Record MatchedDetail := {
  pm_title : string;
  manifold_title : string;
  pm_end_date : option Z;
  manifold_end_date : option Z
}.

(** [current_scan] *)
Record Scan := {
  timestamp : string;
  pm_events : Z;
  manifold_events : Z;
  matched : Z;
  opportunities_count : Z;
  alerts_sent : Z;
  opportunities : list OppSummary;
  pm_sample : option (list Sample);
  manifold_sample : option (list Sample);
  matched_details : option (list MatchedDetail)
}.

(** [stats['best_opportunity']] when it is not [None]. *)
Record Best := {
  best_title : string;
  best_profit_pct : Q;
  best_profit : Q;
  best_timestamp : string
}.

(** The JSON object of the stats file. *)
Record Stats := {
  scan_history : list Scan;
  total_scans : Z;
  total_opportunities : Z;
  total_alerts : Z;
  best_opportunity : option Best;
  last_scan : option Scan
}.

(** [STATS_FILE] on disk: missing, there but not loadable as a stats
    object ([json.load] or the first use of a key raises), or holding a
    stats object. *)
Inductive File :=
| Absent
| Unreadable
| Stored (stats : Stats).

(** The arguments of one call, with the reading of the clock that
    stamps it. *)
Record Call := {
  now_iso : string;
  pm_events_count : Z;
  manifold_events_count : Z;
  matched_count : Z;
  arg_opportunities_count : Z;
  arg_alerts_sent : Z;
  arg_opportunities : list Opportunity;
  pm_sample_events : option (list Event);
  manifold_sample_events : option (list Event);
  matched_pairs : option (list (Event * Event))
}.

(** Sequencing of calls that may raise, written [x ← r; k]. *)
#[local] Instance result_bind : MBind result := λ A B k r,
  match r with
  | Return a => k a
  | Raise msg => Raise msg
  end.

Fixpoint map_result {A B} (f : A → result B) (l : list A)
    : result (list B) :=
  match l with
  | [] => Return []
  | a :: l' => b ← f a ; bs ← map_result f l' ; Return (b :: bs)
  end.

Definition empty_stats : Stats := {|
  scan_history := [];
  total_scans := 0;
  total_opportunities := 0;
  total_alerts := 0;
  best_opportunity := None;
  last_scan := None
|}.

(** [if STATS_FILE.exists(): stats = json.load(f) else: stats = {...}] *)
Definition load (file : File) : result Stats :=
  match file with
  | Absent => Return empty_stats
  | Unreadable => Raise "json.load"
  | Stored stats => Return stats
  end.

(** One entry of the [opportunities] comprehension; [markets[0]] raises
    on an event without markets. *)
Definition summarize (opp : Opportunity) : result OppSummary :=
  match markets (pm_event opp), markets (kalshi_event opp) with
  | pm_first :: _, kalshi_first :: _ =>
      Return {|
        summary_title := str_take 60 (title (pm_event opp));
        summary_direction := direction opp;
        summary_profit_pct := profit_pct opp;
        summary_profit := profit opp;
        pm_yes := pm_price opp;
        pm_no := no_price pm_first;
        manifold_yes := yes_price kalshi_first;
        manifold_no := kalshi_price opp
      |}
  | _, _ => Raise "IndexError"
  end.

Definition sample_of (e : Event) : Sample := {|
  sample_title := str_take 60 (title e);
  sample_end_date := Some (end_date e);
  markets_count := length (markets e)
|}.

Definition detail_of (p : Event * Event) : MatchedDetail := {|
  pm_title := str_take 50 (title (fst p));
  manifold_title := str_take 50 (title (snd p));
  pm_end_date := Some (end_date (fst p));
  manifold_end_date := Some (end_date (snd p))
|}.

(** [if xs: current_scan[key] = [f(x) for x in xs[:n]]]: the key is set
    only for a list that is neither [None] nor empty. *)
Definition if_nonempty {A B} (n : nat) (f : A → B) (xs : option (list A))
    : option (list B) :=
  match xs with
  | Some (x :: xs') => Some (f <$> take n (x :: xs'))
  | _ => None
  end.

Definition current_scan_of (c : Call) : result Scan :=
  opps ← map_result summarize (arg_opportunities c) ;
  Return {|
    timestamp := now_iso c;
    pm_events := pm_events_count c;
    manifold_events := manifold_events_count c;
    matched := matched_count c;
    opportunities_count := arg_opportunities_count c;
    alerts_sent := arg_alerts_sent c;
    opportunities := opps;
    pm_sample := if_nonempty 5 sample_of (pm_sample_events c);
    manifold_sample := if_nonempty 5 sample_of (manifold_sample_events c);
    matched_details := if_nonempty 10 detail_of (matched_pairs c)
  |}.

(** [l[-n:]], for a positive [n] *)
Definition last_n {A} (n : nat) (l : list A) : list A :=
  drop (length l - n) l.

(** [max(opportunities, key=lambda x: x.get('profit_pct', 0))] on a list
    with first element [best]: the first element of greatest key. *)
Fixpoint max_profit_pct (best : Opportunity) (rest : list Opportunity)
    : Opportunity :=
  match rest with
  | [] => best
  | o :: rest' =>
      max_profit_pct
        (if Qgtb (profit_pct o) (profit_pct best) then o else best) rest'
  end.

Definition new_best (best : Opportunity) (current_scan : Scan) : Best := {|
  best_title := str_take 60 (title (pm_event best));
  best_profit_pct := profit_pct best;
  best_profit := profit best;
  best_timestamp := timestamp current_scan
|}.

(** The block under [# Track best opportunity]. *)
Definition track_best (stored : option Best) (opps : list Opportunity)
    (current_scan : Scan) : option Best :=
  match opps with
  | [] => stored
  | o :: rest =>
      let best := max_profit_pct o rest in
      match stored with
      | None => Some (new_best best current_scan)
      | Some b =>
          if Qgtb (profit_pct best) (best_profit_pct b)
          then Some (new_best best current_scan)
          else Some b
      end
  end.

(** The block under [# Update stats], the truncation of the history
    and the tracking of the best opportunity. *)
Definition update_stats (stats : Stats) (current_scan : Scan) (c : Call)
    : Stats :=
  let history := scan_history stats ++ [current_scan] in
  {| scan_history :=
       if (100 <? length history)%nat then last_n 100 history else history;
     total_scans := Z.of_nat (length history);
     total_opportunities :=
       total_opportunities stats + arg_opportunities_count c;
     total_alerts := total_alerts stats + arg_alerts_sent c;
     best_opportunity :=
       track_best (best_opportunity stats) (arg_opportunities c) current_scan;
     last_scan := Some current_scan |}.

(** The body of the [try] up to the write. *)
Definition new_stats (file : File) (c : Call) : result Stats :=
  stats ← load file ;
  current_scan ← current_scan_of c ;
  Return (update_stats stats current_scan c).

(** [write_scan_stats]: the file after the call.  The [except] branch
    prints and leaves the file as it was. *)
Definition write_scan_stats (file : File) (c : Call) : File :=
  match new_stats file c with
  | Return stats => Stored stats
  | Raise _ => file
  end.

(** [get_stats] *)
Definition get_stats (file : File) : option Stats :=
  match file with
  | Stored stats => Some stats
  | _ => None
  end.

(** Successive calls, the first one first. *)
Definition record_all (file : File) (calls : list Call) : File :=
  fold_left write_scan_stats calls file.

(** *** Vocabulary of the specification of the aggregator *)

(** The record that a call appends, when building it does not raise. *)
Definition scan_recorded (c : Call) : option Scan :=
  match current_scan_of c with
  | Return current_scan => Some current_scan
  | Raise _ => None
  end.

(** The records of the calls that append one, the first one first. *)
Definition recorded (calls : list Call) : list Scan := omap scan_recorded calls.

(** The history that a reader of the file sees. *)
Definition history_of (file : File) : list Scan :=
  match file with
  | Stored stats => scan_history stats
  | _ => []
  end.

End StatsWriter.

(** ** [paper_trader.py] *)

Module PaperTrader.
Import Arbitrage StatsWriter.

Definition SCAN_INTERVAL : Z := 60.
Definition MIN_PROFIT_AFTER_FEES_PCT : Q := 0.5%Q.
Definition ALERT_COOLDOWN_SECONDS : Z := 30 * 60.
Definition TITLE_SIMILARITY_THRESHOLD : Q := 0.5%Q.
Definition DATE_MATCH_TOLERANCE_DAYS : Z := 3.

Definition direction_tag (d : Direction) : string :=
  match d with
  | pm_yes_kalshi_no => "pm_yes_kalshi_no"
  | pm_no_kalshi_yes => "pm_no_kalshi_yes"
  end.

(** [f"{pm_event['id']}_{manifold_event['id']}_{opp['direction']}"] *)
Definition cooldown_key (opp : Opportunity) : string :=
  (id (pm_event opp) +:+ "_" +:+ id (kalshi_event opp) +:+ "_"
     +:+ direction_tag (direction opp))%string.

(** [now - last_alerted.get(event_id, 0) < ALERT_COOLDOWN_SECONDS].  The
    subtraction is written without its rounding: on two readings of the
    clock, which lie within a factor of two of each other, and on a
    reading and the default 0, the difference is a float and the rounding
    does not change it ([clock_difference_is_exact] below). *)
Definition in_cooldown (last_alerted : gmap string Q) (event_id : string)
    (now : Q) : bool :=
  Qltb (now - default 0%Q (last_alerted !! event_id))
       (inject_Z ALERT_COOLDOWN_SECONDS).

(** The cooldown test and the stamp for one opportunity, detected at
    [now]: the map afterwards, and whether the alert goes out. *)
Definition dispatch_one (last_alerted : gmap string Q) (event_id : string)
    (now : Q) : gmap string Q * bool :=
  if in_cooldown last_alerted event_id now then (last_alerted, false)
  else (<[event_id := now]> last_alerted, true).

(** The state of the [for opp in opportunities] loop: the cooldown map,
    the counter and the alerts handed to [send_telegram_msg]. *)
Record Dispatch := {
  d_last_alerted : gmap string Q;
  d_alerts_sent : Z;
  d_alerts : list Opportunity
}.

(** The loop; [clock i] is what [time.time()] returns for the
    opportunity of index [i]. *)
Fixpoint dispatch (opps : list Opportunity) (clock : nat → Q) (i : nat)
    (st : Dispatch) : Dispatch :=
  match opps with
  | [] => st
  | opp :: rest =>
      let '(last_alerted, alerted) :=
        dispatch_one (d_last_alerted st) (cooldown_key opp) (clock i) in
      dispatch rest clock (S i)
        (if alerted
         then {| d_last_alerted := last_alerted;
                 d_alerts_sent := d_alerts_sent st + 1;
                 d_alerts := d_alerts st ++ [opp] |}
         else st)
  end.

(** [xs[:n] if xs else None] *)
Definition head_or_none {A} (n : nat) (xs : list A) : option (list A) :=
  match xs with
  | [] => None
  | _ => Some (take n xs)
  end.

(** What lives across the iterations of [while True]. *)
Record Bot := {
  last_alerted : gmap string Q;
  stats_file : File
}.

(** What one iteration reads from outside: the two responses, the clock
    of the dispatch loop and the timestamp of the stats. *)
Record Inputs := {
  pm_response : Response;
  manifold_response : Response;
  clock : nat → Q;
  scan_timestamp : string
}.

(** How one iteration ends: through to [write_scan_stats] and the normal
    sleep, or in the [except] branch. *)
Inductive Outcome :=
| Scanned (pm_events manifold_events : list Event)
          (alerts : list Opportunity)
| LoopError (msg : string).

Section WithRatio.

Variable ratio : string → string → Q.
Variable lower : string → string.

(** The body of [while True]: the state afterwards, how the iteration
    ended, and the seconds slept. *)
Definition scan_cycle (bot : Bot) (inp : Inputs) : Bot * Outcome * Z :=
  match @get_events PolymarketClient (pm_response inp) with
  | Raise msg => (bot, LoopError msg, 10)
  | Return pm_events =>
      match @get_events ManifoldPlatformClient (manifold_response inp) with
      | Raise msg => (bot, LoopError msg, 10)
      | Return manifold_events =>
          let matched_events :=
            Matcher.match_events ratio lower pm_events manifold_events
              TITLE_SIMILARITY_THRESHOLD DATE_MATCH_TOLERANCE_DAYS in
          let opportunities :=
            find_arbitrage_opportunities matched_events
              PolymarketClient ManifoldPlatformClient
              MIN_PROFIT_AFTER_FEES_PCT in
          let d :=
            dispatch opportunities (clock inp) O
              {| d_last_alerted := last_alerted bot;
                 d_alerts_sent := 0;
                 d_alerts := [] |} in
          let file :=
            write_scan_stats (stats_file bot)
              {| now_iso := scan_timestamp inp;
                 pm_events_count := Z.of_nat (length pm_events);
                 manifold_events_count := Z.of_nat (length manifold_events);
                 matched_count := Z.of_nat (length matched_events);
                 arg_opportunities_count := Z.of_nat (length opportunities);
                 arg_alerts_sent := d_alerts_sent d;
                 arg_opportunities := opportunities;
                 pm_sample_events := head_or_none 5 pm_events;
                 manifold_sample_events := head_or_none 5 manifold_events;
                 matched_pairs := head_or_none 10 matched_events |} in
          ({| last_alerted := d_last_alerted d; stats_file := file |},
           Scanned pm_events manifold_events (d_alerts d),
           SCAN_INTERVAL)
      end
  end.

End WithRatio.
End PaperTrader.

(** ** Data of the worked examples *)

Module Samples.

Definition binary (i q : string) (yes no : option Q) : Market :=
  {| market_id := i; question := q; yes_price := yes; no_price := no |}.

Definition pm_btc : Event :=
  {| id := "pm-btc"; title := "Will Bitcoin hit 100k"; end_date := 0;
     markets := [binary "pm-btc-m" "Will Bitcoin hit 100k"
                   (Some (fl 0.40)) (Some (fl 0.62))];
     platform := "polymarket" |}.

(** A Manifold event at the probability of the literal [p]. *)
Definition manifold (i t : string) (d : Z) (p : Q) : Event :=
  {| id := i; title := t; end_date := d;
     markets := [binary i t (Some (fl p)) (Some (fsub 1 (fl p)))];
     platform := "manifold" |}.

Definition mf_lakers : Event := manifold "mf-l" "Lakers win the title" 0 0.5%Q.
Definition mf_btc_a : Event :=
  manifold "mf-a" "Bitcoin hits 100k" 3600000000 0.55%Q.
Definition mf_btc_b : Event :=
  manifold "mf-b" "Bitcoin hits 100k" 7200000000 0.30%Q.

(** Three days after [pm_btc], and one microsecond later. *)
Definition mf_edge : Event :=
  manifold "mf-edge" "Will Bitcoin hit 100k" 259200000000 0.55%Q.
Definition mf_late : Event :=
  manifold "mf-late" "Will Bitcoin hit 100k" 259200000001 0.55%Q.

(** 200000 days after [pm_btc], and one microsecond later. *)
Definition mf_far : Event :=
  manifold "mf-far" "Will Bitcoin hit 100k" 17280000000000001 0.55%Q.

(** Two titles without a common character. *)
Definition pm_rain : Event :=
  {| id := "pm-rain"; title := "RAIN"; end_date := 0;
     markets := [binary "pm-rain-m" "RAIN" (Some (fl 0.40)) (Some (fl 0.62))];
     platform := "polymarket" |}.
Definition mf_sleet : Event := manifold "mf-sleet" "sleet" 0 0.55%Q.

(** One cycle with one opportunity, as the scan loop reports it. *)
Definition sample_call : StatsWriter.Call :=
  {| StatsWriter.now_iso := "2026-01-01T00:00:00+00:00";
     StatsWriter.pm_events_count := 1;
     StatsWriter.manifold_events_count := 2;
     StatsWriter.matched_count := 1;
     StatsWriter.arg_opportunities_count := 1;
     StatsWriter.arg_alerts_sent := 1;
     StatsWriter.arg_opportunities :=
       Arbitrage.detect_pair (fl 0.002) 0 0.5 (pm_btc, mf_btc_a);
     StatsWriter.pm_sample_events := Some [pm_btc];
     StatsWriter.manifold_sample_events := Some [mf_lakers; mf_btc_a];
     StatsWriter.matched_pairs := Some [(pm_btc, mf_btc_a)] |}.

(** The stats file after that cycle, and the next cycle, one minute
    later, with the same opportunity. *)
Definition file_after_one : StatsWriter.File :=
  StatsWriter.write_scan_stats StatsWriter.Absent sample_call.

Definition later_call : StatsWriter.Call :=
  {| StatsWriter.now_iso := "2026-01-01T00:01:00+00:00";
     StatsWriter.pm_events_count := 1;
     StatsWriter.manifold_events_count := 2;
     StatsWriter.matched_count := 1;
     StatsWriter.arg_opportunities_count := 1;
     StatsWriter.arg_alerts_sent := 0;
     StatsWriter.arg_opportunities :=
       Arbitrage.detect_pair (fl 0.002) 0 0.5 (pm_btc, mf_btc_a);
     StatsWriter.pm_sample_events := Some [pm_btc];
     StatsWriter.manifold_sample_events := Some [mf_lakers; mf_btc_a];
     StatsWriter.matched_pairs := Some [(pm_btc, mf_btc_a)] |}.

(** The cooldown key of that opportunity. *)
Definition btc_key : string := "pm-btc_mf-a_pm_yes_kalshi_no".

(** A target quoted on both sides: YES at 0.55, NO at 0.45. *)
Definition kalshi_btc : Event :=
  {| id := "k-btc"; title := "Bitcoin hits 100k"; end_date := 3600000000;
     markets := [binary "k-btc-m" "Bitcoin hits 100k"
                   (Some (fl 0.55)) (Some (fl 0.45))];
     platform := "kalshi" |}.

(** A pair at the edge of the threshold: YES at 0.008 on Polymarket, NO
    at 0.9870088756218905 on the second platform. *)
Definition pm_cent_market : Market :=
  binary "pm-cent-m" "Will Bitcoin hit 100k" (Some (fl 0.008)) (Some (fl 0.993)).
Definition pm_cent : Event :=
  {| id := "pm-cent"; title := "Will Bitcoin hit 100k"; end_date := 0;
     markets := [pm_cent_market]; platform := "polymarket" |}.
Definition mf_near_market : Market :=
  binary "mf-near" "Bitcoin hits 100k" (Some (fl 0.013))
    (Some (fl 0.9870088756218905)).
Definition mf_near : Event :=
  {| id := "mf-near"; title := "Bitcoin hits 100k"; end_date := 0;
     markets := [mf_near_market]; platform := "kalshi" |}.

(** The call of the cycle number [i], which found [i] Polymarket events
    and nothing else. *)
Definition numbered_call (i : nat) : StatsWriter.Call :=
  {| StatsWriter.now_iso := "2026-01-01T00:00:00+00:00";
     StatsWriter.pm_events_count := Z.of_nat i;
     StatsWriter.manifold_events_count := 0;
     StatsWriter.matched_count := 0;
     StatsWriter.arg_opportunities_count := 0;
     StatsWriter.arg_alerts_sent := 0;
     StatsWriter.arg_opportunities := [];
     StatsWriter.pm_sample_events := None;
     StatsWriter.manifold_sample_events := None;
     StatsWriter.matched_pairs := None |}.

(** An event whose list of markets is empty. *)
Definition mf_empty : Event :=
  {| id := "mf-e"; title := "Bitcoin hits 100k"; end_date := 0;
     markets := []; platform := "manifold" |}.

End Samples.

(** ** [platforms/polymarket.py]: prices from the order book *)

Module Polymarket.

(** An entry of [book.asks], by what [float(ask.price)] and
    [float(ask.size)] give: [None] when [float] raises. *)
Record Ask := {
  price : option Q;
  size : option Q
}.

(** What [self.client.get_order_book(token_id)] comes to: an exception,
    or a book with its asks, none when the attribute is missing or
    empty. *)
Inductive Book :=
| BookError
| BookAsks (asks : list Ask).

(** [_get_best_ask], on the book that its request gets. *)
Definition _get_best_ask (book : Book) : option Q :=
  match book with
  | BookError => None
  | BookAsks [] => None
  | BookAsks (best :: _) => price best
  end.

(** The [for ask in book.asks] loop of [_get_impact_price], on the loop
    state [(filled_usd, shares)]; [None] when an exception leaves it
    ([float] on a malformed entry, a division by a price of zero). *)
Fixpoint walk_asks (asks : list Ask) (amount_usd filled_usd shares : Q)
    : option (Q * Q) :=
  match asks with
  | [] => Some (filled_usd, shares)
  | ask :: rest =>
      match price ask, size ask with
      | Some p, Some s =>
          let avail := fmul p s in
          if Qgeb (fadd filled_usd avail) amount_usd then
            let rem := fsub amount_usd filled_usd in
            if Qeq_bool p 0 then None
            else Some (amount_usd, fadd shares (fdiv rem p))
          else walk_asks rest amount_usd (fadd filled_usd avail) (fadd shares s)
      | _, _ => None
      end
  end.

(** [_get_impact_price], on the book that its request gets. *)
Definition _get_impact_price (book : Book) (amount_usd : Q) : option Q :=
  match book with
  | BookError => None
  | BookAsks [] => None
  | BookAsks (best :: rest) =>
      match walk_asks (best :: rest) amount_usd 0 0 with
      | None => None
      | Some (filled_usd, shares) =>
          if Qgeb filled_usd amount_usd then
            if Qeq_bool shares 0 then None else Some (fdiv amount_usd shares)
          else price best
      end
  end.

(** The value of [clobTokenIds] in a market of the Gamma API. *)
Inductive RawIds :=
| IdsNone
| IdsList (l : list string)
| IdsStr (s : string)
| IdsOther.

(** What [json.loads] returns: a list, or another value. *)
Inductive Json :=
| JsonList (l : list string)
| JsonOther.

(** Every ask of the list has a price and a size, neither of them
    negative. *)
Definition asks_offered (asks : list Ask) : Prop :=
  ∀ ask, ask ∈ asks →
    ∃ p s, price ask = Some p ∧ size ask = Some s ∧ (0 <= p)%Q ∧ (0 <= s)%Q.

(** The dollars that the asks of a book offer in all, on top of
    [filled_usd]: the products [price * size] added up in the order of
    the book, each product and each sum rounded. *)
Fixpoint depth_usd (asks : list Ask) (filled_usd : Q) : Q :=
  match asks with
  | [] => filled_usd
  | ask :: rest =>
      depth_usd rest
        (fadd filled_usd
           (fmul (default 0%Q (price ask)) (default 0%Q (size ask))))
  end.

(** What [datetime.fromisoformat(end_str.replace("Z", "+00:00"))] comes
    to: a datetime with an offset, a naive one (the text has no offset),
    or a [ValueError]. *)
Inductive IsoDate :=
| Aware (dt : Z)
| Naive
| Invalid.

Section Normalise.

(** [json.loads] on a string ([None] when it raises
    [JSONDecodeError]), [datetime.fromisoformat] on the end date, the book
    that the request number [n] to the order book gets for a token, and
    [cutoff_time]. *)
Variable json_loads : string → option Json.
Variable fromisoformat : string → IsoDate.
Variable get_order_book : nat → string → Book.
Variable cutoff_time : Z.

Definition _parse_clob_token_ids (raw : RawIds) : option (list string) :=
  match raw with
  | IdsNone => None
  | IdsList l => if (2 <=? length l)%nat then Some l else None
  | IdsStr s =>
      match json_loads s with
      | Some (JsonList out) =>
          if (2 <=? length out)%nat then Some out else None
      | _ => None
      end
  | IdsOther => None
  end.

(** [self.order_size_usd] *)
Definition order_size_usd : Q := 1.

(** The lines under [# Get prices]: the YES and NO prices of a market,
    and the number of the next request; the requests made so far are
    [n]. *)
Definition quote (n : nat) (yes_token no_token : string)
    : option Q * option Q * nat :=
  let yes_impact :=
    _get_impact_price (get_order_book n yes_token) order_size_usd in
  let '(yes_price, n1) :=
    match yes_impact with
    | Some _ => (yes_impact, S n)
    | None => (_get_best_ask (get_order_book (S n) yes_token), S (S n))
    end in
  let no_impact :=
    _get_impact_price (get_order_book n1 no_token) order_size_usd in
  match no_impact with
  | Some _ => (yes_price, no_impact, S n1)
  | None =>
      let no_ask := _get_best_ask (get_order_book (S n1) no_token) in
      (yes_price,
       match no_ask, yes_price with
       | None, Some yes => Some (fsub 1 yes)
       | _, _ => no_ask
       end,
       S (S n1))
  end.

(** A market of an event of the Gamma API: the three flags of the
    tradeable filter ([enableOrderBook is True], [closed is True],
    [acceptingOrders is False]) and the keys read afterwards. *)
Record RawMarket := {
  enableOrderBook : bool;
  closed : bool;
  acceptingOrders_is_False : bool;
  clobTokenIds : RawIds;
  raw_market_id : string;
  raw_market_slug : string;
  raw_question : string
}.

Record RawEvent := {
  endDate : option string;
  raw_markets : list RawMarket;
  raw_id : string;
  raw_slug : string;
  raw_title : string
}.

(** [x or y] on strings: [y] when [x] is empty or missing. *)
Definition str_or (x y : string) : string :=
  if String.eqb x "" then y else x.

Definition tradeable (m : RawMarket) : bool :=
  enableOrderBook m && negb (closed m) && negb (acceptingOrders_is_False m).

(** The [for m in tradeable] loop. *)
Fixpoint normalize_markets (n : nat) (ms : list RawMarket)
    : list Market * nat :=
  match ms with
  | [] => ([], n)
  | m :: rest =>
      match _parse_clob_token_ids (clobTokenIds m) with
      | Some (yes_token :: no_token :: _) =>
          let '(yes_price, no_price, n') := quote n yes_token no_token in
          match yes_price with
          | None => normalize_markets n' rest
          | Some _ =>
              let '(normalized, n'') := normalize_markets n' rest in
              ({| market_id := str_or (raw_market_id m) (raw_market_slug m);
                  question := raw_question m;
                  yes_price := yes_price;
                  no_price := no_price |} :: normalized, n'')
          end
      | _ => normalize_markets n rest
      end
  end.

(** The [for event in events] loop of [get_events].  A naive end date
    cannot be compared with [cutoff_time], which has an offset: the
    [TypeError] of the comparison is outside any [try] and leaves the
    function. *)
Fixpoint normalize_events (n : nat) (events : list RawEvent)
    : result (list Event) :=
  match events with
  | [] => Return []
  | event :: rest =>
      match endDate event with
      | None => normalize_events n rest
      | Some end_str =>
          if String.eqb end_str "" then normalize_events n rest else
          match fromisoformat end_str with
          | Invalid => normalize_events n rest
          | Naive => Raise "TypeError"
          | Aware end_dt =>
              if (cutoff_time <? end_dt)%Z then normalize_events n rest else
              match filter (λ m, tradeable m = true) (raw_markets event) with
              | [] => normalize_events n rest
              | m :: ms =>
                  let '(normalized, n') := normalize_markets n (m :: ms) in
                  match normalized with
                  | [] => normalize_events n' rest
                  | _ =>
                      match normalize_events n' rest with
                      | Raise msg => Raise msg
                      | Return normalized_events =>
                          Return
                            ({| id := str_or (raw_id event) (raw_slug event);
                                title := raw_title event;
                                end_date := end_dt;
                                markets := normalized;
                                platform := "polymarket" |}
                               :: normalized_events)
                      end
                  end
              end
          end
      end
  end.

(** [get_events], on what the request to the Gamma API comes to: [None]
    when [requests.get] or [response.json()] raises. *)
Definition get_events_raw (response : option (list RawEvent))
    : result (list Event) :=
  match response with
  | None => Raise "requests"
  | Some events => normalize_events O events
  end.

End Normalise.
End Polymarket.

(** ** [platforms/manifold.py]: normalisation of the markets *)

Module Manifold.

(** The value of [probability] in a market: missing, a number, or
    another value ([null], a string), on which [1.0 - probability] raises
    [TypeError]. *)
Inductive RawProbability :=
| ProbabilityMissing
| ProbabilityNumber (p : Q)
| ProbabilityOther.

(** A market of the search endpoint, by the keys that are read:
    [closeTime] in milliseconds ([None] when missing), [isResolved]
    ([false] when missing), [probability], [id] ([None] when missing) and
    [question]. *)
Record RawMarket := {
  closeTime : option Z;
  isResolved : bool;
  probability : RawProbability;
  raw_id : option string;
  raw_question : string
}.

(** What [datetime.fromtimestamp(close_time / 1000, tz=timezone.utc)]
    comes to: a datetime, a [ValueError] or [TypeError], which the loop
    catches, or another exception, which it does not. *)
Inductive Stamp :=
| Stamped (dt : Z)
| StampSkipped
| StampRaised (msg : string).

Section Normalise.

Variable fromtimestamp : Z → Stamp.
Variable cutoff_time : Z.

(** The dictionary appended for a market that is kept; the subtraction
    and the subscript [market['id']] are outside any [try]. *)
Definition event_of (market : RawMarket) (close_dt : Z) : result Event :=
  match
    match probability market with
    | ProbabilityMissing => Some 0.5%Q
    | ProbabilityNumber p => Some p
    | ProbabilityOther => None
    end
  with
  | None => Raise "TypeError"
  | Some probability =>
      let yes_price := probability in
      let no_price := fsub 1 probability in
      match raw_id market with
      | None => Raise "KeyError"
      | Some market_id =>
          Return
            {| id := market_id;
               title := raw_question market;
               end_date := close_dt;
               markets := [ {| market_id := market_id;
                               question := raw_question market;
                               yes_price := Some yes_price;
                               no_price := Some no_price |} ];
               platform := "manifold" |}
      end
  end.

(** The [for market in markets] loop of [get_events]. *)
Fixpoint normalize_markets (raw : list RawMarket) : result (list Event) :=
  match raw with
  | [] => Return []
  | market :: rest =>
      match closeTime market with
      | None => normalize_markets rest
      | Some close_time =>
          if (close_time =? 0)%Z then normalize_markets rest else
          match fromtimestamp close_time with
          | StampSkipped => normalize_markets rest
          | StampRaised msg => Raise msg
          | Stamped close_dt =>
              if (cutoff_time <? close_dt)%Z then normalize_markets rest
              else if isResolved market then normalize_markets rest
              else
                match event_of market close_dt with
                | Raise msg => Raise msg
                | Return event =>
                    match normalize_markets rest with
                    | Raise msg => Raise msg
                    | Return normalized_events =>
                        Return (event :: normalized_events)
                    end
                end
          end
      end
  end.

(** [get_events], on what the request comes to: [None] when the request,
    the status check or the decoding raises, which the [try] turns into
    no event. *)
Definition get_events_raw (response : option (list RawMarket))
    : result (list Event) :=
  match response with
  | None => Return []
  | Some raw => normalize_markets raw
  end.

End Normalise.
End Manifold.

(** ** [platforms/kalshi.py]: the prices of a market *)

Module Kalshi.

(** [_cents_to_decimal]: [cents / 100.0] *)
Definition _cents_to_decimal (cents : Z) : Q := fdiv (of_int cents) 100.

(** The quotes of a market, in cents, [None] for a missing attribute or
    a [None] value. *)
Record Quotes := {
  yes_bid : option Z;
  yes_ask : option Z;
  no_bid : option Z;
  no_ask : option Z
}.

(** The lines of [get_events] that price a market: the ask, else the
    bid, else the complement of the other side; [None] when the market
    is skipped. *)
Definition market_prices (q : Quotes) : option (Q * Q) :=
  let yes_price := _cents_to_decimal <$> yes_ask q in
  let no_price := _cents_to_decimal <$> no_ask q in
  let yes_price :=
    match yes_price, yes_bid q with
    | None, Some bid => Some (_cents_to_decimal bid)
    | _, _ => yes_price
    end in
  let no_price :=
    match no_price, no_bid q with
    | None, Some bid => Some (_cents_to_decimal bid)
    | _, _ => no_price
    end in
  let yes_price :=
    match yes_price, no_price with
    | None, Some no => Some (fsub 1 no)
    | _, _ => yes_price
    end in
  let no_price :=
    match no_price, yes_price with
    | None, Some yes => Some (fsub 1 yes)
    | _, _ => no_price
    end in
  match yes_price, no_price with
  | Some yes, Some no => Some (yes, no)
  | _, _ => None
  end.

(** Every quote of the market that is there is between 0 and 100
    cents. *)
Definition cents_in_range (q : Quotes) : Prop :=
  ∀ cents, (yes_bid q = Some cents ∨ yes_ask q = Some cents
            ∨ no_bid q = Some cents ∨ no_ask q = Some cents) →
    0 ≤ cents ≤ 100.

End Kalshi.

(** ** Further vocabulary *)

(** The prices that a direction buys, read on the two first markets. *)
Definition legs_of (d : Arbitrage.Direction) (mA mB : Market)
    : option Q * option Q :=
  match d with
  | Arbitrage.pm_yes_kalshi_no => (yes_price mA, no_price mB)
  | Arbitrage.pm_no_kalshi_yes => (no_price mA, yes_price mB)
  end.

(** The opportunity of the sample pair: YES on Polymarket at 0.40, NO on
    Manifold at 0.45. *)
Definition sample_opp : Arbitrage.Opportunity :=
  Arbitrage.scenario Samples.pm_btc Samples.mf_btc_a
    (Samples.binary "pm-btc-m" "Will Bitcoin hit 100k"
       (Some (fl 0.40)) (Some (fl 0.62)))
    (Samples.binary "mf-a" "Bitcoin hits 100k"
       (Some (fl 0.55)) (Some (fsub 1 (fl 0.55))))
    Arbitrage.pm_yes_kalshi_no (fl 0.40) (fsub 1 (fl 0.55)) (fl 0.002) 0%Q.

(** The stored best opportunity has a [profit_pct] of at least [q]. *)
Definition best_covers (file : StatsWriter.File) (q : Q) : Prop :=
  ∃ stats b,
    StatsWriter.get_stats file = Some stats
    ∧ StatsWriter.best_opportunity stats = Some b
    ∧ (q <= StatsWriter.best_profit_pct b)%Q.

(** A total of the store, 0 when there is no store to read. *)
Definition total_in (f : StatsWriter.Stats → Z) (file : StatsWriter.File)
    : Z :=
  from_option f 0 (StatsWriter.get_stats file).

(** The sum of a list of integers. *)
Definition sum_Z (l : list Z) : Z := foldr Z.add 0 l.

(** An opportunity handed to the aggregator whose second event has no
    market, and a call that reports it. *)
Definition marketless_opp : Arbitrage.Opportunity :=
  Arbitrage.scenario Samples.pm_btc Samples.mf_empty
    (Samples.binary "pm-btc-m" "Will Bitcoin hit 100k"
       (Some (fl 0.40)) (Some (fl 0.62)))
    (Samples.binary "mf-e" "Bitcoin hits 100k" (Some (fl 0.55))
       (Some (fl 0.45)))
    Arbitrage.pm_yes_kalshi_no (fl 0.40) (fl 0.45) (fl 0.002) 0%Q.

Definition marketless_call : StatsWriter.Call :=
  {| StatsWriter.now_iso := "2026-01-01T00:02:00+00:00";
     StatsWriter.pm_events_count := 1;
     StatsWriter.manifold_events_count := 1;
     StatsWriter.matched_count := 1;
     StatsWriter.arg_opportunities_count := 2;
     StatsWriter.arg_alerts_sent := 0;
     StatsWriter.arg_opportunities := [sample_opp; marketless_opp];
     StatsWriter.pm_sample_events := None;
     StatsWriter.manifold_sample_events := None;
     StatsWriter.matched_pairs := None |}.

(** Two opportunities on different pairs of events, whose identifiers
    contain an underscore. *)
Definition underscore_opp (i1 i2 : string) : Arbitrage.Opportunity :=
  Arbitrage.scenario
    (Samples.manifold i1 "Will Bitcoin hit 100k" 0 0.40%Q)
    (Samples.manifold i2 "Bitcoin hits 100k" 0 0.55%Q)
    (Samples.binary i1 "Will Bitcoin hit 100k" (Some (fl 0.40))
       (Some (fl 0.60)))
    (Samples.binary i2 "Bitcoin hits 100k" (Some (fl 0.55))
       (Some (fl 0.45)))
    Arbitrage.pm_yes_kalshi_no (fl 0.40) (fl 0.45) (fl 0.002) 0%Q.

(** The other direction on the sample pair: NO on Polymarket at 0.62, YES
    on Manifold at 0.55. *)
Definition sample_opp_no : Arbitrage.Opportunity :=
  Arbitrage.scenario Samples.pm_btc Samples.mf_btc_a
    (Samples.binary "pm-btc-m" "Will Bitcoin hit 100k"
       (Some (fl 0.40)) (Some (fl 0.62)))
    (Samples.binary "mf-a" "Bitcoin hits 100k"
       (Some (fl 0.55)) (Some (fsub 1 (fl 0.55))))
    Arbitrage.pm_no_kalshi_yes (fl 0.62) (fl 0.55) (fl 0.002) 0%Q.

(** The identifier holds no underscore. *)
Fixpoint underscore_free (s : string) : Prop :=
  match s with
  | EmptyString => True
  | String c s' => c ≠ "_"%char ∧ underscore_free s'
  end.

(** The pair and the direction that the specification takes as the
    cooldown key. *)
Definition key_triple (opp : Arbitrage.Opportunity)
    : string * string * Arbitrage.Direction :=
  (id (Arbitrage.pm_event opp), id (Arbitrage.kalshi_event opp),
   Arbitrage.direction opp).

(** The state of a dispatch loop that starts with the cooldown map
    [la]. *)
Definition dispatch_start (la : gmap string Q) : PaperTrader.Dispatch :=
  {| PaperTrader.d_last_alerted := la;
     PaperTrader.d_alerts_sent := 0;
     PaperTrader.d_alerts := [] |}.

(** An event that the detector can price: it has a market, and each of
    its markets has both prices. *)
Definition priced (e : Event) : Prop :=
  markets e ≠ []
  ∧ ∀ m, m ∈ markets e → is_Some (yes_price m) ∧ is_Some (no_price m).

(** Sample data of the clients: two books, the oracles of a Polymarket
    request and a raw event, a raw Manifold market, and a cutoff three
    days after the epoch. *)
Definition ask (p s : Q) : Polymarket.Ask :=
  {| Polymarket.price := Some p; Polymarket.size := Some s |}.

Definition thin_asks : list Polymarket.Ask := [ask (fl 0.40) 1].
Definition deep_asks : list Polymarket.Ask :=
  [ask (fl 0.40) 1; ask (fl 0.45) 10].

Definition sample_books (n : nat) (token : string) : Polymarket.Book :=
  if String.eqb token "yes-1" then Polymarket.BookAsks deep_asks
  else Polymarket.BookError.

Definition sample_fromisoformat (s : string) : Polymarket.IsoDate :=
  if String.eqb s "2026-01-02T00:00:00+00:00"
  then Polymarket.Aware 86400000000
  else Polymarket.Invalid.

Definition sample_raw_event : Polymarket.RawEvent :=
  {| Polymarket.endDate := Some "2026-01-02T00:00:00+00:00";
     Polymarket.raw_markets :=
       [ {| Polymarket.enableOrderBook := true;
            Polymarket.closed := false;
            Polymarket.acceptingOrders_is_False := false;
            Polymarket.clobTokenIds := Polymarket.IdsList ["yes-1"; "no-1"];
            Polymarket.raw_market_id := "pm-btc-m";
            Polymarket.raw_market_slug := "will-bitcoin-hit-100k";
            Polymarket.raw_question := "Will Bitcoin hit 100k" |} ];
     Polymarket.raw_id := "pm-btc";
     Polymarket.raw_slug := "will-bitcoin-hit-100k";
     Polymarket.raw_title := "Will Bitcoin hit 100k" |}.

Definition sample_manifold_market : Manifold.RawMarket :=
  {| Manifold.closeTime := Some 90000000;
     Manifold.isResolved := false;
     Manifold.probability := Manifold.ProbabilityNumber (fl 0.55);
     Manifold.raw_id := Some "mf-a";
     Manifold.raw_question := "Bitcoin hits 100k" |}.

Definition sample_fromtimestamp (ms : Z) : Manifold.Stamp :=
  Manifold.Stamped (ms * 1000).

Definition sample_cutoff : Z := 259200000000.

Definition sample_polymarket_events : result (list Event) :=
  Polymarket.get_events_raw (λ _, None) sample_fromisoformat sample_books
    sample_cutoff (Some [sample_raw_event]).

Definition sample_manifold_events : result (list Event) :=
  Manifold.get_events_raw sample_fromtimestamp sample_cutoff
    (Some [sample_manifold_market]).

(** What a call of [get_events] meets, from the reply to its request
    ([None] when the request, the status check or the decoding raises)
    and from what the normalisation loop of the client makes of the
    payload. *)
Definition polymarket_outcome (json_loads : string → option Polymarket.Json)
    (fromisoformat : string → Polymarket.IsoDate)
    (get_order_book : nat → string → Polymarket.Book) (cutoff_time : Z)
    (reply : option (list Polymarket.RawEvent)) : Response :=
  match reply with
  | None => NetError "requests"
  | Some events =>
      match Polymarket.normalize_events json_loads fromisoformat
              get_order_book cutoff_time O events with
      | Return normalized_events => Payload normalized_events
      | Raise msg => PayloadError msg
      end
  end.

Definition manifold_outcome (fromtimestamp : Z → Manifold.Stamp)
    (cutoff_time : Z) (reply : option (list Manifold.RawMarket)) : Response :=
  match reply with
  | None => NetError "requests"
  | Some raw =>
      match Manifold.normalize_markets fromtimestamp cutoff_time raw with
      | Return normalized_events => Payload normalized_events
      | Raise msg => PayloadError msg
      end
  end.

(** * Properties *)

(** ** Comparisons *)

Lemma Qgeb_true x y : Qgeb x y = true ↔ (y <= x)%Q.
Proof. unfold Qgeb. apply Qle_bool_iff. Qed.

Lemma Qgtb_true x y : Qgtb x y = true ↔ (y < x)%Q.
Proof.
  unfold Qgtb. rewrite negb_true_iff, <- not_true_iff_false, Qle_bool_iff.
  split; [apply Qnot_le_lt | apply Qlt_not_le].
Qed.

Lemma Qgtb_false x y : Qgtb x y = false ↔ (x <= y)%Q.
Proof. unfold Qgtb. rewrite negb_false_iff. apply Qle_bool_iff. Qed.

Lemma Qltb_true x y : Qltb x y = true ↔ (x < y)%Q.
Proof. apply (Qgtb_true y x). Qed.

Lemma Qltb_false x y : Qltb x y = false ↔ (y <= x)%Q.
Proof. apply (Qgtb_false y x). Qed.

(** ** Binary64 rounding

    The rounding [fl] is monotone, exact on the floats, which are the
    integers of at most 53 bits times a power of two, and off by at most
    half a unit in the last place. *)

Section FloatFacts.
Local Open Scope Q_scope.

Lemma pow2_pos e : 0 < pow2 e.
Proof. apply Qpower_0_lt. reflexivity. Qed.

Lemma pow2_add a b : pow2 (a + b) == pow2 a * pow2 b.
Proof. apply Qpower_plus. discriminate. Qed.

Lemma pow2_le a b : (a <= b)%Z → pow2 a <= pow2 b.
Proof. intros H. apply Qpower_le_compat_l; [exact H | discriminate]. Qed.

Lemma pow2_lt a b : (a < b)%Z → pow2 a < pow2 b.
Proof. intros H. apply Qpower_lt_compat_l; [exact H | reflexivity]. Qed.

Lemma pow2_lt_inv a b : pow2 a < pow2 b → (a < b)%Z.
Proof. intros H. apply (Qpower_lt_compat_l_inv 2); [exact H | reflexivity]. Qed.

Lemma pow2_inject n : (0 <= n)%Z → pow2 n == inject_Z (2 ^ n).
Proof. intros H. symmetry. apply (Zpower_Qpower 2 n H). Qed.

Lemma Qmake_mult n d : (n # d) * inject_Z (Zpos d) == inject_Z n.
Proof. unfold Qeq, Qmult, inject_Z. cbn. lia. Qed.

Lemma ilog2_spec x :
  0 < x → pow2 (ilog2 x) <= x ∧ x < pow2 (ilog2 x + 1).
Proof.
  destruct x as [n d]. intros Hx.
  assert (Hn : (0 < n)%Z) by (unfold Qlt in Hx; cbn in Hx; lia).
  pose proof (Z.log2_spec n Hn) as [Hn1 Hn2].
  pose proof (Z.log2_spec (Zpos d) (Pos2Z.is_pos d)) as [Hd1 Hd2].
  pose proof (Z.log2_nonneg n) as Ha.
  pose proof (Z.log2_nonneg (Zpos d)) as Hb.
  unfold ilog2. cbn [Qnum Qden].
  set (a := Z.log2 n) in *. set (b := Z.log2 (Zpos d)) in *.
  pose proof (Qmake_mult n d) as Hnd.
  assert (Hpa : pow2 a <= inject_Z n).
  { rewrite pow2_inject by exact Ha. rewrite <- Zle_Qle. exact Hn1. }
  assert (Hpa' : inject_Z n < pow2 (a + 1)).
  { rewrite pow2_inject by lia. rewrite <- Zlt_Qlt. exact Hn2. }
  assert (Hpb : pow2 b <= inject_Z (Zpos d)).
  { rewrite pow2_inject by exact Hb. rewrite <- Zle_Qle. exact Hd1. }
  assert (Hpb' : inject_Z (Zpos d) < pow2 (b + 1)).
  { rewrite pow2_inject by lia. rewrite <- Zlt_Qlt. exact Hd2. }
  pose proof (pow2_pos b) as Hb0. pose proof (pow2_pos (b + 1)) as Hb1.
  assert (Hup : n # d < pow2 (a - b + 1)).
  { apply (Qmult_lt_r _ _ (pow2 b) Hb0).
    rewrite <- pow2_add. replace (a - b + 1 + b)%Z with (a + 1)%Z by lia.
    apply Qle_lt_trans with (inject_Z n); [|exact Hpa'].
    rewrite <- Hnd. apply Qmult_le_l; [exact Hx | exact Hpb]. }
  assert (Hlo : pow2 (a - b - 1) < n # d).
  { apply (Qmult_lt_r _ _ (pow2 (b + 1)) Hb1).
    rewrite <- pow2_add. replace (a - b - 1 + (b + 1))%Z with a by lia.
    apply Qle_lt_trans with (inject_Z n); [exact Hpa|].
    rewrite <- Hnd. apply Qmult_lt_l; [exact Hx | exact Hpb']. }
  destruct (Qle_bool (pow2 (a - b)) (n # d)) eqn:Hc.
  - apply Qle_bool_iff in Hc. split; [exact Hc | exact Hup].
  - assert (Hlt : n # d < pow2 (a - b)).
    { apply Qnot_le_lt. intros H. apply Qle_bool_iff in H. congruence. }
    split; [apply Qlt_le_weak; exact Hlo|].
    replace (a - b - 1 + 1)%Z with (a - b)%Z by lia. exact Hlt.
Qed.

Lemma ilog2_ge x a : 0 < x → pow2 a <= x → (a <= ilog2 x)%Z.
Proof.
  intros Hx Ha. destruct (ilog2_spec x Hx) as [_ H].
  assert (pow2 a < pow2 (ilog2 x + 1)) by (eapply Qle_lt_trans; eauto).
  apply pow2_lt_inv in H0. lia.
Qed.

Lemma ilog2_lt x b : 0 < x → x < pow2 b → (ilog2 x < b)%Z.
Proof.
  intros Hx Hb. destruct (ilog2_spec x Hx) as [H _].
  apply pow2_lt_inv. eapply Qle_lt_trans; eauto.
Qed.

Lemma ilog2_mono x y : 0 < x → x <= y → (ilog2 x <= ilog2 y)%Z.
Proof.
  intros Hx Hxy. apply ilog2_ge; [lra|].
  destruct (ilog2_spec x Hx) as [H _]. lra.
Qed.

Lemma rnd_cases q :
  (q - inject_Z (Qfloor q) < 1 # 2 ∧ rnd q = Qfloor q)
  ∨ (1 # 2 < q - inject_Z (Qfloor q) ∧ rnd q = (Qfloor q + 1)%Z)
  ∨ (q - inject_Z (Qfloor q) == 1 # 2
     ∧ rnd q = if Z.even (Qfloor q) then Qfloor q else (Qfloor q + 1)%Z).
Proof.
  unfold rnd.
  destruct (Qcompare (q - inject_Z (Qfloor q)) (1 # 2)) eqn:Hc.
  - right; right. split; [apply Qeq_alt; exact Hc | reflexivity].
  - left. split; [apply Qlt_alt; exact Hc | reflexivity].
  - right; left. split; [apply Qgt_alt; exact Hc | reflexivity].
Qed.

Lemma Qfloor_bounds q :
  inject_Z (Qfloor q) <= q ∧ q < inject_Z (Qfloor q) + 1.
Proof.
  split; [apply Qfloor_le|].
  pose proof (Qlt_floor q) as H. rewrite inject_Z_plus in H. exact H.
Qed.

Lemma rnd_spec q :
  inject_Z (rnd q) - (1 # 2) <= q ∧ q <= inject_Z (rnd q) + (1 # 2).
Proof.
  destruct (Qfloor_bounds q) as [H1 H2].
  destruct (rnd_cases q) as [[Hr ->] | [[Hr ->] | [Hr ->]]].
  - lra.
  - rewrite inject_Z_plus. change (inject_Z 1) with 1. lra.
  - destruct (Z.even (Qfloor q)).
    + lra.
    + rewrite inject_Z_plus. change (inject_Z 1) with 1. lra.
Qed.

Lemma rnd_mono q q' : q <= q' → (rnd q <= rnd q')%Z.
Proof.
  intros Hq. pose proof (Qfloor_resp_le _ _ Hq) as Hf.
  destruct (Qfloor_bounds q) as [H1 H2].
  destruct (Qfloor_bounds q') as [H1' H2'].
  assert (Hlo : ∀ p, (Qfloor p <= rnd p <= Qfloor p + 1)%Z).
  { intros p. destruct (rnd_cases p) as [[_ ->] | [[_ ->] | [_ ->]]];
      [lia | lia | destruct (Z.even (Qfloor p)); lia]. }
  destruct (Z.eq_dec (Qfloor q) (Qfloor q')) as [Heq | Hne].
  - destruct (rnd_cases q) as [[Hr ->] | [[Hr ->] | [Hr ->]]];
      destruct (rnd_cases q') as [[Hr' ->] | [[Hr' ->] | [Hr' ->]]];
      rewrite <- ?Heq in *; try destruct (Z.even (Qfloor q)); try lia;
      exfalso; lra.
  - pose proof (Hlo q). pose proof (Hlo q'). lia.
Qed.

Lemma rnd_inject n : rnd (inject_Z n) = n.
Proof.
  destruct (rnd_cases (inject_Z n)) as [[Hr ->] | [[Hr ->] | [Hr ->]]];
    rewrite Qfloor_Z in *; [reflexivity | exfalso; lra | exfalso; lra].
Qed.

Lemma rnd_ge K q : inject_Z K <= q → (K <= rnd q)%Z.
Proof. intros H. rewrite <- (rnd_inject K). by apply rnd_mono. Qed.

Lemma rnd_le K q : q <= inject_Z K → (rnd q <= K)%Z.
Proof. intros H. rewrite <- (rnd_inject K). by apply rnd_mono. Qed.

Lemma ulp_exp_spec x : 0 < x → x < pow2 (ulp_exp x + 53).
Proof.
  intros Hx. destruct (ilog2_spec x Hx) as [_ H].
  eapply Qlt_le_trans; [exact H|]. apply pow2_le. unfold ulp_exp. lia.
Qed.

Lemma scaled x e : x / pow2 e * pow2 e == x.
Proof. field. pose proof (pow2_pos e). lra. Qed.

Lemma scaled_le x y e : x <= y → x / pow2 e <= y / pow2 e.
Proof.
  intros H. apply (Qmult_le_r _ _ (pow2 e) (pow2_pos e)).
  by rewrite !scaled.
Qed.

Lemma scaled_pow2 e k :
  (0 <= k)%Z → pow2 (e + k) / pow2 e == inject_Z (2 ^ k).
Proof.
  intros Hk. rewrite pow2_add, (pow2_inject k Hk). field.
  pose proof (pow2_pos e). lra.
Qed.

Lemma fl_pos_err x :
  fl_pos x - x <= pow2 (ulp_exp x) * (1 # 2)
  ∧ x - fl_pos x <= pow2 (ulp_exp x) * (1 # 2).
Proof.
  unfold fl_pos. set (e := ulp_exp x). pose proof (pow2_pos e) as He.
  destruct (rnd_spec (x / pow2 e)) as [H1 H2].
  apply (Qmult_le_r _ _ (pow2 e) He) in H1, H2.
  rewrite scaled in H1, H2. split; lra.
Qed.

Lemma fl_pos_nonneg x : 0 <= x → 0 <= fl_pos x.
Proof.
  intros Hx. unfold fl_pos. apply Qmult_le_0_compat.
  - change 0 with (inject_Z 0). rewrite <- Zle_Qle. apply rnd_ge.
    change (inject_Z 0) with 0.
    apply Qle_shift_div_l; [apply pow2_pos | lra].
  - apply Qlt_le_weak, pow2_pos.
Qed.

Lemma fl_pos_le_pow2 x k :
  (0 <= k)%Z → x <= pow2 (ulp_exp x + k) → fl_pos x <= pow2 (ulp_exp x + k).
Proof.
  intros Hk Hx. unfold fl_pos. set (e := ulp_exp x) in *.
  rewrite pow2_add, (pow2_inject k Hk), (Qmult_comm (pow2 e)).
  apply Qmult_le_r; [apply pow2_pos|].
  rewrite <- Zle_Qle. apply rnd_le.
  rewrite <- (scaled_pow2 e k Hk). by apply scaled_le.
Qed.

Lemma fl_pos_ge_pow2 x k :
  (0 <= k)%Z → pow2 (ulp_exp x + k) <= x → pow2 (ulp_exp x + k) <= fl_pos x.
Proof.
  intros Hk Hx. unfold fl_pos. set (e := ulp_exp x) in *.
  rewrite pow2_add, (pow2_inject k Hk), (Qmult_comm (pow2 e)).
  apply Qmult_le_r; [apply pow2_pos|].
  rewrite <- Zle_Qle. apply rnd_ge.
  rewrite <- (scaled_pow2 e k Hk). by apply scaled_le.
Qed.

Lemma fl_pos_mono x y : 0 < x → x <= y → fl_pos x <= fl_pos y.
Proof.
  intros Hx Hxy. assert (Hy : 0 < y) by lra.
  pose proof (ilog2_mono x y Hx Hxy) as Hl.
  destruct (Z.eq_dec (ulp_exp x) (ulp_exp y)) as [Heq | Hne].
  - unfold fl_pos. rewrite Heq.
    apply Qmult_le_r; [apply pow2_pos|].
    rewrite <- Zle_Qle. apply rnd_mono. by apply scaled_le.
  - assert (Hey : ulp_exp y = (ilog2 y - 52)%Z) by (unfold ulp_exp in *; lia).
    assert (Hlt : (ulp_exp x + 53 <= ulp_exp y + 52)%Z)
      by (unfold ulp_exp in *; lia).
    apply Qle_trans with (pow2 (ulp_exp x + 53)).
    + apply fl_pos_le_pow2; [lia|]. apply Qlt_le_weak, ulp_exp_spec, Hx.
    + apply Qle_trans with (pow2 (ulp_exp y + 52)); [by apply pow2_le|].
      apply fl_pos_ge_pow2; [lia|].
      rewrite Hey. replace (ilog2 y - 52 + 52)%Z with (ilog2 y) by lia.
      apply ilog2_spec, Hy.
Qed.

Lemma fl_of_pos x : 0 < x → fl x = Qred (fl_pos x).
Proof.
  destruct x as [[|p|p] d]; intros H; [| reflexivity |];
    exfalso; unfold Qlt in H; cbn in H; lia.
Qed.

Lemma fl_of_neg x : x < 0 → fl x = Qred (- fl_pos (- x)).
Proof.
  destruct x as [[|p|p] d]; intros H; [| | reflexivity];
    exfalso; unfold Qlt in H; cbn in H; lia.
Qed.

Lemma fl_of_zero x : x == 0 → fl x = 0.
Proof.
  destruct x as [[|p|p] d]; intros H; [reflexivity | |];
    exfalso; unfold Qeq in H; cbn in H; lia.
Qed.

Lemma fl_mono x y : x <= y → fl x <= fl y.
Proof.
  intros Hxy.
  destruct (Q_dec x 0) as [[Hx | Hx] | Hx], (Q_dec y 0) as [[Hy | Hy] | Hy];
    rewrite ?(fl_of_neg _ Hx), ?(fl_of_neg _ Hy), ?(fl_of_pos _ Hx),
      ?(fl_of_pos _ Hy), ?(fl_of_zero _ Hx), ?(fl_of_zero _ Hy),
      ?Qred_correct;
    try (exfalso; lra); try lra.
  - assert (fl_pos (- y) <= fl_pos (- x)) by (apply fl_pos_mono; lra). lra.
  - assert (0 <= fl_pos (- x)) by (apply fl_pos_nonneg; lra).
    assert (0 <= fl_pos y) by (apply fl_pos_nonneg; lra). lra.
  - assert (0 <= fl_pos (- x)) by (apply fl_pos_nonneg; lra). lra.
  - by apply fl_pos_mono.
  - apply fl_pos_nonneg; lra.
Qed.

Lemma fl_Qred x : Qred (fl x) = fl x.
Proof.
  destruct x as [[|p|p] d]; unfold fl; cbn [Qnum]; [reflexivity | |];
    apply Qred_complete, Qred_correct.
Qed.

(** Equal rationals round to the same float, in the same
    representation. *)
Lemma fl_comp x y : x == y → fl x = fl y.
Proof.
  intros H. rewrite <- (fl_Qred x), <- (fl_Qred y). apply Qred_complete.
  apply Qle_antisym; apply fl_mono; lra.
Qed.

Lemma fl_opp x : fl (- x) = - fl x.
Proof.
  destruct x as [[|p|p] d]; [reflexivity | |].
  - change (- (Z.pos p # d)) with (Z.neg p # d). unfold fl. cbn [Qnum].
    change (- (Z.neg p # d)) with (Z.pos p # d). apply Qred_opp.
  - change (- (Z.neg p # d)) with (Z.pos p # d). unfold fl. cbn [Qnum].
    change (- (Z.neg p # d)) with (Z.pos p # d). rewrite Qred_opp.
    by destruct (Qred _) as [[|n|n] m].
Qed.

Lemma fl_nonneg x : 0 <= x → 0 <= fl x.
Proof. intros H. apply (fl_mono 0 x H). Qed.

Lemma fl_nonpos x : x <= 0 → fl x <= 0.
Proof. intros H. apply (fl_mono x 0 H). Qed.

Lemma fl_abs x : Qabs (fl x) == fl (Qabs x).
Proof.
  destruct (Qlt_le_dec x 0) as [Hx | Hx].
  - rewrite (fl_comp (Qabs x) (- x)) by (apply Qabs_neg; lra).
    rewrite fl_opp. apply Qabs_neg, fl_nonpos. lra.
  - rewrite (fl_comp (Qabs x) x) by (by apply Qabs_pos).
    by apply Qabs_pos, fl_nonneg.
Qed.

Lemma rnd_comp q q' : q == q' → rnd q = rnd q'.
Proof.
  intros H. apply Z.le_antisymm; apply rnd_mono; lra.
Qed.

Lemma pow2_half k : pow2 k * (1 # 2) == pow2 (k - 1).
Proof.
  replace k with (k - 1 + 1)%Z at 1 by lia. rewrite pow2_add.
  change (pow2 1) with 2. field.
Qed.

(** The error of a rounding below [2^k], gradual underflow included. *)
Lemma fl_err x k :
  Qabs x < pow2 k → (-1074 <= k - 53)%Z →
  Qabs (fl x - x) <= pow2 (k - 54).
Proof.
  intros Hx Hk.
  assert (Hpos : ∀ y, 0 < y → y < pow2 k →
            fl_pos y - y <= pow2 (k - 54) ∧ y - fl_pos y <= pow2 (k - 54)).
  { intros y Hy Hyk. destruct (fl_pos_err y) as [H1 H2].
    assert (He : (ulp_exp y <= k - 53)%Z).
    { pose proof (ilog2_lt y k Hy Hyk). unfold ulp_exp. lia. }
    apply pow2_le in He.
    replace (k - 54)%Z with (k - 53 - 1)%Z by lia.
    rewrite <- (pow2_half (k - 53)). split; lra. }
  apply Qabs_Qle_condition.
  destruct (Q_dec x 0) as [[H0 | H0] | H0].
  - rewrite (fl_of_neg _ H0), Qred_correct.
    rewrite (Qabs_neg x) in Hx by lra.
    destruct (Hpos (- x)); [lra | exact Hx |]. split; lra.
  - rewrite (fl_of_pos _ H0), Qred_correct.
    rewrite (Qabs_pos x) in Hx by lra.
    destruct (Hpos x); [lra | exact Hx |]. split; lra.
  - rewrite (fl_of_zero _ H0). pose proof (pow2_pos (k - 54)). split; lra.
Qed.

(** A number with at most 53 significant bits, above the underflow
    threshold, is a float. *)
Lemma fl_exact m e :
  (Z.abs m < 2 ^ 53)%Z → (-1074 <= e)%Z →
  fl (inject_Z m * pow2 e) == inject_Z m * pow2 e.
Proof.
  assert (Hpos : ∀ m, (0 < m < 2 ^ 53)%Z → (-1074 <= e)%Z →
            fl (inject_Z m * pow2 e) == inject_Z m * pow2 e).
  { clear m. intros m Hm He. pose proof (pow2_pos e) as Hpe.
    assert (Hm0 : 0 < inject_Z m)
      by (change 0 with (inject_Z 0); rewrite <- Zlt_Qlt; lia).
    assert (Hx : 0 < inject_Z m * pow2 e) by (by apply Qmult_lt_0_compat).
    rewrite (fl_of_pos _ Hx), Qred_correct. unfold fl_pos.
    set (x := inject_Z m * pow2 e) in *. set (e' := ulp_exp x).
    assert (He' : (e' <= e)%Z).
    { assert (Hlt : x < pow2 (e + 53)).
      { rewrite pow2_add, (pow2_inject 53) by lia. unfold x.
        rewrite (Qmult_comm (pow2 e)). apply Qmult_lt_r; [exact Hpe|].
        rewrite <- Zlt_Qlt. lia. }
      pose proof (ilog2_lt x _ Hx Hlt). unfold e', ulp_exp. lia. }
    assert (Hq : x / pow2 e' == inject_Z (m * 2 ^ (e - e'))).
    { rewrite inject_Z_mult, <- (scaled_pow2 e' (e - e')) by lia.
      replace (e' + (e - e'))%Z with e by lia. unfold x, Qdiv. ring. }
    rewrite (rnd_comp _ _ Hq), rnd_inject, <- Hq. apply scaled. }
  intros Hm He.
  destruct (Z.lt_trichotomy m 0) as [Hneg | [-> | Hp]].
  - rewrite (fl_comp _ (- (inject_Z (- m) * pow2 e)))
      by (rewrite inject_Z_opp; ring).
    rewrite fl_opp, Hpos by lia. rewrite inject_Z_opp. ring.
  - rewrite (fl_of_zero (inject_Z 0 * pow2 e)) by ring. ring.
  - apply Hpos; lia.
Qed.

Lemma fl_inject n : (Z.abs n < 2 ^ 53)%Z → fl (inject_Z n) == inject_Z n.
Proof.
  intros H. rewrite (fl_comp _ (inject_Z n * pow2 0)) by (unfold pow2; cbn; ring).
  rewrite (fl_exact n 0 H) by lia. unfold pow2; cbn; ring.
Qed.

(** The result of a rounding is a float. *)
Lemma fl_idem x : fl (fl x) = fl x.
Proof.
  assert (Hpos : ∀ y, 0 < y → fl (fl_pos y) == fl_pos y).
  { intros y Hy. unfold fl_pos. set (e := ulp_exp y).
    assert (Hle : (rnd (y / pow2 e) <= 2 ^ 53)%Z).
    { apply rnd_le. rewrite <- (scaled_pow2 e 53) by lia.
      apply scaled_le, Qlt_le_weak, ulp_exp_spec, Hy. }
    assert (Hge : (0 <= rnd (y / pow2 e))%Z).
    { apply rnd_ge. change (inject_Z 0) with 0.
      apply Qle_shift_div_l; [apply pow2_pos | lra]. }
    assert (He : (-1074 <= e)%Z) by (unfold e, ulp_exp; lia).
    destruct (Z.eq_dec (rnd (y / pow2 e)) (2 ^ 53)%Z) as [-> | Hne].
    - rewrite (fl_comp _ (inject_Z 1 * pow2 (e + 53))).
      + rewrite fl_exact by lia. rewrite pow2_add, (pow2_inject 53) by lia.
        ring.
      + rewrite pow2_add, (pow2_inject 53) by lia. ring.
    - apply fl_exact; lia. }
  rewrite <- (fl_Qred x) at 2. rewrite <- (fl_Qred (fl x)).
  apply Qred_complete.
  destruct (Q_dec x 0) as [[H0 | H0] | H0].
  - rewrite (fl_of_neg _ H0).
    rewrite (fl_comp _ (- fl_pos (- x))) by apply Qred_correct.
    rewrite fl_opp, Hpos by lra. by rewrite Qred_correct.
  - rewrite (fl_of_pos _ H0).
    rewrite (fl_comp _ (fl_pos x)) by apply Qred_correct.
    rewrite Hpos by lra. by rewrite Qred_correct.
  - by rewrite (fl_of_zero _ H0).
Qed.

Lemma ulp_exp_mono x y : 0 < x → x <= y → (ulp_exp x <= ulp_exp y)%Z.
Proof.
  intros Hx Hxy. pose proof (ilog2_mono x y Hx Hxy). unfold ulp_exp. lia.
Qed.

Lemma ulp_exp_min x : (-1074 <= ulp_exp x)%Z.
Proof. unfold ulp_exp. lia. Qed.

Lemma is_float_fl x : is_float (fl x).
Proof. unfold is_float. by rewrite fl_idem. Qed.

Lemma is_float_0 : is_float 0.
Proof. reflexivity. Qed.

Lemma is_float_opp x : is_float x → is_float (- x).
Proof. unfold is_float. intros H. rewrite fl_opp. by rewrite H. Qed.

Lemma is_float_comp x y : x == y → is_float x → is_float y.
Proof.
  unfold is_float. intros Hxy Hx. by rewrite <- (fl_comp x y Hxy), Hx.
Qed.

(** A positive float is an integer of at most 53 bits times the power
    of two of its last place. *)
Lemma float_repr x :
  is_float x → 0 < x →
  ∃ m, (0 < m <= 2 ^ 53)%Z ∧ x == inject_Z m * pow2 (ulp_exp x).
Proof.
  intros Hf Hx. unfold is_float in Hf.
  rewrite (fl_of_pos _ Hx), Qred_correct in Hf. unfold fl_pos in Hf.
  set (e := ulp_exp x) in *. set (m := rnd (x / pow2 e)) in *.
  exists m. split; [|by symmetry]. split.
  - pose proof (pow2_pos e) as He.
    destruct (Z_lt_le_dec 0 m) as [Hm | Hm]; [exact Hm | exfalso].
    assert (inject_Z m <= 0)
      by (change 0 with (inject_Z 0); by rewrite <- Zle_Qle).
    assert (inject_Z m * pow2 e <= 0 * pow2 e)
      by (apply Qmult_le_r; [exact He | done]).
    lra.
  - apply rnd_le. rewrite <- (scaled_pow2 e 53) by lia.
    apply scaled_le, Qlt_le_weak, ulp_exp_spec, Hx.
Qed.

(** An integer of at most 53 bits, [2^53] included, times a power of two
    above the underflow threshold is a float. *)
Lemma is_float_scaled m e :
  (Z.abs m <= 2 ^ 53)%Z → (-1074 <= e)%Z → is_float (inject_Z m * pow2 e).
Proof.
  intros Hm He. unfold is_float.
  destruct (Z.eq_dec (Z.abs m) (2 ^ 53)%Z) as [Heq | Hne];
    [|apply fl_exact; lia].
  assert (Hp : inject_Z (2 ^ 53) * pow2 e == inject_Z 1 * pow2 (e + 53)).
  { rewrite pow2_add, (pow2_inject 53) by lia. ring. }
  assert (Hpf : fl (inject_Z (2 ^ 53) * pow2 e) == inject_Z (2 ^ 53) * pow2 e).
  { rewrite (fl_comp _ _ Hp), Hp. apply fl_exact; lia. }
  destruct (Z.abs_eq_or_opp m) as [Habs | Habs]; rewrite Habs in Heq.
  - by rewrite Heq.
  - assert (Hm' : m = (- 2 ^ 53)%Z) by lia. rewrite Hm'.
    rewrite (fl_comp _ (- (inject_Z (2 ^ 53) * pow2 e)))
      by (rewrite inject_Z_opp; ring).
    rewrite fl_opp, Hpf, inject_Z_opp. ring.
Qed.

Lemma fl_1 : fl 1 == 1.
Proof. reflexivity. Qed.

(** On every pair of the sample floats the four operations give what
    the operations of the kernel give, and the sample literals are read
    as the kernel reads them. *)
Example fl_agrees_with_the_kernel :
  forallb (λ x, forallb (KernelFloats.agree_on x) KernelFloats.checked_floats)
    KernelFloats.checked_floats = true
  ∧ forallb (λ p, KernelFloats.reads p.1 p.2) KernelFloats.checked_literals
    = true.
Proof. split; vm_compute; reflexivity. Qed.

Lemma fl_pos_inv x : 0 < fl x → 0 < x.
Proof.
  intros H. destruct (Qlt_le_dec 0 x) as [Hx | Hx]; [exact Hx|].
  pose proof (fl_nonpos x Hx). lra.
Qed.

Lemma fl_ge_1 x : 1 <= x → 1 <= fl x.
Proof. intros H. rewrite <- fl_1. by apply fl_mono. Qed.

(** A float that is not negative, times a factor of at least 1, rounds
    to at least itself. *)
Lemma fmul_ge_l a u : is_float a → 0 <= a → 1 <= u → a <= fmul a u.
Proof.
  intros Hf Ha Hu. unfold fmul. apply Qle_trans with (fl a).
  { unfold is_float in Hf. rewrite Hf. apply Qle_refl. }
  apply fl_mono.
  assert (0 <= a * (u - 1)) by (apply Qmult_le_0_compat; lra). lra.
Qed.

(** The complement [1.0 - p] of a [p] between 0 and 1 lies between 0
    and 1, and misses the exact complement by at most [2^-53]. *)
Lemma complement_bounds p :
  0 <= p → p <= 1 →
  0 <= fsub 1 p ∧ fsub 1 p <= 1 ∧ Qabs (p + fsub 1 p - 1) <= pow2 (-53).
Proof.
  intros H0 H1. unfold fsub. split; [apply fl_nonneg; lra|]. split.
  - rewrite <- fl_1 at 2. apply fl_mono. lra.
  - assert (Heq : p + fl (1 - p) - 1 == fl (1 - p) - (1 - p)) by ring.
    rewrite Heq. apply (fl_err (1 - p) 1); [|lia].
    rewrite Qabs_pos by lra. change (pow2 1) with 2. lra.
Qed.

(** Sterbenz: the difference of two floats within a factor of two of
    each other is a float. *)
Lemma sterbenz x y :
  is_float x → is_float y → 0 < y → y <= x → x <= 2 * y → is_float (x - y).
Proof.
  intros Hfx Hfy Hy Hyx Hx2.
  destruct (float_repr y Hfy Hy) as (my & Hmy & Hy').
  destruct (float_repr x Hfx) as (mx & Hmx & Hx'); [lra|].
  pose proof (ulp_exp_mono y x Hy Hyx) as He.
  pose proof (ulp_exp_min y) as Hmin.
  set (ex := ulp_exp x) in *. set (ey := ulp_exp y) in *.
  pose proof (pow2_pos ey) as Hpe.
  assert (Hpx : pow2 ex == inject_Z (2 ^ (ex - ey)) * pow2 ey).
  { rewrite <- (pow2_inject (ex - ey)) by lia. rewrite <- pow2_add.
    by replace (ex - ey + ey)%Z with ex by lia. }
  assert (Hd : x - y == inject_Z (mx * 2 ^ (ex - ey) - my) * pow2 ey).
  { replace (mx * 2 ^ (ex - ey) - my)%Z
      with (mx * 2 ^ (ex - ey) + - my)%Z by lia.
    rewrite inject_Z_plus, inject_Z_mult, inject_Z_opp.
    rewrite Hx', Hy' at 1. rewrite Hpx. ring. }
  apply (is_float_comp _ _ (Qeq_sym _ _ Hd)).
  apply is_float_scaled; [|exact Hmin].
  set (M := (mx * 2 ^ (ex - ey) - my)%Z) in *.
  assert (H0 : (0 <= M)%Z).
  { rewrite Zle_Qle. apply (Qmult_le_r _ _ (pow2 ey) Hpe).
    rewrite <- Hd. change (inject_Z 0) with 0. lra. }
  assert (H1 : (M <= my)%Z).
  { rewrite Zle_Qle. apply (Qmult_le_r _ _ (pow2 ey) Hpe).
    rewrite <- Hd, <- Hy'. lra. }
  lia.
Qed.

End FloatFacts.

(** ** The matcher *)

Section MatcherFacts.

Variable ratio : string → string → Q.
Variable lower : string → string.

Abbreviation sim := (Matcher.similarity ratio lower).
Abbreviation in_tol := (Matcher.in_tolerance).
Abbreviation scan := (Matcher.scan_candidates ratio lower).
Abbreviation find_best_match := (Matcher.find_best_match ratio lower).
Abbreviation match_events := (Matcher.match_events ratio lower).
Abbreviation first_highest_qualifying :=
  (Matcher.first_highest_qualifying ratio lower).

(** The inner loop either keeps the running best, and then no candidate
    within tolerance both reaches the threshold and beats it, or ends on
    the first of the candidates of highest score among those that do. *)
Lemma scan_candidates_spec pm thr tol ks bm bs :
  (scan pm thr tol ks bm bs = (bm, bs)
   ∧ ∀ k, k ∈ ks → in_tol pm k tol →
       ¬ ((thr <= sim pm k)%Q ∧ (bs < sim pm k)%Q))
  ∨ (∃ i k, ks !! i = Some k ∧ in_tol pm k tol
       ∧ scan pm thr tol ks bm bs = (Some k, sim pm k)
       ∧ (thr <= sim pm k)%Q ∧ (bs < sim pm k)%Q
       ∧ (∀ j k', ks !! j = Some k' → in_tol pm k' tol →
            (thr <= sim pm k')%Q → (sim pm k' <= sim pm k)%Q)
       ∧ (∀ j k', (j < i)%nat → ks !! j = Some k' → in_tol pm k' tol →
            (thr <= sim pm k')%Q → (sim pm k' < sim pm k)%Q)).
Proof.
  revert bm bs. induction ks as [|k0 rest IH]; intros bm bs.
  { left. split; [reflexivity|]. intros k Hk. inversion Hk. }
  cbn [Matcher.scan_candidates].
  destruct (Matcher.date_filtered pm k0 tol) eqn:Hf.
  - (* discarded by the date filter *)
    destruct (IH bm bs) as [[Hr Hno] | (i & k & Hi & Ht & Hr & H1 & H2 & Hmax & Hfirst)].
    + left. split; [exact Hr|]. intros k Hk Hin.
      apply elem_of_cons in Hk as [-> | Hk]; [|by apply Hno].
      unfold Matcher.in_tolerance in Hin. congruence.
    + right. exists (S i), k. repeat split; try assumption.
      * intros [|j] k' Hj Hin; cbn in Hj.
        -- injection Hj as <-. unfold Matcher.in_tolerance in Hin. congruence.
        -- by apply (Hmax j).
      * intros [|j] k' Hlt Hj Hin; cbn in Hj.
        -- injection Hj as <-. unfold Matcher.in_tolerance in Hin. congruence.
        -- apply (Hfirst j); [lia | done..].
  - fold (sim pm k0).
    destruct (Qgeb (sim pm k0) thr && Qgtb (sim pm k0) bs) eqn:Htake.
    + (* the candidate becomes the running best *)
      apply andb_true_iff in Htake as [Hge Hgt].
      apply Qgeb_true in Hge. apply Qgtb_true in Hgt.
      destruct (IH (Some k0) (sim pm k0))
        as [[Hr Hno] | (i & k & Hi & Ht & Hr & H1 & H2 & Hmax & Hfirst)].
      * right. exists O, k0. repeat split; try assumption.
        -- intros [|j] k' Hj Hin Hthr; cbn in Hj.
           ++ injection Hj as <-. apply Qle_refl.
           ++ apply Qnot_lt_le. intros Hlt.
              apply (Hno k'); [by eapply list_elem_of_lookup_2 | done | done].
        -- intros j k' Hlt. lia.
      * right. exists (S i), k. repeat split; try assumption.
        -- lra.
        -- intros [|j] k' Hj Hin Hthr; cbn in Hj.
           ++ injection Hj as <-. lra.
           ++ by apply (Hmax j).
        -- intros [|j] k' Hlt Hj Hin Hthr; cbn in Hj.
           ++ injection Hj as <-. lra.
           ++ apply (Hfirst j); [lia | done..].
    + (* the candidate is passed over *)
      assert (Hnot : ¬ ((thr <= sim pm k0)%Q ∧ (bs < sim pm k0)%Q)).
      { intros [Hge Hgt]. apply Qgeb_true in Hge. apply Qgtb_true in Hgt.
        rewrite Hge, Hgt in Htake. discriminate. }
      destruct (IH bm bs)
        as [[Hr Hno] | (i & k & Hi & Ht & Hr & H1 & H2 & Hmax & Hfirst)].
      * left. split; [exact Hr|]. intros k Hk Hin.
        apply elem_of_cons in Hk as [-> | Hk]; [done | by apply Hno].
      * assert (Hk0 : (thr <= sim pm k0)%Q → (sim pm k0 < sim pm k)%Q).
        { intros Hthr. destruct (Qlt_le_dec bs (sim pm k0)) as [Hlt | Hle].
          - exfalso. by apply Hnot.
          - lra. }
        right. exists (S i), k. repeat split; try assumption.
        -- intros [|j] k' Hj Hin Hthr; cbn in Hj.
           ++ injection Hj as <-. apply Qlt_le_weak. by apply Hk0.
           ++ by apply (Hmax j).
        -- intros [|j] k' Hlt Hj Hin Hthr; cbn in Hj.
           ++ injection Hj as <-. by apply Hk0.
           ++ apply (Hfirst j); [lia | done..].
Qed.

(** What the outer loop appends for a source event that has a best
    match, and when it appends nothing. *)
Lemma find_best_match_Some pm ks thr tol k :
  find_best_match pm ks thr tol = Some k
  ↔ ∃ i, first_highest_qualifying pm ks thr tol i k ∧ (0 < sim pm k)%Q.
Proof.
  unfold Matcher.find_best_match. split.
  - intros Hsel.
    destruct (scan_candidates_spec pm thr tol ks None 0%Q)
      as [[Hr _] | (i & k0 & Hi & Ht & Hr & H1 & H2 & Hmax & Hfirst)];
      rewrite Hr in Hsel; cbn in Hsel; [discriminate|].
    injection Hsel as <-. exists i. split; [|exact H2].
    repeat split; try assumption.
    + intros j k' Hj Hin.
      destruct (Qlt_le_dec (sim pm k') thr); [lra | by apply (Hmax j)].
    + intros j k' Hlt Hj Hin.
      destruct (Qlt_le_dec (sim pm k') thr); [lra | by apply (Hfirst j)].
  - intros (i & (Hi & Ht & Hthr & Hmax & Hfirst) & Hpos).
    destruct (scan_candidates_spec pm thr tol ks None 0%Q)
      as [[_ Hno] | (i0 & k0 & Hi0 & Ht0 & Hr & H1 & H2 & Hmax0 & Hfirst0)].
    + exfalso. apply (Hno k); [by eapply list_elem_of_lookup_2 | done | done].
    + rewrite Hr. cbn. f_equal.
      destruct (Nat.lt_trichotomy i0 i) as [Hlt | [-> | Hlt]].
      * pose proof (Hfirst i0 k0 Hlt Hi0 Ht0).
        pose proof (Hmax0 i k Hi Ht Hthr). lra.
      * congruence.
      * pose proof (Hfirst0 i k Hlt Hi Ht Hthr).
        pose proof (Hmax i0 k0 Hi0 Ht0). lra.
Qed.

Lemma find_best_match_None pm ks thr tol :
  find_best_match pm ks thr tol = None
  ↔ ∀ k, k ∈ ks → in_tol pm k tol →
      ¬ ((thr <= sim pm k)%Q ∧ (0 < sim pm k)%Q).
Proof.
  unfold Matcher.find_best_match.
  destruct (scan_candidates_spec pm thr tol ks None 0%Q)
    as [[Hr Hno] | (i & k0 & Hi & Ht & Hr & H1 & H2 & _)]; rewrite Hr; cbn.
  - split; [intros _; exact Hno | reflexivity].
  - split; [discriminate|]. intros Hno. exfalso.
    apply (Hno k0); [by eapply list_elem_of_lookup_2 | done | done].
Qed.

(** The pairs returned are the source events that have a best match,
    each with it. *)
Lemma elem_of_match_events pms ks thr tol A B :
  (A, B) ∈ match_events pms ks thr tol
  ↔ A ∈ pms ∧ find_best_match A ks thr tol = Some B.
Proof.
  induction pms as [|pm rest IH]; cbn [Matcher.match_events].
  - split; [intros H; inversion H | intros [H _]; inversion H].
  - destruct (find_best_match pm ks thr tol) as [b|] eqn:Hb.
    + rewrite !elem_of_cons, IH. split.
      * intros [Heq | [Hin Hsel]]; [|by auto].
        injection Heq as -> ->. by auto.
      * intros [[-> | Hin] Hsel]; [left; congruence | by auto].
    + rewrite IH, elem_of_cons. split; [by intuition|].
      intros [[-> | Hin] Hsel]; [congruence | done].
Qed.

Lemma match_events_omap pms ks thr tol :
  match_events pms ks thr tol
  = omap (λ pm, (λ k, (pm, k)) <$> find_best_match pm ks thr tol) pms.
Proof.
  induction pms as [|pm rest IH]; [done|].
  cbn -[Matcher.find_best_match].
  destruct (find_best_match pm ks thr tol); cbn; by rewrite IH.
Qed.

(** The seconds between two dates are the float nearest to the
    microseconds between them divided by [10^6]. *)
Lemma date_diff_seconds_abs A B :
  (Matcher.date_diff_seconds A B
   == fl (inject_Z (Z.abs (end_date A - end_date B)) / 1000000))%Q.
Proof.
  unfold Matcher.date_diff_seconds, Matcher.total_seconds, int_true_div.
  rewrite fl_abs. erewrite fl_comp; [reflexivity|].
  unfold Qdiv. rewrite Qabs_Qmult. reflexivity.
Qed.

(** Microseconds that do not exceed a number of seconds below [2^53]
    round to seconds that do not exceed it. *)
Lemma seconds_within n K :
  K < 2 ^ 53 → n ≤ K * 1000000 → 0 ≤ n →
  (fl (inject_Z n / 1000000) <= inject_Z K)%Q.
Proof.
  intros HK Hn H0.
  rewrite <- (fl_inject K) by lia. apply fl_mono.
  apply Qle_shift_div_r; [reflexivity|].
  change 1000000%Q with (inject_Z 1000000).
  rewrite <- inject_Z_mult, <- Zle_Qle. exact Hn.
Qed.

(** Below [2^34] seconds a microsecond is more than the rounding error
    of the seconds: the rounded seconds exceed a whole number of seconds
    exactly when the microseconds do. *)
Lemma seconds_exact_test n K :
  K < 2 ^ 34 → 0 ≤ n →
  (inject_Z K < fl (inject_Z n / 1000000))%Q ↔ K * 1000000 < n.
Proof.
  intros HK H0. split.
  - intros Hlt. destruct (Z_lt_le_dec (K * 1000000) n) as [H | H]; [exact H|].
    pose proof (seconds_within n K ltac:(lia) H H0). lra.
  - intros Hn.
    assert (Hx0 : (0 <= inject_Z n / 1000000)%Q).
    { apply Qle_shift_div_l; [reflexivity|].
      rewrite Qmult_0_l. change 0%Q with (inject_Z 0).
      by rewrite <- Zle_Qle. }
    destruct (Z_lt_le_dec K 0) as [Hneg | Hpos].
    { pose proof (fl_nonneg _ Hx0).
      assert (inject_Z K < 0)%Q
        by (change 0%Q with (inject_Z 0); rewrite <- Zlt_Qlt; lia).
      lra. }
    assert (Hx : (inject_Z K + (1 # 1000000) <= inject_Z n / 1000000)%Q).
    { apply Qle_shift_div_l; [reflexivity|].
      assert (Heq : ((inject_Z K + (1 # 1000000)) * 1000000
                     == inject_Z (K * 1000000 + 1))%Q).
      { rewrite inject_Z_plus, inject_Z_mult.
        change (inject_Z 1000000) with 1000000%Q.
        change (inject_Z 1) with 1%Q. field. }
      rewrite Heq, <- Zle_Qle. lia. }
    destruct (Qlt_le_dec (inject_Z n / 1000000) (pow2 34)) as [Hlo | Hhi].
    + pose proof (fl_err (inject_Z n / 1000000) 34) as Herr.
      rewrite (Qabs_pos _ Hx0) in Herr. specialize (Herr Hlo ltac:(lia)).
      apply Qabs_Qle_condition in Herr as [Herr _].
      change (pow2 (34 - 54)) with (1 # 1048576)%Q in Herr. lra.
    + assert (Hp : (fl (pow2 34) == inject_Z (2 ^ 34))%Q)
        by (vm_compute; reflexivity).
      pose proof (fl_mono _ _ Hhi) as Hm. rewrite Hp in Hm.
      assert (inject_Z K < inject_Z (2 ^ 34))%Q by (by rewrite <- Zlt_Qlt).
      lra.
Qed.

Lemma date_filtered_true A B tol :
  Matcher.date_filtered A B tol = true
  ↔ (inject_Z (tol * 86400) < Matcher.date_diff_seconds A B)%Q.
Proof.
  unfold Matcher.date_filtered, Matcher.max_diff_seconds.
  rewrite Qgtb_true. by replace (tol * 24 * 60 * 60) with (tol * 86400) by lia.
Qed.

Lemma date_filtered_false A B tol :
  Matcher.date_filtered A B tol = false
  ↔ (Matcher.date_diff_seconds A B <= inject_Z (tol * 86400))%Q.
Proof.
  unfold Matcher.date_filtered, Matcher.max_diff_seconds.
  rewrite Qgtb_false. by replace (tol * 24 * 60 * 60) with (tol * 86400) by lia.
Qed.

(** C6 (amended).  For a source event, the match selected among the
    targets is the candidate within date tolerance whose similarity is the
    highest, reaches the threshold and is strictly positive, the first one
    in target order among those of that score; such a candidate is always
    selected, and for a positive threshold positivity follows from the
    threshold.  Each source event yields at most one pair, in source
    order. *)
Theorem match_selects_first_highest_positive pm ks thr tol :
  (∀ k, find_best_match pm ks thr tol = Some k
        ↔ ∃ i, first_highest_qualifying pm ks thr tol i k
               ∧ (0 < sim pm k)%Q)
  ∧ ((0 < thr)%Q → ∀ i k, first_highest_qualifying pm ks thr tol i k →
        find_best_match pm ks thr tol = Some k)
  ∧ (∀ pms, match_events pms ks thr tol
            = omap (λ pm, (λ k, (pm, k)) <$> find_best_match pm ks thr tol)
                   pms).
Proof.
  split; [|split].
  - intros k. apply find_best_match_Some.
  - intros Hpos i k Hk. apply find_best_match_Some. exists i.
    split; [exact Hk|]. destruct Hk as (_ & _ & Hthr & _). lra.
  - intros pms. apply match_events_omap.
Qed.

(** Below [2^34] seconds of tolerance the date filter decides as the
    comparison of the exact difference does. *)
Lemma date_filtered_exact A B tol :
  tol * 86400 < 2 ^ 34 →
  Matcher.date_filtered A B tol = true
  ↔ tol * 86400 * 1000000 < Z.abs (end_date A - end_date B).
Proof.
  intros Htol. rewrite date_filtered_true, date_diff_seconds_abs.
  apply seconds_exact_test; lia.
Qed.

(** Below [2^53] seconds of tolerance a candidate within the tolerance
    passes the date filter. *)
Lemma date_kept_within A B tol :
  tol * 86400 < 2 ^ 53 →
  Z.abs (end_date A - end_date B) ≤ tol * 86400 * 1000000 →
  Matcher.date_filtered A B tol = false.
Proof.
  intros Htol Hin. apply date_filtered_false. rewrite date_diff_seconds_abs.
  apply seconds_within; lia.
Qed.

(** C7 (amended).  The date filter compares the seconds between the two
    resolution times, the float that [total_seconds()] returns, with
    [date_tolerance_days * 86400]: two events for which these seconds
    exceed the tolerance are never paired, whatever their titles.  For a
    tolerance below [2^34] seconds (198841 days at most) the filter
    decides as the comparison of the exact difference does, to the
    microsecond, and two events further apart than the tolerance are
    never paired.  For a tolerance below [2^53] seconds a candidate within
    the tolerance, or exactly at it, is not discarded by the date
    filter. *)
Theorem date_tolerance_never_exceeded pms ks thr tol :
  (∀ A B, (inject_Z (tol * 86400) < Matcher.date_diff_seconds A B)%Q →
          (A, B) ∉ match_events pms ks thr tol)
  ∧ (tol * 86400 < 2 ^ 34 →
     ∀ A B,
       (Matcher.date_filtered A B tol = true
        ↔ tol * 86400 * 1000000 < Z.abs (end_date A - end_date B))
       ∧ (tol * 86400 * 1000000 < Z.abs (end_date A - end_date B) →
          (A, B) ∉ match_events pms ks thr tol))
  ∧ (tol * 86400 < 2 ^ 53 →
     ∀ A B, Z.abs (end_date A - end_date B) ≤ tol * 86400 * 1000000 →
            Matcher.date_filtered A B tol = false).
Proof.
  assert (Hfar : ∀ A B,
            (inject_Z (tol * 86400) < Matcher.date_diff_seconds A B)%Q →
            (A, B) ∉ match_events pms ks thr tol).
  { intros A B Hfar Hin.
    apply elem_of_match_events in Hin as [_ Hsel].
    apply find_best_match_Some in Hsel as (i & (_ & Ht & _) & _).
    apply date_filtered_false in Ht. lra. }
  split; [exact Hfar|]. split.
  - intros Htol A B. split; [by apply date_filtered_exact|].
    intros Hlate. apply Hfar, date_filtered_true.
    by apply date_filtered_exact.
  - intros Htol A B. by apply date_kept_within.
Qed.

(** C10.  A candidate whose similarity to the source event is 0.0 is never
    selected, whatever the threshold (0.0 included): the running best
    starts at 0.0 and is replaced only by a strictly greater score.  A
    source event all of whose candidates within tolerance score 0.0 gets no
    pair. *)
Theorem zero_similarity_never_selected pm ks thr tol :
  (∀ k, (sim pm k == 0)%Q → find_best_match pm ks thr tol ≠ Some k)
  ∧ ((∀ k, k ∈ ks → in_tol pm k tol → (sim pm k == 0)%Q) →
       find_best_match pm ks thr tol = None
       ∧ ∀ pms B, (pm, B) ∉ match_events pms ks thr tol).
Proof.
  split.
  - intros k Hzero Hsel.
    apply find_best_match_Some in Hsel as (i & _ & Hpos). lra.
  - intros Hall.
    assert (Hnone : find_best_match pm ks thr tol = None).
    { apply find_best_match_None. intros k Hk Hin [_ Hpos].
      pose proof (Hall k Hk Hin). lra. }
    split; [exact Hnone|]. intros pms B Hin.
    apply elem_of_match_events in Hin as [_ Hsel]. congruence.
Qed.

End MatcherFacts.

(** *** Worked examples of the matcher *)

Example difflib_samples :
  Difflib.ratio "abcd" "bcde" = fl (2 * 3 / 8)
  ∧ Difflib.ratio "abc" "xyz" = fl (2 * 0 / 6)
  ∧ Difflib.ratio "abxcd" "abcd" = fl (2 * 4 / 9)
  ∧ Difflib.ratio "qabxcd" "abycdf" = fl (2 * 4 / 12)
  ∧ Difflib.ratio (Difflib.lower "Will Bitcoin hit 100k")
                  (Difflib.lower "Bitcoin above 100K?") = fl (2 * 13 / 40)
  ∧ Difflib.ratio "" "" = 1%Q.
Proof. repeat split; vm_compute; reflexivity. Qed.

(** Closes a goal about the candidate at index [j] of a list given in
    full: one case for each index, each decided by evaluation. *)
Ltac each_candidate Hj :=
  repeat (match type of Hj with
          | _ !! ?j = Some _ => destruct j as [|j]; cbn in Hj
          end;
          [ injection Hj as <-; intros; try lia; vm_compute; congruence | ]);
  try discriminate Hj.

(** Of the two candidates titled "Bitcoin hits 100k", both at 16/19 and
    within three days, the first one is selected. *)
Lemma match_selects_first_highest_positive_witness :
  (0 < 0.5)%Q
  ∧ Matcher.first_highest_qualifying Difflib.ratio Difflib.lower
      Samples.pm_btc [Samples.mf_lakers; Samples.mf_btc_a; Samples.mf_btc_b]
      0.5%Q 3 1 Samples.mf_btc_a
  ∧ Matcher.find_best_match Difflib.ratio Difflib.lower
      Samples.pm_btc [Samples.mf_lakers; Samples.mf_btc_a; Samples.mf_btc_b]
      0.5%Q 3 = Some Samples.mf_btc_a.
Proof.
  assert (Hpos : (0 < 0.5)%Q) by reflexivity.
  assert (Hk : Matcher.first_highest_qualifying Difflib.ratio Difflib.lower
      Samples.pm_btc [Samples.mf_lakers; Samples.mf_btc_a; Samples.mf_btc_b]
      0.5%Q 3 1 Samples.mf_btc_a).
  { repeat split.
    - vm_compute; congruence.
    - intros j k' Hj. each_candidate Hj.
    - intros j k' Hlt Hj. each_candidate Hj. }
  split; [exact Hpos|]. split; [exact Hk|].
  exact (proj1 (proj2 (match_selects_first_highest_positive
           Difflib.ratio Difflib.lower Samples.pm_btc
           [Samples.mf_lakers; Samples.mf_btc_a; Samples.mf_btc_b] 0.5%Q 3))
         Hpos 1%nat Samples.mf_btc_a Hk).
Defined.

(** At threshold 0.0 the only candidate, within tolerance and of score
    0.0, is the highest one that reaches the threshold; it is not
    selected. *)
Lemma zero_score_qualifies_but_is_not_selected :
  Matcher.first_highest_qualifying Difflib.ratio Difflib.lower
    Samples.pm_rain [Samples.mf_sleet] 0%Q 1 0 Samples.mf_sleet
  ∧ Matcher.find_best_match Difflib.ratio Difflib.lower
      Samples.pm_rain [Samples.mf_sleet] 0%Q 1 ≠ Some Samples.mf_sleet
  ∧ Matcher.match_events Difflib.ratio Difflib.lower
      [Samples.pm_rain] [Samples.mf_sleet] 0%Q 1 = [].
Proof.
  split; [|split].
  - repeat split.
    + vm_compute; congruence.
    + intros j k' Hj. each_candidate Hj.
    + intros j k' Hlt. lia.
  - vm_compute. discriminate.
  - vm_compute. reflexivity.
Qed.

(** The same title one microsecond beyond three days is not paired; at
    three days exactly it passes the date filter, and is paired. *)
Lemma date_tolerance_never_exceeded_witness :
  (3 * 86400 < 2 ^ 34
   ∧ 3 * 86400 * 1000000
     < Z.abs (end_date Samples.pm_btc - end_date Samples.mf_late)
   ∧ (Samples.pm_btc, Samples.mf_late)
       ∉ Matcher.match_events Difflib.ratio Difflib.lower
           [Samples.pm_btc] [Samples.mf_late] 0.5%Q 3)
  ∧ (Z.abs (end_date Samples.pm_btc - end_date Samples.mf_edge)
     ≤ 3 * 86400 * 1000000
     ∧ Matcher.date_filtered Samples.pm_btc Samples.mf_edge 3 = false
     ∧ Matcher.match_events Difflib.ratio Difflib.lower
         [Samples.pm_btc] [Samples.mf_edge] 0.5%Q 3
       = [(Samples.pm_btc, Samples.mf_edge)]).
Proof.
  pose proof (date_tolerance_never_exceeded Difflib.ratio Difflib.lower
                [Samples.pm_btc] [Samples.mf_late] 0.5%Q 3)
    as (_ & Hexact & Hedge).
  assert (H34 : 3 * 86400 < 2 ^ 34) by reflexivity.
  assert (H53 : 3 * 86400 < 2 ^ 53) by reflexivity.
  assert (H1 : 3 * 86400 * 1000000
               < Z.abs (end_date Samples.pm_btc - end_date Samples.mf_late))
    by reflexivity.
  assert (H2 : Z.abs (end_date Samples.pm_btc - end_date Samples.mf_edge)
               ≤ 3 * 86400 * 1000000) by (by vm_compute).
  split; [split; [exact H34 | split; [exact H1|]]|].
  - exact (proj2 (Hexact H34 _ _) H1).
  - split; [exact H2|]. split; [exact (Hedge H53 _ _ H2)|].
    vm_compute. reflexivity.
Defined.

(** With a tolerance of 200000 days the same title one microsecond
    beyond the tolerance passes the date filter and is paired: the
    seconds of the difference round to the tolerance. *)
Lemma rounded_seconds_keep_a_late_candidate :
  200000 * 86400 * 1000000
  < Z.abs (end_date Samples.pm_btc - end_date Samples.mf_far)
  ∧ (Matcher.date_diff_seconds Samples.pm_btc Samples.mf_far
     == inject_Z (200000 * 86400))%Q
  ∧ Matcher.date_filtered Samples.pm_btc Samples.mf_far 200000 = false
  ∧ Matcher.match_events Difflib.ratio Difflib.lower
      [Samples.pm_btc] [Samples.mf_far] 0.5%Q 200000
    = [(Samples.pm_btc, Samples.mf_far)].
Proof.
  split; [reflexivity|]. split; [vm_compute; reflexivity|].
  split; vm_compute; reflexivity.
Qed.

(** "RAIN" against "sleet": the only candidate scores 0.0, and there is
    no pair even at threshold 0.0. *)
Lemma zero_similarity_never_selected_witness :
  (Matcher.similarity Difflib.ratio Difflib.lower
     Samples.pm_rain Samples.mf_sleet == 0)%Q
  ∧ Matcher.find_best_match Difflib.ratio Difflib.lower
      Samples.pm_rain [Samples.mf_sleet] 0%Q 1 ≠ Some Samples.mf_sleet
  ∧ Matcher.find_best_match Difflib.ratio Difflib.lower
      Samples.pm_rain [Samples.mf_sleet] 0%Q 1 = None.
Proof.
  pose proof (zero_similarity_never_selected Difflib.ratio Difflib.lower
                Samples.pm_rain [Samples.mf_sleet] 0%Q 1) as [Hnever Hall].
  assert (Hzero : (Matcher.similarity Difflib.ratio Difflib.lower
     Samples.pm_rain Samples.mf_sleet == 0)%Q) by reflexivity.
  split; [exact Hzero|]. split; [exact (Hnever _ Hzero)|].
  apply Hall. intros k Hk _.
  apply list_elem_of_singleton in Hk as ->. exact Hzero.
Defined.

(** ** The opportunity detector *)

Section ArbitrageFacts.
Import Arbitrage.
Local Open Scope Q_scope.

Lemma cost_with_fees_spec a b feeA feeB :
  cost_with_fees a b feeA feeB = spec_fee_cost a b feeA feeB.
Proof. reflexivity. Qed.

Lemma profit_pct_of_spec c : profit_pct_of c = spec_profit_pct c.
Proof.
  unfold profit_pct_of, spec_profit_pct, profit_of, spec_profit.
  destruct (Qgtb c 0) eqn:Hc, (Qlt_le_dec 0 c) as [Hlt | Hle].
  - reflexivity.
  - apply Qgtb_true in Hc. lra.
  - apply Qgtb_false in Hc. lra.
  - reflexivity.
Qed.

Lemma scenario_opportunity_of A B mA mB d a b feeA feeB :
  opportunity_of (scenario A B mA mB d a b feeA feeB) A B d a b feeA feeB.
Proof.
  unfold opportunity_of, scenario. cbn.
  rewrite profit_pct_of_spec, cost_with_fees_spec.
  repeat split; reflexivity.
Qed.

Lemma detect_pair_priced feeA feeB minp A B mA mB restA restB
    yesA noA yesB noB :
  markets A = mA :: restA → markets B = mB :: restB →
  yes_price mA = Some yesA → no_price mA = Some noA →
  yes_price mB = Some yesB → no_price mB = Some noB →
  detect_pair feeA feeB minp (A, B)
  = (if Qgeb (profit_pct_of (cost_with_fees yesA noB feeA feeB)) minp
     then [scenario A B mA mB pm_yes_kalshi_no yesA noB feeA feeB] else [])
    ++ (if Qgeb (profit_pct_of (cost_with_fees noA yesB feeA feeB)) minp
        then [scenario A B mA mB pm_no_kalshi_yes noA yesB feeA feeB]
        else []).
Proof.
  intros HA HB H1 H2 H3 H4. unfold detect_pair.
  rewrite HA, HB, H1, H2, H3, H4. reflexivity.
Qed.

Lemma head_cons {X} (l : list X) (x : X) :
  head l = Some x → ∃ rest, l = x :: rest.
Proof. destruct l; cbn; [discriminate|]. intros [= ->]. eauto. Qed.

Lemma find_arbitrage_opportunities_concat ms pmc kc minp :
  find_arbitrage_opportunities ms pmc kc minp
  = concat (map (detect_pair (@get_fee_rate pmc) (@get_fee_rate kc) minp) ms).
Proof.
  induction ms as [|m rest IH]; cbn; [reflexivity | by rewrite IH].
Qed.

(** C5 (amended).  A matched pair is skipped when one of the two events
    has no market or one of the four prices of the first markets is
    missing.  Otherwise each of the two directions is emitted exactly when
    its [profit_pct] is at least [min_profit_pct], where [raw_cost],
    [fee_cost], [profit] and [profit_pct] are the floats that the
    formulas of the specification give when every operation is rounded
    and the percentage is computed as [profit / fee_cost * 100]; nothing
    else is emitted.  With [yesA = 0.40], [noB = 0.45] and fee rates 0.002
    and 0.0, [fee_cost] is the float 0.8508, [profit_pct] lies between
    17.5 and 17.6, and the first direction is emitted for every threshold
    of at most 17.5. *)
Theorem detect_pair_emits_profitable feeA feeB minp A B :
  ((markets A = [] ∨ markets B = []) → detect_pair feeA feeB minp (A, B) = [])
  ∧ (∀ mA mB, head (markets A) = Some mA → head (markets B) = Some mB →
       price_missing mA mB → detect_pair feeA feeB minp (A, B) = [])
  ∧ (∀ mA mB yesA noA yesB noB,
       head (markets A) = Some mA → head (markets B) = Some mB →
       yes_price mA = Some yesA → no_price mA = Some noA →
       yes_price mB = Some yesB → no_price mB = Some noB →
       ∃ o1 o2,
         opportunity_of o1 A B pm_yes_kalshi_no yesA noB feeA feeB
         ∧ opportunity_of o2 A B pm_no_kalshi_yes noA yesB feeA feeB
         ∧ (o1 ∈ detect_pair feeA feeB minp (A, B)
            ↔ minp <= spec_profit_pct (spec_fee_cost yesA noB feeA feeB))
         ∧ (o2 ∈ detect_pair feeA feeB minp (A, B)
            ↔ minp <= spec_profit_pct (spec_fee_cost noA yesB feeA feeB))
         ∧ ∀ o, o ∈ detect_pair feeA feeB minp (A, B) → o = o1 ∨ o = o2)
  ∧ (spec_fee_cost (fl 0.40) (fl 0.45) (fl 0.002) 0 == fl 0.8508
     ∧ 17.5 <= spec_profit_pct (spec_fee_cost (fl 0.40) (fl 0.45) (fl 0.002) 0)
     ∧ spec_profit_pct (spec_fee_cost (fl 0.40) (fl 0.45) (fl 0.002) 0) <= 17.6
     ∧ ∀ mA mB noA yesB,
         head (markets A) = Some mA → head (markets B) = Some mB →
         yes_price mA = Some (fl 0.40) → no_price mA = Some noA →
         yes_price mB = Some yesB → no_price mB = Some (fl 0.45) →
         minp <= 17.5 →
         ∃ o, o ∈ detect_pair (fl 0.002) 0 minp (A, B)
              ∧ opportunity_of o A B pm_yes_kalshi_no (fl 0.40) (fl 0.45)
                  (fl 0.002) 0)
  ∧ (∀ ms pmc kc,
       find_arbitrage_opportunities ms pmc kc minp
       = concat (map (detect_pair (@get_fee_rate pmc) (@get_fee_rate kc) minp)
                     ms)).
Proof.
  split; [|split; [|split; [|split]]].
  - unfold detect_pair. intros [-> | ->]; [reflexivity|].
    by destruct (markets A).
  - intros mA mB HA HB Hmiss.
    apply head_cons in HA as [restA HA]. apply head_cons in HB as [restB HB].
    unfold detect_pair. rewrite HA, HB.
    destruct Hmiss as [-> | [-> | [-> | ->]]];
      by destruct (yes_price mA), (no_price mA),
                  (yes_price mB), (no_price mB).
  - intros mA mB yesA noA yesB noB HA HB H1 H2 H3 H4.
    apply head_cons in HA as [restA HA]. apply head_cons in HB as [restB HB].
    rewrite (detect_pair_priced _ _ _ _ _ _ _ _ _ _ _ _ _ HA HB H1 H2 H3 H4).
    set (o1 := scenario A B mA mB pm_yes_kalshi_no yesA noB feeA feeB).
    set (o2 := scenario A B mA mB pm_no_kalshi_yes noA yesB feeA feeB).
    assert (Hne : o1 ≠ o2)
      by (intros Heq; apply (f_equal direction) in Heq; discriminate).
    exists o1, o2.
    split; [apply scenario_opportunity_of|].
    split; [apply scenario_opportunity_of|].
    set (b1 := Qgeb (profit_pct_of (cost_with_fees yesA noB feeA feeB)) minp).
    set (b2 := Qgeb (profit_pct_of (cost_with_fees noA yesB feeA feeB)) minp).
    assert (Hb1 : b1 = true
              ↔ minp <= spec_profit_pct (spec_fee_cost yesA noB feeA feeB)).
    { unfold b1. by rewrite Qgeb_true, profit_pct_of_spec. }
    assert (Hb2 : b2 = true
              ↔ minp <= spec_profit_pct (spec_fee_cost noA yesB feeA feeB)).
    { unfold b2. by rewrite Qgeb_true, profit_pct_of_spec. }
    rewrite <- Hb1, <- Hb2. clearbody o1 o2 b1 b2.
    destruct b1, b2; cbn; repeat split;
      try (intros o; rewrite ?elem_of_cons, ?elem_of_nil; tauto);
      rewrite ?elem_of_cons, ?elem_of_nil; intuition congruence.
  - split; [vm_compute; reflexivity|].
    split; [by vm_compute|]. split; [by vm_compute|].
    intros mA mB noA yesB HA HB H1 H2 H3 H4 Hmin.
    apply head_cons in HA as [restA HA]. apply head_cons in HB as [restB HB].
    rewrite (detect_pair_priced _ _ _ _ _ _ _ _ _ _ _ _ _ HA HB H1 H2 H3 H4).
    exists (scenario A B mA mB pm_yes_kalshi_no (fl 0.40) (fl 0.45)
              (fl 0.002) 0).
    split; [|apply scenario_opportunity_of].
    assert (Hpct : 17.5 <= profit_pct_of
                             (cost_with_fees (fl 0.40) (fl 0.45) (fl 0.002) 0))
      by (by vm_compute).
    assert (Hge : Qgeb (profit_pct_of
                          (cost_with_fees (fl 0.40) (fl 0.45) (fl 0.002) 0))
                       minp = true) by (apply Qgeb_true; lra).
    rewrite Hge. apply elem_of_app. left. apply list_elem_of_singleton.
    reflexivity.
  - intros ms pmc kc. apply find_arbitrage_opportunities_concat.
Qed.

End ArbitrageFacts.

(** Polymarket quotes YES at 0.40, a second platform NO at 0.45: at the
    threshold 0.5 of the scanner the first direction is emitted.  A pair
    whose second event has no market is skipped. *)
Lemma detect_pair_emits_profitable_witness :
  ((0.5 <= 17.5)%Q
   ∧ ∃ o, o ∈ Arbitrage.detect_pair (fl 0.002) 0 0.5
                (Samples.pm_btc, Samples.kalshi_btc)
          ∧ Arbitrage.opportunity_of o Samples.pm_btc Samples.kalshi_btc
              Arbitrage.pm_yes_kalshi_no (fl 0.40) (fl 0.45) (fl 0.002) 0)
  ∧ (markets Samples.mf_empty = []
     ∧ Arbitrage.detect_pair (fl 0.002) 0 0.5
         (Samples.pm_btc, Samples.mf_empty)
       = []).
Proof.
  split.
  - assert (Hmin : (0.5 <= 17.5)%Q) by (by vm_compute).
    split; [exact Hmin|].
    exact (proj2 (proj2 (proj2 (proj1 (proj2 (proj2 (proj2
             (detect_pair_emits_profitable (fl 0.002) 0 0.5
                Samples.pm_btc Samples.kalshi_btc)))))))
             _ _ (fl 0.62) (fl 0.55)
             eq_refl eq_refl eq_refl eq_refl eq_refl eq_refl Hmin).
  - split; [reflexivity|].
    exact (proj1 (detect_pair_emits_profitable (fl 0.002) 0 0.5
                    Samples.pm_btc Samples.mf_empty)
             (or_intror eq_refl)).
Defined.

(** With YES at 0.008 on Polymarket and NO at 0.9870088756218905 on the
    second platform, fee rates 0.002 and 0.0, the formulas of the
    specification over the real numbers give a [profit_pct] of at least
    0.5.  The floats that the code computes give less, and at the
    threshold 0.5 nothing is emitted. *)
Lemma real_formula_emits_where_the_code_does_not :
  head (markets Samples.pm_cent) = Some Samples.pm_cent_market
  ∧ head (markets Samples.mf_near) = Some Samples.mf_near_market
  ∧ yes_price Samples.pm_cent_market = Some (fl 0.008)
  ∧ no_price Samples.mf_near_market = Some (fl 0.9870088756218905)
  ∧ (0.5 <= Arbitrage.real_profit_pct
              (Arbitrage.real_fee_cost (fl 0.008) (fl 0.9870088756218905)
                 (fl 0.002) 0))%Q
  ∧ (Arbitrage.spec_profit_pct
       (Arbitrage.spec_fee_cost (fl 0.008) (fl 0.9870088756218905)
          (fl 0.002) 0) < 0.5)%Q
  ∧ Arbitrage.detect_pair (fl 0.002) 0 0.5
      (Samples.pm_cent, Samples.mf_near) = [].
Proof.
  do 4 (split; [reflexivity|]).
  split; [by vm_compute|]. split; [by vm_compute|].
  vm_compute. reflexivity.
Qed.

(** ** The stats aggregator *)

Section StatsFacts.
Import Arbitrage StatsWriter.

Lemma last_n_short {X} (n : nat) (l : list X) :
  (length l ≤ n)%nat → last_n n l = l.
Proof.
  intros Hle. unfold last_n. by replace (length l - n)%nat with O by lia.
Qed.

Lemma length_last_n {X} (n : nat) (l : list X) :
  length (last_n n l) = (length l `min` n)%nat.
Proof. unfold last_n. rewrite length_drop. lia. Qed.

(** Truncating before appending does not change what the next truncation
    keeps. *)
Lemma last_n_app_last_n {X} (n : nat) (l r : list X) :
  last_n n (last_n n l ++ r) = last_n n (l ++ r).
Proof.
  unfold last_n at 1 3. rewrite !length_app, length_last_n.
  unfold last_n.
  rewrite <- (drop_app_le l r (length l - n)) by lia.
  rewrite drop_drop. f_equal. lia.
Qed.

(** The two lines that append and truncate keep the last 100 entries. *)
Lemma update_stats_history stats sc c :
  scan_history (update_stats stats sc c)
  = last_n 100 (scan_history stats ++ [sc]).
Proof.
  unfold update_stats. cbn [scan_history].
  destruct (100 <? length (scan_history stats ++ [sc]))%nat eqn:Hlen;
    [reflexivity|].
  apply Nat.ltb_ge in Hlen. by rewrite last_n_short.
Qed.

Lemma write_scan_stats_unreadable c :
  write_scan_stats Unreadable c = Unreadable.
Proof. reflexivity. Qed.

Lemma write_scan_stats_recorded file c stats sc :
  load file = Return stats → scan_recorded c = Some sc →
  write_scan_stats file c = Stored (update_stats stats sc c).
Proof.
  unfold write_scan_stats, new_stats, scan_recorded. intros -> Hsc.
  cbn. by destruct (current_scan_of c) as [sc'|]; simplify_eq.
Qed.

Lemma write_scan_stats_dropped file c :
  scan_recorded c = None → write_scan_stats file c = file.
Proof.
  unfold write_scan_stats, new_stats, scan_recorded. intros Hsc.
  destruct (load file); cbn; [|reflexivity].
  by destruct (current_scan_of c).
Qed.

(** A file that can be loaded, of at most 100 entries, holds after any
    calls the last 100 of its entries and of those that the calls record;
    [total_scans] is the length that the history had when the last record
    was appended. *)
Lemma record_all_history file stats calls :
  load file = Return stats → (length (scan_history stats) ≤ 100)%nat →
  recorded calls ≠ [] →
  ∃ stats', record_all file calls = Stored stats'
    ∧ scan_history stats'
      = last_n 100 (scan_history stats ++ recorded calls)
    ∧ total_scans stats'
      = Z.of_nat
          (length (last_n 100 (scan_history stats
                                 ++ removelast (recorded calls))) + 1).
Proof.
  revert file stats.
  induction calls as [|c rest IH]; intros file stats Hload Hlen Hne; [done|].
  unfold record_all, recorded in *. cbn [fold_left omap list_omap] in *.
  destruct (scan_recorded c) as [sc|] eqn:Hsc.
  - rewrite (write_scan_stats_recorded _ _ _ _ Hload Hsc).
    destruct (omap scan_recorded rest) as [|sc' scs] eqn:Hrest.
    + clear IH. exists (update_stats stats sc c).
      assert (Hnone : ∀ f, fold_left write_scan_stats rest f = f).
      { clear -Hrest. induction rest as [|c' rest IH]; [done|].
        intros f. cbn in *. destruct (scan_recorded c') eqn:Hc'; [done|].
        rewrite write_scan_stats_dropped by done. by apply IH. }
      rewrite Hnone. split; [done|]. split; [apply update_stats_history|].
      cbn. rewrite app_nil_r, length_app, last_n_short by lia. done.
    + destruct (IH (Stored (update_stats stats sc c)) (update_stats stats sc c))
        as (stats' & Hrec & Hhist & Htotal); [done | | done |].
      { rewrite update_stats_history, length_last_n. lia. }
      exists stats'. split; [exact Hrec|].
      rewrite update_stats_history, last_n_app_last_n in Hhist, Htotal.
      rewrite <- !app_assoc in Hhist, Htotal. split; [exact Hhist|].
      rewrite Htotal. done.
  - rewrite (write_scan_stats_dropped _ _ Hsc). by apply IH.
Qed.

Lemma record_all_dropped file calls :
  recorded calls = [] → record_all file calls = file.
Proof.
  unfold record_all, recorded. revert file.
  induction calls as [|c rest IH]; intros file Hnone; [done|].
  cbn in *. destruct (scan_recorded c) eqn:Hc; [done|].
  rewrite write_scan_stats_dropped by done. by apply IH.
Qed.

(** From store creation, [total_scans] follows the number of records up
    to 101 and stays there. *)
Lemma total_scans_capped calls :
  recorded calls ≠ [] →
  ∃ stats, record_all Absent calls = Stored stats
    ∧ total_scans stats = Z.of_nat (length (recorded calls) `min` 101).
Proof.
  intros Hne.
  destruct (record_all_history Absent empty_stats calls)
    as (stats & Hrec & _ & Htotal); [done | cbn; lia | done |].
  exists stats. split; [exact Hrec|]. rewrite Htotal. cbn [scan_history app].
  rewrite length_last_n.
  destruct (exists_last Hne) as (scs & sc & ->).
  rewrite removelast_last, !length_app. cbn. lia.
Qed.

(** C1, at the failing input: after 102 records from store creation
    [total_scans] is 101. *)
Theorem total_scans_is_101_after_102_records :
  length (recorded (replicate 102 Samples.sample_call)) = 102%nat
  ∧ total_scans
      <$> get_stats (record_all Absent (replicate 102 Samples.sample_call))
    = Some 101.
Proof. split; vm_compute; reflexivity. Qed.

(** The last element of a list is the last element of each of its
    non-empty suffixes. *)
Lemma last_drop {X} (k : nat) (l : list X) :
  (k < length l)%nat → last (drop k l) = last l.
Proof.
  intros Hk. rewrite !last_lookup, length_drop, lookup_drop. f_equal. lia.
Qed.

(** C8.  From store creation and after any calls, the history in the file
    is the list of the records made so far without its first
    [length - 100] entries when there are more than 100: it has the
    smaller of 100 and the number of records as length, holds the most
    recent records in their order, and ends with the newest one.  Whatever
    the file held before, a call that records leaves the entries of the
    history and its record, without the oldest ones beyond 100, its record
    last. *)
Theorem scan_history_keeps_last_100 calls :
  history_of (record_all Absent calls)
  = drop (length (recorded calls) - 100) (recorded calls)
  ∧ length (history_of (record_all Absent calls))
    = (length (recorded calls) `min` 100)%nat
  ∧ (∀ i sc, history_of (record_all Absent calls) !! i = Some sc →
       recorded calls !! (length (recorded calls) - 100 + i)%nat = Some sc)
  ∧ last (history_of (record_all Absent calls)) = last (recorded calls)
  ∧ ∀ file c stats sc,
      load file = Return stats → scan_recorded c = Some sc →
      history_of (write_scan_stats file c)
      = drop (length (scan_history stats ++ [sc]) - 100)
             (scan_history stats ++ [sc])
      ∧ (length (history_of (write_scan_stats file c)) ≤ 100)%nat
      ∧ last (history_of (write_scan_stats file c)) = Some sc.
Proof.
  assert (Hhist : history_of (record_all Absent calls)
                  = drop (length (recorded calls) - 100) (recorded calls)).
  { destruct (recorded calls) as [|sc scs] eqn:Hrec.
    - by rewrite record_all_dropped.
    - destruct (record_all_history Absent empty_stats calls)
        as (stats & Hfile & Hh & _); [done | cbn; lia | congruence |].
      rewrite Hfile. cbn [history_of]. rewrite Hh, Hrec. done. }
  split; [exact Hhist|]. split; [rewrite Hhist, length_drop; lia|].
  split; [|split].
  - intros i sc. rewrite Hhist, lookup_drop. done.
  - rewrite Hhist. destruct (recorded calls) as [|sc scs]; [done|].
    apply last_drop. cbn. lia.
  - intros file c stats sc Hload Hsc.
    rewrite (write_scan_stats_recorded _ _ _ _ Hload Hsc). cbn [history_of].
    rewrite update_stats_history. unfold last_n.
    split; [done|]. split; [rewrite length_drop; lia|].
    rewrite last_drop by (rewrite length_app; cbn; lia).
    apply last_snoc.
Qed.

(** C3, on the failing path: on a file that cannot be loaded the call
    returns, leaves the file as it is and stores no record, where the
    specification asks for a fresh store holding the record.  The other
    branch of the same test, on a missing file, starts from the empty
    store and stores the record. *)
Theorem unreadable_file_is_left_untouched c :
  write_scan_stats Unreadable c = Unreadable
  ∧ get_stats (write_scan_stats Unreadable c) = None
  ∧ ∀ sc, scan_recorded c = Some sc →
      ∃ stats, write_scan_stats Absent c = Stored stats
        ∧ scan_history stats = [sc]
        ∧ last_scan stats = Some sc
        ∧ total_scans stats = 1
        ∧ total_opportunities stats = arg_opportunities_count c
        ∧ total_alerts stats = arg_alerts_sent c.
Proof.
  split; [reflexivity|]. split; [reflexivity|]. intros sc Hsc.
  exists (update_stats empty_stats sc c).
  split; [by apply write_scan_stats_recorded|]. by repeat split.
Qed.

(** [max] returns an element of greatest [profit_pct]. *)
Lemma max_profit_pct_spec best rest :
  max_profit_pct best rest ∈ best :: rest
  ∧ ∀ o, o ∈ best :: rest →
      (profit_pct o <= profit_pct (max_profit_pct best rest))%Q.
Proof.
  revert best. induction rest as [|o rest IH]; intros best; cbn.
  - split; [by left|]. intros o Ho.
    apply list_elem_of_singleton in Ho as ->. apply Qle_refl.
  - destruct (IH (if Qgtb (profit_pct o) (profit_pct best) then o else best))
      as [Hin Hmax].
    split.
    + apply elem_of_cons in Hin as [-> | Hin]; [|by do 2 right].
      destruct (Qgtb _ _); [right; by left | by left].
    + intros o' Ho'.
      assert (Hboth : ∀ x, x = o ∨ x = best →
                (profit_pct x
                 <= profit_pct (if Qgtb (profit_pct o) (profit_pct best)
                                then o else best))%Q).
      { intros x Hx. destruct (Qgtb _ _) eqn:Hgt.
        - apply Qgtb_true in Hgt. destruct Hx as [-> | ->]; lra.
        - apply Qgtb_false in Hgt. destruct Hx as [-> | ->]; lra. }
      apply elem_of_cons in Ho' as [-> | Ho'].
      * eapply Qle_trans; [apply Hboth; by right|]. apply Hmax. by left.
      * apply elem_of_cons in Ho' as [-> | Ho'].
        -- eapply Qle_trans; [apply Hboth; by left|]. apply Hmax. by left.
        -- apply Hmax. by right.
Qed.

(** What [track_best] stores, in terms of the best opportunity of the
    cycle. *)
Lemma track_best_spec stored opps sc :
  (opps = [] ∧ track_best stored opps sc = stored)
  ∨ ∃ best, best ∈ opps
      ∧ (∀ o, o ∈ opps → (profit_pct o <= profit_pct best)%Q)
      ∧ match stored with
        | None => track_best stored opps sc = Some (new_best best sc)
        | Some b =>
            ((best_profit_pct b < profit_pct best)%Q
             ∧ track_best stored opps sc = Some (new_best best sc))
            ∨ ((profit_pct best <= best_profit_pct b)%Q
               ∧ track_best stored opps sc = Some b)
        end.
Proof.
  destruct opps as [|o rest]; [by left|]. right.
  destruct (max_profit_pct_spec o rest) as [Hin Hmax].
  exists (max_profit_pct o rest). split; [exact Hin|]. split; [exact Hmax|].
  cbn. destruct stored as [b|]; [|reflexivity].
  destruct (Qgtb _ _) eqn:Hgt.
  - left. by apply Qgtb_true in Hgt.
  - right. by apply Qgtb_false in Hgt.
Qed.

(** C9.  A call that records replaces a stored [best_opportunity] only
    when the best [profit_pct] of the cycle is strictly greater than the
    stored one, and then by that best opportunity; when no opportunity of
    the cycle exceeds the stored value, equal ones included, the stored
    best stays.  An empty store takes the best opportunity of the first
    cycle that has one. *)
Theorem best_opportunity_needs_strict_improvement file c stats sc :
  load file = Return stats → scan_recorded c = Some sc →
  ∃ stats', write_scan_stats file c = Stored stats'
    ∧ (∀ b, best_opportunity stats = Some b →
         (∀ o, o ∈ arg_opportunities c →
               (profit_pct o <= best_profit_pct b)%Q) →
         best_opportunity stats' = Some b)
    ∧ (∀ b, best_opportunity stats = Some b →
         best_opportunity stats' ≠ Some b →
         ∃ best, best ∈ arg_opportunities c
           ∧ (∀ o, o ∈ arg_opportunities c →
                   (profit_pct o <= profit_pct best)%Q)
           ∧ (best_profit_pct b < profit_pct best)%Q
           ∧ best_opportunity stats' = Some (new_best best sc))
    ∧ (∀ b o, best_opportunity stats = Some b → o ∈ arg_opportunities c →
         (best_profit_pct b < profit_pct o)%Q →
         ∃ best, best ∈ arg_opportunities c
           ∧ (∀ o, o ∈ arg_opportunities c →
                   (profit_pct o <= profit_pct best)%Q)
           ∧ best_opportunity stats' = Some (new_best best sc))
    ∧ (best_opportunity stats = None →
         (arg_opportunities c = [] → best_opportunity stats' = None)
         ∧ (arg_opportunities c ≠ [] →
            ∃ best, best ∈ arg_opportunities c
              ∧ (∀ o, o ∈ arg_opportunities c →
                      (profit_pct o <= profit_pct best)%Q)
              ∧ best_opportunity stats' = Some (new_best best sc))).
Proof.
  intros Hload Hsc. exists (update_stats stats sc c).
  split; [by apply write_scan_stats_recorded|].
  cbn [update_stats best_opportunity].
  destruct (track_best_spec (best_opportunity stats) (arg_opportunities c) sc)
    as [[Hnil Hkeep] | (best & Hin & Hmax & Hcase)].
  - rewrite Hkeep, Hnil. repeat split.
    + by intros b ->.
    + intros b ->. done.
    + intros b o _ Ho. inversion Ho.
    + done.
    + done.
  - split; [|split; [|split; [|intros Hnone; split]]].
    + intros b Hb Hle. rewrite Hb in Hcase |- *.
      destruct Hcase as [[Hlt _] | [_ ->]]; [|done].
      pose proof (Hle best Hin). lra.
    + intros b Hb Hne. rewrite Hb in Hcase, Hne |- *.
      destruct Hcase as [[Hlt Hnew] | [_ Hold]]; [|congruence].
      exists best. by repeat split.
    + intros b o Hb Ho Hlt. rewrite Hb in Hcase |- *.
      destruct Hcase as [[_ Hnew] | [Hle _]].
      * exists best. by repeat split.
      * pose proof (Hmax o Ho). lra.
    + intros Hnil. rewrite Hnil in Hin. inversion Hin.
    + intros _. rewrite Hnone in Hcase |- *.
      exists best. by repeat split.
Qed.

End StatsFacts.

(** Of 102 cycles numbered from 1, recorded on a missing file, the
    history keeps the cycles 3 to 102, in that order: the two oldest ones
    are gone. *)
Lemma scan_history_keeps_last_100_witness :
  StatsWriter.pm_events
    <$> StatsWriter.history_of
          (StatsWriter.record_all StatsWriter.Absent
             (Samples.numbered_call <$> seq 1 102))
  = Z.of_nat <$> seq 3 100.
Proof.
  rewrite (proj1 (scan_history_keeps_last_100
                    (Samples.numbered_call <$> seq 1 102))).
  vm_compute. reflexivity.
Defined.

(** The sample cycle on a file that cannot be loaded, and on a missing
    one. *)
Lemma unreadable_file_is_left_untouched_witness :
  StatsWriter.write_scan_stats StatsWriter.Unreadable Samples.sample_call
  = StatsWriter.Unreadable
  ∧ ∃ stats,
      StatsWriter.write_scan_stats StatsWriter.Absent Samples.sample_call
      = StatsWriter.Stored stats
      ∧ StatsWriter.total_scans stats = 1.
Proof.
  destruct (unreadable_file_is_left_untouched Samples.sample_call)
    as (Hsame & _ & Hfresh).
  split; [exact Hsame|].
  edestruct Hfresh as (stats & Hfile & _ & _ & Htotal & _);
    [vm_compute; reflexivity|].
  exists stats. split; [exact Hfile | exact Htotal].
Defined.

(** The record of the sample cycle can be built, and on a missing file
    it is stored; on a file that cannot be loaded nothing is stored. *)
Example unreadable_file_loses_the_record :
  StatsWriter.scan_recorded Samples.sample_call ≠ None
  ∧ StatsWriter.write_scan_stats StatsWriter.Unreadable Samples.sample_call
    ≠ StatsWriter.write_scan_stats StatsWriter.Absent Samples.sample_call
  ∧ StatsWriter.history_of
      (StatsWriter.write_scan_stats StatsWriter.Unreadable Samples.sample_call)
    = [].
Proof.
  split; [vm_compute; discriminate|]. split; [|reflexivity].
  vm_compute. discriminate.
Qed.

(** The next cycle finds the same opportunity, of the same [profit_pct]:
    the stored best, with the timestamp of the first cycle, stays. *)
Lemma best_opportunity_needs_strict_improvement_witness :
  StatsWriter.best_opportunity
    <$> StatsWriter.get_stats
          (StatsWriter.write_scan_stats Samples.file_after_one
             Samples.later_call)
  = StatsWriter.best_opportunity
      <$> StatsWriter.get_stats Samples.file_after_one.
Proof.
  edestruct (best_opportunity_needs_strict_improvement
               Samples.file_after_one Samples.later_call)
    as (stats' & Hfile & Hkeep & _);
    [vm_compute; reflexivity | vm_compute; reflexivity |].
  rewrite Hfile. cbn [StatsWriter.get_stats fmap option_fmap option_map].
  erewrite Hkeep; [vm_compute; reflexivity | vm_compute; reflexivity |].
  intros o Ho. vm_compute in Ho.
  apply list_elem_of_singleton in Ho as ->. vm_compute. discriminate.
Defined.

(** ** The scan loop *)

Section PaperTraderFacts.
Import Arbitrage StatsWriter PaperTrader.

(** The difference of the cooldown test is a float, which its rounding
    leaves as it is: for a reading [now] of the clock and the reading [T]
    of an earlier alert, two floats within a factor of two of each other,
    and for a reading and the default 0. *)
Lemma clock_difference_is_exact now T :
  is_float now → is_float T →
  (T == 0 ∨ (0 < T ∧ T <= 2 * now ∧ now <= 2 * T))%Q →
  (fsub now T == now - T)%Q.
Proof.
  intros Hnow HT Hclose. change (is_float (now - T)).
  destruct Hclose as [H0 | (Hpos & H1 & H2)].
  - apply (is_float_comp now); [rewrite H0; ring | exact Hnow].
  - destruct (Qlt_le_dec now T) as [Hlt | Hle].
    + apply (is_float_comp (- (T - now))); [ring|].
      apply is_float_opp, sterbenz; try done; lra.
    + by apply sterbenz.
Qed.

(** On such readings the test of the loop, with its rounded difference,
    is [in_cooldown]. *)
Lemma in_cooldown_binary64 (la : gmap string Q) key now :
  is_float now →
  (∀ T, la !! key = Some T →
        is_float T ∧ (0 < T ∧ T <= 2 * now ∧ now <= 2 * T)%Q) →
  Qltb (fsub now (default 0%Q (la !! key))) (inject_Z ALERT_COOLDOWN_SECONDS)
  = in_cooldown la key now.
Proof.
  intros Hnow Hla. unfold in_cooldown, Qltb. f_equal.
  assert (Hex : (fsub now (default 0%Q (la !! key))
                 == now - default 0%Q (la !! key))%Q).
  { destruct (la !! key) as [T|] eqn:HT; cbn [default from_option id].
    - destruct (Hla T eq_refl) as [HfT Hclose].
      apply clock_difference_is_exact; [done | done | by right].
    - apply clock_difference_is_exact; [done | apply is_float_0 | by left]. }
  apply eq_true_iff_eq. rewrite !Qle_bool_iff. by rewrite Hex.
Qed.

Lemma in_cooldown_true (la : gmap string Q) key now :
  in_cooldown la key now = true
  ↔ (now - default 0%Q (la !! key) < inject_Z ALERT_COOLDOWN_SECONDS)%Q.
Proof. unfold in_cooldown. apply Qltb_true. Qed.

Lemma in_cooldown_false (la : gmap string Q) key now :
  in_cooldown la key now = false
  ↔ (inject_Z ALERT_COOLDOWN_SECONDS <= now - default 0%Q (la !! key))%Q.
Proof. unfold in_cooldown. apply Qltb_false. Qed.

Lemma dispatch_one_suppressed (la : gmap string Q) key now :
  (now - default 0%Q (la !! key) < inject_Z ALERT_COOLDOWN_SECONDS)%Q →
  dispatch_one la key now = (la, false).
Proof.
  intros H. apply in_cooldown_true in H. unfold dispatch_one. by rewrite H.
Qed.

Lemma dispatch_one_alerted (la : gmap string Q) key now :
  (inject_Z ALERT_COOLDOWN_SECONDS <= now - default 0%Q (la !! key))%Q →
  dispatch_one la key now = (<[key := now]> la, true).
Proof.
  intros H. apply in_cooldown_false in H. unfold dispatch_one. by rewrite H.
Qed.

(** One turn of the dispatch loop is [dispatch_one] on the key of the
    opportunity, at the reading of the clock for it. *)
Lemma dispatch_cons opp rest clock i st :
  dispatch (opp :: rest) clock i st
  = dispatch rest clock (S i)
      (if (dispatch_one (d_last_alerted st) (cooldown_key opp) (clock i)).2
       then {| d_last_alerted :=
                 (dispatch_one (d_last_alerted st) (cooldown_key opp)
                    (clock i)).1;
               d_alerts_sent := d_alerts_sent st + 1;
               d_alerts := d_alerts st ++ [opp] |}
       else st).
Proof. cbn [dispatch]. by destruct (dispatch_one _ _ _). Qed.

(** The loop on two lists put end to end. *)
Lemma dispatch_app l1 l2 clock i st :
  dispatch (l1 ++ l2) clock i st
  = dispatch l2 clock (i + length l1) (dispatch l1 clock i st).
Proof.
  revert i st. induction l1 as [|opp rest IH]; intros i st.
  { cbn [app length dispatch]. by replace (i + 0)%nat with i by lia. }
  rewrite <- app_comm_cons, !dispatch_cons, IH. cbn [length].
  by replace (S i + length rest)%nat with (i + S (length rest))%nat by lia.
Qed.

(** Up to the first underscore a string is read in one way. *)
Lemma app_underscore_inj (a a' r r' : string) :
  underscore_free a → underscore_free a' →
  (a +:+ "_" +:+ r = a' +:+ "_" +:+ r')%string → a = a' ∧ r = r'.
Proof.
  revert a'. induction a as [|c a IH]; intros [|c' a'] Ha Ha' Heq.
  - change (String "_" r = String "_" r') in Heq. by injection Heq as ->.
  - change (String "_" r = String c' (a' +:+ "_" +:+ r')%string) in Heq.
    injection Heq as <- _. by destruct Ha'.
  - change (String c (a +:+ "_" +:+ r)%string = String "_" r') in Heq.
    injection Heq as -> _. by destruct Ha.
  - change (String c (a +:+ "_" +:+ r)%string
            = String c' (a' +:+ "_" +:+ r')%string) in Heq.
    injection Heq as -> Heq. destruct Ha as [_ Ha], Ha' as [_ Ha'].
    destruct (IH a' Ha Ha' Heq) as [-> ->]. done.
Qed.

(** The key that the loop builds is the same for opportunities of the
    same pair and direction, and tells apart pairs whose identifiers hold
    no underscore. *)
Lemma cooldown_key_triple o1 o2 :
  (key_triple o1 = key_triple o2 → cooldown_key o1 = cooldown_key o2)
  ∧ (underscore_free (id (pm_event o1)) →
     underscore_free (id (kalshi_event o1)) →
     underscore_free (id (pm_event o2)) →
     underscore_free (id (kalshi_event o2)) →
     cooldown_key o1 = cooldown_key o2 → key_triple o1 = key_triple o2).
Proof.
  unfold key_triple, cooldown_key. split.
  - by intros [= -> -> ->].
  - intros HA1 HB1 HA2 HB2 Heq.
    apply app_underscore_inj in Heq as [-> Heq]; [|done..].
    apply app_underscore_inj in Heq as [-> Heq]; [|done..].
    by destruct (direction o1), (direction o2).
Qed.


(** C2, on the failing path: when the request of the Polymarket client
    fails, the iteration ends in the [except] branch of the loop.  Nothing
    is matched, detected, dispatched or recorded, the state is the one
    before the iteration, and the loop sleeps 10 seconds. *)
Theorem polymarket_fetch_error_aborts_cycle ratio lower bot msg mf clk ts :
  scan_cycle ratio lower bot
    {| pm_response := NetError msg; manifold_response := mf;
       clock := clk; scan_timestamp := ts |}
  = (bot, LoopError msg, 10).
Proof. reflexivity. Qed.

(** The sibling path: a failed request of the Manifold client is caught
    in the client, and the iteration runs to its end with no Manifold
    event. *)
Lemma manifold_fetch_error_is_zero_events ratio lower bot msg evs clk ts :
  scan_cycle ratio lower bot
    {| pm_response := Payload evs; manifold_response := NetError msg;
       clock := clk; scan_timestamp := ts |}
  = scan_cycle ratio lower bot
      {| pm_response := Payload evs; manifold_response := Payload [];
         clock := clk; scan_timestamp := ts |}
  ∧ ∃ bot',
      scan_cycle ratio lower bot
        {| pm_response := Payload evs; manifold_response := NetError msg;
           clock := clk; scan_timestamp := ts |}
      = (bot', Scanned evs [] [], SCAN_INTERVAL)
      ∧ last_alerted bot' = last_alerted bot
      ∧ stats_file bot'
        = write_scan_stats (stats_file bot)
            {| now_iso := ts;
               pm_events_count := Z.of_nat (length evs);
               manifold_events_count := 0;
               matched_count := 0;
               arg_opportunities_count := 0;
               arg_alerts_sent := 0;
               arg_opportunities := [];
               pm_sample_events := head_or_none 5 evs;
               manifold_sample_events := None;
               matched_pairs := None |}.
Proof.
  split; [reflexivity|].
  assert (Hnone : Matcher.match_events ratio lower evs []
                    TITLE_SIMILARITY_THRESHOLD DATE_MATCH_TOLERANCE_DAYS = []).
  { induction evs as [|e rest IH]; [done|]. cbn. exact IH. }
  unfold scan_cycle. cbn [get_events ManifoldPlatformClient PolymarketClient
                          manifold_response pm_response].
  rewrite Hnone. cbn. eauto.
Qed.

End PaperTraderFacts.


(** The default 0 of the cooldown map reads as an alert at the epoch: on
    a clock that read less than the window, within the first half hour of
    1970, a key never alerted would be suppressed. *)
Example fresh_key_reads_as_alerted_at_the_epoch :
  (∅ : gmap string Q) !! Samples.btc_key = None
  ∧ PaperTrader.dispatch_one ∅ Samples.btc_key 100 = (∅, false).
Proof.
  split; [apply lookup_empty|].
  apply dispatch_one_suppressed. rewrite lookup_empty. reflexivity.
Qed.

(** The key of the sample opportunity is the one used above. *)
Example cooldown_key_sample :
  PaperTrader.cooldown_key
    <$> Arbitrage.detect_pair 0.002 0 0.5 (Samples.pm_btc, Samples.mf_btc_a)
  = [Samples.btc_key].
Proof. reflexivity. Qed.

(** A whole iteration on the sample events: one pair, one opportunity,
    one alert, one record; and the same iteration when the Polymarket
    request fails. *)
Example scan_cycle_sample :
  let bot := {| PaperTrader.last_alerted := ∅;
                PaperTrader.stats_file := StatsWriter.Absent |} in
  let inp (r : Response) :=
    {| PaperTrader.pm_response := r;
       PaperTrader.manifold_response :=
         Payload [Samples.mf_lakers; Samples.mf_btc_a; Samples.mf_btc_b];
       PaperTrader.clock := λ _, 1000000%Q;
       PaperTrader.scan_timestamp := "2026-01-01T00:00:00+00:00" |} in
  let ok := PaperTrader.scan_cycle Difflib.ratio Difflib.lower bot
              (inp (Payload [Samples.pm_btc])) in
  let ko := PaperTrader.scan_cycle Difflib.ratio Difflib.lower bot
              (inp (NetError "ConnectionError")) in
  ok.2 = 60
  ∧ match ok.1.2 with
    | PaperTrader.Scanned _ _ alerts => PaperTrader.cooldown_key <$> alerts
    | PaperTrader.LoopError _ => []
    end = [Samples.btc_key]
  ∧ PaperTrader.last_alerted ok.1.1 !! Samples.btc_key = Some 1000000%Q
  ∧ StatsWriter.total_scans
      <$> StatsWriter.get_stats (PaperTrader.stats_file ok.1.1) = Some 1
  ∧ ko = (bot, PaperTrader.LoopError "ConnectionError", 10)
  ∧ StatsWriter.get_stats (PaperTrader.stats_file ko.1.1) = None.
Proof. repeat split; vm_compute; reflexivity. Qed.

(** * Further properties *)

(** ** The matcher: soundness, edge cases and composition *)

Section MatcherMore.

Variable ratio : string → string → Q.
Variable lower : string → string.

Abbreviation sim := (Matcher.similarity ratio lower).
Abbreviation find_best_match := (Matcher.find_best_match ratio lower).
Abbreviation match_events := (Matcher.match_events ratio lower).

Lemma date_filtered_false_micro A B tol :
  tol * 86400 < 2 ^ 34 →
  Matcher.date_filtered A B tol = false
  ↔ Z.abs (end_date A - end_date B) ≤ tol * 86400 * 1000000.
Proof.
  intros Htol. pose proof (date_filtered_exact A B tol Htol) as Hex.
  destruct (Matcher.date_filtered A B tol); split; intros H; try done.
  - assert (true = true) as Ht by done. apply Hex in Ht. lia.
  - destruct (Z_lt_le_dec (tol * 86400 * 1000000)
                (Z.abs (end_date A - end_date B))) as [Hlt | Hle];
      [|exact Hle].
    apply Hex in Hlt. discriminate.
Qed.

(** X1.  Every pair returned is made of a source event and of a target
    event of the inputs that passed the date filter, whose similarity
    reaches the threshold and is positive.  The date filter is on the
    float seconds between the two resolution times; for a tolerance below
    [2^34] seconds the two times differ by at most the tolerance, to the
    microsecond. *)
Theorem matched_pairs_are_sound pms ks thr tol A B :
  (A, B) ∈ match_events pms ks thr tol →
  A ∈ pms ∧ B ∈ ks
  ∧ (Matcher.date_diff_seconds A B <= inject_Z (tol * 86400))%Q
  ∧ (tol * 86400 < 2 ^ 34 →
     Z.abs (end_date A - end_date B) ≤ tol * 86400 * 1000000)
  ∧ (thr <= sim A B)%Q ∧ (0 < sim A B)%Q.
Proof.
  intros Hin. apply elem_of_match_events in Hin as [HA Hsel].
  apply find_best_match_Some in Hsel as (i & (Hi & Ht & Hthr & _) & Hpos).
  split; [exact HA|]. split; [by eapply list_elem_of_lookup_2|].
  split; [by apply date_filtered_false|].
  split; [intros Htol; by apply date_filtered_false_micro | done].
Qed.

(** X2.  The source events of the pairs returned are a sub-sequence of the
    source events: order is kept and no source event is paired twice.
    Without targets there is no pair. *)
Theorem matched_sources_are_a_subsequence pms ks thr tol :
  (match_events pms ks thr tol).*1 `sublist_of` pms
  ∧ (length (match_events pms ks thr tol) ≤ length pms)%nat
  ∧ match_events pms [] thr tol = [].
Proof.
  assert (Hsub : (match_events pms ks thr tol).*1 `sublist_of` pms).
  { induction pms as [|pm rest IH]; cbn -[Matcher.find_best_match]; [done|].
    destruct (find_best_match pm ks thr tol); cbn.
    - by apply sublist_skip.
    - by apply sublist_cons. }
  split; [exact Hsub|]. split.
  - apply sublist_length in Hsub. by rewrite length_fmap in Hsub.
  - clear Hsub. induction pms as [|pm rest IH]; [done | exact IH].
Qed.

(** X3.  Lowering the threshold keeps every pair: a pair found at a
    threshold is found, with the same partner, at every lower one. *)
Theorem lower_threshold_keeps_pairs pms ks thr thr' tol A B :
  (thr <= thr')%Q →
  (A, B) ∈ match_events pms ks thr' tol →
  (A, B) ∈ match_events pms ks thr tol.
Proof.
  intros Hle Hin. apply elem_of_match_events in Hin as [HA Hsel].
  apply elem_of_match_events. split; [exact HA|].
  apply find_best_match_Some in Hsel
    as (i & (Hi & Ht & Hthr & Hmax & Hfirst) & Hpos).
  apply find_best_match_Some. exists i. split; [|exact Hpos].
  repeat split; try assumption. lra.
Qed.

(** X4.  A negative date tolerance discards every candidate, so that
    nothing is paired; with a tolerance of zero days only events that
    resolve at the same instant are paired. *)
Theorem degenerate_tolerances pms ks thr tol :
  (tol < 0 → match_events pms ks thr tol = [])
  ∧ (tol = 0 → ∀ A B, (A, B) ∈ match_events pms ks thr tol →
       end_date A = end_date B).
Proof.
  split.
  - intros Hneg.
    assert (Hnone : ∀ pm, find_best_match pm ks thr tol = None).
    { intros pm. apply find_best_match_None. intros k _ Hin.
      apply date_filtered_false_micro in Hin; lia. }
    induction pms as [|pm rest IH]; cbn -[Matcher.find_best_match]; [done|].
    by rewrite Hnone.
  - intros -> A B Hin. apply elem_of_match_events in Hin as [_ Hsel].
    apply find_best_match_Some in Hsel as (i & (_ & Ht & _) & _).
    apply date_filtered_false_micro in Ht; lia.
Qed.

(** X5.  Source events are matched independently of one another: the
    pairs of two lists of source events put end to end are the pairs of
    the first followed by the pairs of the second.  Nothing prevents two
    source events from being paired with the same target. *)
Theorem match_events_app pms1 pms2 ks thr tol :
  match_events (pms1 ++ pms2) ks thr tol
  = match_events pms1 ks thr tol ++ match_events pms2 ks thr tol.
Proof.
  induction pms1 as [|pm rest IH]; cbn -[Matcher.find_best_match]; [done|].
  rewrite IH. by destruct (find_best_match pm ks thr tol).
Qed.

End MatcherMore.

Lemma matched_pairs_are_sound_witness :
  Samples.mf_btc_a ∈ [Samples.mf_lakers; Samples.mf_btc_a; Samples.mf_btc_b]
  ∧ (0.5 <= Matcher.similarity Difflib.ratio Difflib.lower
               Samples.pm_btc Samples.mf_btc_a)%Q.
Proof.
  destruct (matched_pairs_are_sound Difflib.ratio Difflib.lower
              [Samples.pm_btc]
              [Samples.mf_lakers; Samples.mf_btc_a; Samples.mf_btc_b]
              0.5%Q 3 Samples.pm_btc Samples.mf_btc_a)
    as (_ & Hk & _ & _ & Hthr & _); [|done].
  apply elem_of_match_events. split; [apply list_elem_of_here|].
  vm_compute. reflexivity.
Defined.

Lemma lower_threshold_keeps_pairs_witness :
  (Samples.pm_btc, Samples.mf_btc_a)
  ∈ Matcher.match_events Difflib.ratio Difflib.lower [Samples.pm_btc]
      [Samples.mf_lakers; Samples.mf_btc_a; Samples.mf_btc_b] 0.5%Q 3.
Proof.
  apply (lower_threshold_keeps_pairs Difflib.ratio Difflib.lower
           _ _ 0.5%Q 0.8%Q); [by vm_compute|].
  apply elem_of_match_events. split; [apply list_elem_of_here|].
  vm_compute. reflexivity.
Defined.

Lemma degenerate_tolerances_witness :
  Matcher.match_events Difflib.ratio Difflib.lower [Samples.pm_btc]
    [Samples.mf_lakers; Samples.mf_btc_a] 0.5%Q (-1) = []
  ∧ ∀ A B,
      (A, B) ∈ Matcher.match_events Difflib.ratio Difflib.lower
                 [Samples.pm_btc] [Samples.mf_lakers; Samples.mf_btc_a]
                 0.5%Q 0 →
      end_date A = end_date B.
Proof.
  split.
  - apply (proj1 (degenerate_tolerances Difflib.ratio Difflib.lower
                    _ _ 0.5%Q (-1))). lia.
  - apply (proj2 (degenerate_tolerances Difflib.ratio Difflib.lower
                    _ _ 0.5%Q 0)). reflexivity.
Defined.

(** ** The opportunity detector: what an emitted opportunity guarantees *)

Section ArbitrageMore.
Import Arbitrage.
Local Open Scope Q_scope.

(** Every element of the result was built by [scenario] from the first
    markets of one of the pairs, and passed the threshold. *)
Lemma emitted_is_scenario ms pmc kc minp o :
  o ∈ find_arbitrage_opportunities ms pmc kc minp →
  ∃ A B mA mB d a b,
    (A, B) ∈ ms
    ∧ head (markets A) = Some mA ∧ head (markets B) = Some mB
    ∧ legs_of d mA mB = (Some a, Some b)
    ∧ o = scenario A B mA mB d a b (@get_fee_rate pmc) (@get_fee_rate kc)
    ∧ minp <= profit_pct o.
Proof.
  induction ms as [|[A B] rest IH]; cbn [find_arbitrage_opportunities].
  { intros H. inversion H. }
  intros Hin. apply elem_of_app in Hin as [Hin | Hin].
  - unfold detect_pair in Hin.
    destruct (markets A) as [|mA restA] eqn:HA; [inversion Hin|].
    destruct (markets B) as [|mB restB] eqn:HB; [inversion Hin|].
    destruct (yes_price mA) as [yesA|] eqn:H1; [|inversion Hin].
    destruct (no_price mA) as [noA|] eqn:H2; [|inversion Hin].
    destruct (yes_price mB) as [yesB|] eqn:H3; [|inversion Hin].
    destruct (no_price mB) as [noB|] eqn:H4; [|inversion Hin].
    apply elem_of_app in Hin as [Hin | Hin].
    + destruct (Qgeb _ minp) eqn:Hge in Hin; [|inversion Hin].
      apply list_elem_of_singleton in Hin as ->. apply Qgeb_true in Hge.
      exists A, B, mA, mB, pm_yes_kalshi_no, yesA, noB.
      rewrite HA, HB. cbn [legs_of head]. rewrite H1, H4.
      repeat split; [by left | exact Hge].
    + destruct (Qgeb _ minp) eqn:Hge in Hin; [|inversion Hin].
      apply list_elem_of_singleton in Hin as ->. apply Qgeb_true in Hge.
      exists A, B, mA, mB, pm_no_kalshi_yes, noA, yesB.
      rewrite HA, HB. cbn [legs_of head]. rewrite H2, H3.
      repeat split; [by left | exact Hge].
  - destruct (IH Hin) as (A' & B' & mA & mB & d & a & b & Hp & Hrest).
    exists A', B', mA, mB, d, a, b. split; [by right | exact Hrest].
Qed.

(** X6.  An opportunity of the result belongs to one of the matched pairs
    and to the first market of each of its two events, quotes the prices
    of these markets for its direction, has the float sum of the two
    prices as raw cost, pays out 1, has a profit of
    [1 - total_cost_with_fees], rounded, and a [profit_pct] of at least
    [min_profit_pct]. *)
Theorem emitted_opportunities_are_sound ms pmc kc minp o :
  o ∈ find_arbitrage_opportunities ms pmc kc minp →
  (pm_event o, kalshi_event o) ∈ ms
  ∧ head (markets (pm_event o)) = Some (pm_market o)
  ∧ head (markets (kalshi_event o)) = Some (kalshi_market o)
  ∧ legs_of (direction o) (pm_market o) (kalshi_market o)
    = (Some (pm_price o), Some (kalshi_price o))
  ∧ total_cost o = fadd (pm_price o) (kalshi_price o)
  ∧ payout o = 1
  ∧ profit o = fsub 1 (total_cost_with_fees o)
  ∧ minp <= profit_pct o.
Proof.
  intros Hin.
  destruct (emitted_is_scenario _ _ _ _ _ Hin)
    as (A & B & mA & mB & d & a & b & Hp & HA & HB & Hlegs & -> & Hmin).
  cbn in *. by repeat split.
Qed.

(** X7.  With fee rates and prices that are not negative, the prices
    being floats, the cost with fees of an opportunity is never below its
    raw cost. *)
Theorem fees_never_lower_the_cost ms pmc kc minp o :
  o ∈ find_arbitrage_opportunities ms pmc kc minp →
  0 <= @get_fee_rate pmc → 0 <= @get_fee_rate kc →
  0 <= pm_price o → 0 <= kalshi_price o →
  is_float (pm_price o) → is_float (kalshi_price o) →
  total_cost o <= total_cost_with_fees o.
Proof.
  intros Hin.
  destruct (emitted_is_scenario _ _ _ _ _ Hin)
    as (A & B & mA & mB & d & a & b & _ & _ & _ & _ & -> & _).
  cbn. unfold cost_with_fees. intros HfA HfB Ha Hb Hfa Hfb.
  apply fl_mono.
  pose proof (fmul_ge_l a (fadd 1 (@get_fee_rate pmc)) Hfa Ha
                ltac:(apply fl_ge_1; lra)).
  pose proof (fmul_ge_l b (fadd 1 (@get_fee_rate kc)) Hfb Hb
                ltac:(apply fl_ge_1; lra)).
  lra.
Qed.

(** A [profit_pct] that is positive comes from a cost with fees strictly
    between 0 and 1, and from a positive profit. *)
Lemma profit_pct_of_pos c :
  0 < profit_pct_of c → 0 < c ∧ c < 1 ∧ 0 < profit_of c.
Proof.
  unfold profit_pct_of. destruct (Qgtb c 0) eqn:Hc; [|lra].
  apply Qgtb_true in Hc. intros Hpos.
  unfold fmul, fdiv in Hpos. apply fl_pos_inv in Hpos.
  assert (Hq : 0 < fl (profit_of c / c)) by lra.
  apply fl_pos_inv in Hq.
  assert (Hp : 0 < profit_of c).
  { assert (Heq : profit_of c == profit_of c / c * c) by (field; lra).
    rewrite Heq. by apply Qmult_lt_0_compat. }
  split; [exact Hc|]. split; [|exact Hp].
  unfold profit_of, fsub in Hp. apply fl_pos_inv in Hp. lra.
Qed.

(** X8.  Under a positive threshold every opportunity of the result is a
    real one: its cost with fees is strictly between 0 and 1, and its
    profit is positive. *)
Theorem positive_threshold_means_profit ms pmc kc minp o :
  0 < minp →
  o ∈ find_arbitrage_opportunities ms pmc kc minp →
  0 < total_cost_with_fees o ∧ total_cost_with_fees o < 1 ∧ 0 < profit o.
Proof.
  intros Hpos Hin.
  destruct (emitted_is_scenario _ _ _ _ _ Hin)
    as (A & B & mA & mB & d & a & b & _ & _ & _ & _ & -> & Hmin).
  cbn in *. apply profit_pct_of_pos. lra.
Qed.

(** X9.  A pair gives at most the two directions, the first before the
    second, so that the result has at most twice as many opportunities as
    there are pairs. *)
Theorem at_most_two_per_pair ms pmc kc minp :
  (∀ feeA feeB p,
     direction <$> detect_pair feeA feeB minp p
     `sublist_of` [pm_yes_kalshi_no; pm_no_kalshi_yes])
  ∧ (length (find_arbitrage_opportunities ms pmc kc minp)
     ≤ 2 * length ms)%nat.
Proof.
  assert (Hdirs : ∀ feeA feeB p,
            direction <$> detect_pair feeA feeB minp p
            `sublist_of` [pm_yes_kalshi_no; pm_no_kalshi_yes]).
  { intros feeA feeB [A B]. unfold detect_pair.
    destruct (markets A) as [|mA ?]; [apply sublist_nil_l|].
    destruct (markets B) as [|mB ?]; [apply sublist_nil_l|].
    destruct (yes_price mA), (no_price mA), (yes_price mB), (no_price mB);
      try apply sublist_nil_l.
    do 2 destruct (Qgeb _ minp); cbn.
    - done.
    - apply sublist_skip, sublist_nil_l.
    - apply sublist_cons, sublist_skip, sublist_nil_l.
    - apply sublist_nil_l. }
  split; [exact Hdirs|].
  induction ms as [|p rest IH]; cbn [find_arbitrage_opportunities]; [done|].
  rewrite length_app. cbn [length].
  pose proof (sublist_length _ _
                (Hdirs (@get_fee_rate pmc) (@get_fee_rate kc) p)) as Hlen.
  rewrite length_fmap in Hlen. cbn in Hlen. lia.
Qed.

(** X10.  When on each platform the YES and NO prices of the first
    market, floats that are not negative, add up to at least 1, under fee
    rates that are not negative and a positive threshold, a pair never
    gives both directions. *)
Theorem complementary_quotes_give_one_direction feeA feeB minp A B
    mA mB yesA noA yesB noB :
  head (markets A) = Some mA → head (markets B) = Some mB →
  yes_price mA = Some yesA → no_price mA = Some noA →
  yes_price mB = Some yesB → no_price mB = Some noB →
  0 <= yesA → 0 <= noA → 0 <= yesB → 0 <= noB →
  is_float yesA → is_float noA → is_float yesB → is_float noB →
  1 <= yesA + noA → 1 <= yesB + noB →
  0 <= feeA → 0 <= feeB → 0 < minp →
  (length (detect_pair feeA feeB minp (A, B)) ≤ 1)%nat.
Proof.
  intros HA HB H1 H2 H3 H4 HyA HnA HyB HnB FyA FnA FyB FnB HsA HsB
    HfA HfB Hmin.
  apply head_cons in HA as [restA HA]. apply head_cons in HB as [restB HB].
  rewrite (detect_pair_priced _ _ _ _ _ _ _ _ _ _ _ _ _ HA HB H1 H2 H3 H4).
  destruct (Qgeb (profit_pct_of (cost_with_fees yesA noB feeA feeB)) minp)
    eqn:Hd1;
    destruct (Qgeb (profit_pct_of (cost_with_fees noA yesB feeA feeB)) minp)
      eqn:Hd2; cbn; try lia.
  exfalso. apply Qgeb_true in Hd1, Hd2.
  destruct (profit_pct_of_pos (cost_with_fees yesA noB feeA feeB))
    as (_ & Hc1 & _); [lra|].
  destruct (profit_pct_of_pos (cost_with_fees noA yesB feeA feeB))
    as (_ & Hc2 & _); [lra|].
  unfold cost_with_fees in Hc1, Hc2.
  assert (HuA : 1 <= fadd 1 feeA) by (apply fl_ge_1; lra).
  assert (HuB : 1 <= fadd 1 feeB) by (apply fl_ge_1; lra).
  pose proof (fmul_ge_l yesA _ FyA HyA HuA).
  pose proof (fmul_ge_l noA _ FnA HnA HuA).
  pose proof (fmul_ge_l yesB _ FyB HyB HuB).
  pose proof (fmul_ge_l noB _ FnB HnB HuB).
  destruct (Qlt_le_dec (yesA + noB) 1) as [Hlt | Hge].
  - assert (Hle : 1 <= fmul noA (fadd 1 feeA) + fmul yesB (fadd 1 feeB))
      by lra.
    apply fl_ge_1 in Hle. unfold fadd in Hc2 at 1. lra.
  - assert (Hle : 1 <= fmul yesA (fadd 1 feeA) + fmul noB (fadd 1 feeB))
      by lra.
    apply fl_ge_1 in Hle. unfold fadd in Hc1 at 1. lra.
Qed.

End ArbitrageMore.

Lemma sample_opp_emitted :
  sample_opp
  ∈ Arbitrage.find_arbitrage_opportunities
      [(Samples.pm_btc, Samples.mf_btc_a)]
      PolymarketClient ManifoldPlatformClient 0.5%Q.
Proof.
  assert (Heq : Arbitrage.find_arbitrage_opportunities
                  [(Samples.pm_btc, Samples.mf_btc_a)]
                  PolymarketClient ManifoldPlatformClient 0.5%Q
                = [sample_opp]) by (vm_compute; reflexivity).
  rewrite Heq. apply list_elem_of_here.
Defined.

Lemma emitted_opportunities_are_sound_witness :
  (Arbitrage.pm_event sample_opp, Arbitrage.kalshi_event sample_opp)
  ∈ [(Samples.pm_btc, Samples.mf_btc_a)]
  ∧ (0.5 <= Arbitrage.profit_pct sample_opp)%Q.
Proof.
  destruct (emitted_opportunities_are_sound
              [(Samples.pm_btc, Samples.mf_btc_a)] PolymarketClient
              ManifoldPlatformClient 0.5%Q sample_opp sample_opp_emitted)
    as (Hp & _ & _ & _ & _ & _ & _ & Hmin).
  split; [exact Hp | exact Hmin].
Defined.

Lemma fees_never_lower_the_cost_witness :
  (Arbitrage.total_cost sample_opp
   <= Arbitrage.total_cost_with_fees sample_opp)%Q.
Proof.
  apply (fees_never_lower_the_cost
           [(Samples.pm_btc, Samples.mf_btc_a)] PolymarketClient
           ManifoldPlatformClient 0.5%Q sample_opp sample_opp_emitted);
    by vm_compute.
Defined.

Lemma positive_threshold_means_profit_witness :
  (0 < Arbitrage.total_cost_with_fees sample_opp)%Q
  ∧ (Arbitrage.total_cost_with_fees sample_opp < 1)%Q
  ∧ (0 < Arbitrage.profit sample_opp)%Q.
Proof.
  apply (positive_threshold_means_profit
           [(Samples.pm_btc, Samples.mf_btc_a)] PolymarketClient
           ManifoldPlatformClient 0.5%Q sample_opp);
    [reflexivity | exact sample_opp_emitted].
Defined.

Lemma complementary_quotes_give_one_direction_witness :
  (length (Arbitrage.detect_pair 0.002 0 0.5
             (Samples.pm_btc, Samples.mf_btc_a)) ≤ 1)%nat.
Proof.
  eapply (complementary_quotes_give_one_direction 0.002 0 0.5
            Samples.pm_btc Samples.mf_btc_a);
    try reflexivity; by vm_compute.
Defined.

(** ** The stats aggregator: round trip, totals and failures *)

Section StatsMore.
Import Arbitrage StatsWriter.

Lemma scan_recorded_fields c sc :
  scan_recorded c = Some sc →
  timestamp sc = now_iso c
  ∧ opportunities_count sc = arg_opportunities_count c
  ∧ alerts_sent sc = arg_alerts_sent c
  ∧ map_result summarize (arg_opportunities c) = Return (opportunities sc)
  ∧ pm_sample sc = if_nonempty 5 sample_of (pm_sample_events c)
  ∧ manifold_sample sc = if_nonempty 5 sample_of (manifold_sample_events c)
  ∧ matched_details sc = if_nonempty 10 detail_of (matched_pairs c).
Proof.
  unfold scan_recorded, current_scan_of.
  destruct (map_result summarize (arg_opportunities c)) as [opps|];
    cbn; [|discriminate].
  intros [= <-]. by repeat split.
Qed.

Lemma scan_recorded_counts c sc :
  scan_recorded c = Some sc →
  pm_events sc = pm_events_count c
  ∧ manifold_events sc = manifold_events_count c
  ∧ matched sc = matched_count c.
Proof.
  unfold scan_recorded, current_scan_of.
  destruct (map_result summarize (arg_opportunities c)) as [opps|];
    cbn; [|discriminate].
  intros [= <-]. by repeat split.
Qed.

(** X11.  Round trip: the store read back after a call that records has
    the new record both as [last_scan] and as the last entry of the
    history. *)
Theorem recorded_scan_is_read_back file c stats sc :
  load file = Return stats → scan_recorded c = Some sc →
  ∃ stats', get_stats (write_scan_stats file c) = Some stats'
    ∧ last_scan stats' = Some sc
    ∧ last (scan_history stats') = Some sc.
Proof.
  intros Hload Hsc. exists (update_stats stats sc c).
  rewrite (write_scan_stats_recorded _ _ _ _ Hload Hsc).
  split; [reflexivity|]. split; [reflexivity|].
  rewrite update_stats_history. unfold last_n.
  rewrite length_app. cbn [length].
  rewrite drop_app_le by lia. apply last_snoc.
Qed.

Lemma write_scan_stats_load file c stats :
  load file = Return stats →
  ∃ stats', load (write_scan_stats file c) = Return stats'
    ∧ match scan_recorded c with
      | Some sc => write_scan_stats file c = Stored (update_stats stats sc c)
                   ∧ stats' = update_stats stats sc c
      | None => write_scan_stats file c = file ∧ stats' = stats
      end.
Proof.
  intros Hload. destruct (scan_recorded c) as [sc|] eqn:Hsc.
  - exists (update_stats stats sc c).
    by rewrite (write_scan_stats_recorded _ _ _ _ Hload Hsc).
  - exists stats. by rewrite (write_scan_stats_dropped _ _ Hsc).
Qed.

Lemma total_in_load f file stats :
  f empty_stats = 0 → load file = Return stats → total_in f file = f stats.
Proof.
  intros Hf. unfold total_in. destruct file; cbn; intros [= <-]; done.
Qed.

(** X12.  From store creation, [total_opportunities] and [total_alerts]
    are the sums of the counts of the records made so far, however long
    the history. *)
Theorem totals_accumulate calls :
  total_in total_opportunities (record_all Absent calls)
  = sum_Z (opportunities_count <$> recorded calls)
  ∧ total_in total_alerts (record_all Absent calls)
    = sum_Z (alerts_sent <$> recorded calls).
Proof.
  assert (Hgen : ∀ file stats,
            load file = Return stats →
            total_in total_opportunities (record_all file calls)
            = total_opportunities stats
              + sum_Z (opportunities_count <$> recorded calls)
            ∧ total_in total_alerts (record_all file calls)
              = total_alerts stats + sum_Z (alerts_sent <$> recorded calls)).
  { unfold record_all, recorded.
    induction calls as [|c rest IH]; intros file stats Hload.
    - cbn. rewrite !(total_in_load _ _ _ eq_refl Hload). lia.
    - cbn [fold_left omap list_omap].
      destruct (write_scan_stats_load file c stats Hload)
        as (stats' & Hload' & Hcase).
      destruct (IH _ _ Hload') as [IH1 IH2]. rewrite IH1, IH2.
      destruct (scan_recorded c) as [sc|] eqn:Hsc.
      + destruct Hcase as [_ ->].
        destruct (scan_recorded_fields _ _ Hsc) as (_ & Ho & Ha & _).
        cbn. rewrite Ho, Ha. unfold sum_Z. split; lia.
      + destruct Hcase as [_ ->]. done. }
  destruct (Hgen Absent empty_stats eq_refl) as [H1 H2].
  rewrite H1, H2. cbn. split; lia.
Qed.

(** X13.  Once the file cannot be loaded, no later call records
    anything: the file stays as it is and there is nothing to read. *)
Theorem unreadable_file_never_recovers calls :
  record_all Unreadable calls = Unreadable
  ∧ get_stats (record_all Unreadable calls) = None.
Proof.
  assert (H : record_all Unreadable calls = Unreadable).
  { unfold record_all. induction calls as [|c rest IH]; [done | exact IH]. }
  by rewrite H.
Qed.

Lemma map_result_Return {X Y} (f : X → result Y) l :
  (∀ x, x ∈ l → ∃ y, f x = Return y) → ∃ ys, map_result f l = Return ys.
Proof.
  induction l as [|x l IH]; intros Hall; cbn; [by eexists|].
  destruct (Hall x) as [y ->]; [by left|].
  destruct IH as [ys ->]; [intros x' Hx'; apply Hall; by right|].
  cbn. by eexists.
Qed.

Lemma map_result_Raise {X Y} (f : X → result Y) l x msg :
  x ∈ l → f x = Raise msg → ∃ msg', map_result f l = Raise msg'.
Proof.
  induction l as [|x' l IH]; intros Hin Hx; [inversion Hin|].
  cbn. apply elem_of_cons in Hin as [<- | Hin].
  - rewrite Hx. cbn. by eexists.
  - destruct (f x'); cbn; [|by eexists].
    destruct (IH Hin Hx) as [msg' ->]. cbn. by eexists.
Qed.

Lemma map_result_length {X Y} (f : X → result Y) l ys :
  map_result f l = Return ys →
  length ys = length l ∧ ∀ y, y ∈ ys → ∃ x, x ∈ l ∧ f x = Return y.
Proof.
  revert ys. induction l as [|x l IH]; intros ys; cbn.
  - intros [= <-]. split; [done|]. intros y Hy. inversion Hy.
  - destruct (f x) as [y0|] eqn:Hx; cbn; [|discriminate].
    destruct (map_result f l) as [ys0|]; cbn; [|discriminate].
    intros [= <-]. destruct (IH ys0 eq_refl) as [Hlen Hall].
    split; [cbn; lia|]. intros y Hy.
    apply elem_of_cons in Hy as [-> | Hy].
    + exists x. split; [by left | done].
    + destruct (Hall y Hy) as (x' & Hx' & Hfx'). exists x'.
      split; [by right | done].
Qed.

Lemma detected_scan_recorded ms pmc kc minp c :
  arg_opportunities c = find_arbitrage_opportunities ms pmc kc minp →
  ∃ sc, scan_recorded c = Some sc
    ∧ length (opportunities sc)
      = length (find_arbitrage_opportunities ms pmc kc minp).
Proof.
  intros Hopps.
  destruct (map_result_Return summarize (arg_opportunities c)) as [ss Hss].
  { intros o Ho. rewrite Hopps in Ho.
    destruct (emitted_is_scenario _ _ _ _ _ Ho)
      as (A & B & mA & mB & d & a & b & _ & HA & HB & _ & -> & _).
    apply head_cons in HA as [restA HA]. apply head_cons in HB as [restB HB].
    unfold summarize. cbn. rewrite HA, HB. by eexists. }
  assert (Hsc : ∃ sc, scan_recorded c = Some sc ∧ opportunities sc = ss).
  { unfold scan_recorded, current_scan_of. rewrite Hss. cbn. by eexists. }
  destruct Hsc as (sc & Hsc & Hopp). exists sc. split; [exact Hsc|].
  rewrite Hopp, <- Hopps. by apply map_result_length in Hss as [-> _].
Qed.

(** X14.  The opportunities that the detector returns can always be
    summarised: reported to the aggregator on a file that is missing or
    loadable, they are recorded, whatever the other arguments. *)
Theorem detected_opportunities_are_recorded ms pmc kc minp c file stats :
  arg_opportunities c = find_arbitrage_opportunities ms pmc kc minp →
  load file = Return stats →
  ∃ sc, scan_recorded c = Some sc
    ∧ write_scan_stats file c = Stored (update_stats stats sc c)
    ∧ length (opportunities sc)
      = length (find_arbitrage_opportunities ms pmc kc minp).
Proof.
  intros Hopps Hload.
  destruct (detected_scan_recorded _ _ _ _ _ Hopps) as (sc & Hsc & Hlen).
  exists sc. split; [exact Hsc|].
  split; [by apply write_scan_stats_recorded | exact Hlen].
Qed.

(** X15.  One opportunity whose Polymarket or Manifold event has no
    market makes the whole call fail inside its [try]: nothing of the
    cycle is stored and the file is as before. *)
Theorem opportunity_without_market_drops_the_record file c o :
  o ∈ arg_opportunities c →
  markets (pm_event o) = [] ∨ markets (kalshi_event o) = [] →
  scan_recorded c = None ∧ write_scan_stats file c = file.
Proof.
  intros Ho Hempty.
  assert (Hraise : ∃ msg, summarize o = Raise msg).
  { unfold summarize. destruct Hempty as [-> | ->]; [by eexists|].
    destruct (markets (pm_event o)); by eexists. }
  destruct Hraise as [msg Hraise].
  destruct (map_result_Raise _ _ _ _ Ho Hraise) as [msg' Hall].
  assert (Hnone : scan_recorded c = None).
  { unfold scan_recorded, current_scan_of. by rewrite Hall. }
  split; [exact Hnone | by apply write_scan_stats_dropped].
Qed.

Lemma length_str_take n s : (String.length (str_take n s) ≤ n)%nat.
Proof.
  unfold str_take. revert s.
  induction n as [|n IH]; intros [|ch s]; cbn; try lia.
  specialize (IH s). lia.
Qed.

Lemma if_nonempty_length {X Y} n (f : X → Y) xs l :
  if_nonempty n f xs = Some l → (0 < length l ≤ n)%nat ∨ (n = 0%nat ∧ l = []).
Proof.
  destruct xs as [[|x xs]|]; cbn; try discriminate. intros [= <-].
  destruct n as [|n]; [by right|]. left.
  cbn. rewrite length_fmap, length_take. lia.
Qed.

(** X16.  What a record keeps of a cycle is bounded: at most 5 sample
    events for each platform and 10 matched pairs, never an empty list,
    one summary for each opportunity, and titles cut to 60 characters. *)
Theorem record_previews_are_bounded c sc :
  scan_recorded c = Some sc →
  (∀ l, pm_sample sc = Some l → (0 < length l ≤ 5)%nat)
  ∧ (∀ l, manifold_sample sc = Some l → (0 < length l ≤ 5)%nat)
  ∧ (∀ l, matched_details sc = Some l → (0 < length l ≤ 10)%nat)
  ∧ length (opportunities sc) = length (arg_opportunities c)
  ∧ (∀ s, s ∈ opportunities sc →
       (String.length (summary_title s) ≤ 60)%nat).
Proof.
  intros Hsc.
  destruct (scan_recorded_fields _ _ Hsc)
    as (_ & _ & _ & Hopps & Hpm & Hmf & Hmd).
  split; [|split; [|split; [|split]]].
  - intros l Hl. rewrite Hpm in Hl.
    apply if_nonempty_length in Hl as [H | [H _]]; [exact H | discriminate].
  - intros l Hl. rewrite Hmf in Hl.
    apply if_nonempty_length in Hl as [H | [H _]]; [exact H | discriminate].
  - intros l Hl. rewrite Hmd in Hl.
    apply if_nonempty_length in Hl as [H | [H _]]; [exact H | discriminate].
  - by apply map_result_length in Hopps as [-> _].
  - intros s Hs. apply map_result_length in Hopps as [_ Hall].
    destruct (Hall s Hs) as (o & _ & Ho). unfold summarize in Ho.
    destruct (markets (pm_event o)); [discriminate|].
    destruct (markets (kalshi_event o)); [discriminate|].
    injection Ho as <-. apply length_str_take.
Qed.

(** A call never lowers the stored best. *)
Lemma write_scan_stats_keeps_cover file c q :
  best_covers file q → best_covers (write_scan_stats file c) q.
Proof.
  intros (stats & b & Hget & Hb & Hq).
  destruct file as [| |stats0]; cbn in Hget; try discriminate.
  injection Hget as ->.
  destruct (scan_recorded c) as [sc|] eqn:Hsc.
  - rewrite (write_scan_stats_recorded (Stored stats) _ stats _ eq_refl Hsc).
    destruct (track_best_spec (best_opportunity stats) (arg_opportunities c)
                sc) as [[_ Hkeep] | (best & _ & _ & Hcase)].
    + exists (update_stats stats sc c), b. cbn. rewrite Hkeep. done.
    + rewrite Hb in Hcase. destruct Hcase as [[Hlt Hnew] | [_ Hold]].
      * exists (update_stats stats sc c), (new_best best sc).
        cbn. rewrite Hb, Hnew. split; [done|]. split; [done|]. lra.
      * exists (update_stats stats sc c), b. cbn. rewrite Hb, Hold. done.
  - rewrite (write_scan_stats_dropped _ _ Hsc). by exists stats, b.
Qed.

(** A call that records brings the stored best up to every opportunity of
    its cycle. *)
Lemma write_scan_stats_covers_cycle file c stats sc o :
  load file = Return stats → scan_recorded c = Some sc →
  o ∈ arg_opportunities c →
  best_covers (write_scan_stats file c) (profit_pct o).
Proof.
  intros Hload Hsc Ho.
  rewrite (write_scan_stats_recorded _ _ _ _ Hload Hsc).
  destruct (track_best_spec (best_opportunity stats) (arg_opportunities c)
              sc) as [[Hnil _] | (best & _ & Hmax & Hcase)].
  { rewrite Hnil in Ho. inversion Ho. }
  pose proof (Hmax o Ho) as Hle.
  destruct (best_opportunity stats) as [b|] eqn:Hb.
  - destruct Hcase as [[_ Hnew] | [Hlow Hold]].
    + exists (update_stats stats sc c), (new_best best sc).
      cbn. rewrite Hb, Hnew. done.
    + exists (update_stats stats sc c), b.
      cbn. rewrite Hb, Hold. split; [done|]. split; [done|]. lra.
  - exists (update_stats stats sc c), (new_best best sc).
    cbn. rewrite Hb, Hcase. done.
Qed.

(** X17.  From store creation, the stored [best_opportunity] has a
    [profit_pct] at least as high as that of every opportunity of every
    cycle recorded so far. *)
Theorem best_opportunity_is_the_highest_ever calls c o :
  c ∈ calls → is_Some (scan_recorded c) → o ∈ arg_opportunities c →
  best_covers (record_all Absent calls) (profit_pct o).
Proof.
  intros Hc [sc Hsc] Ho.
  assert (Hkeep : ∀ rest file q,
            best_covers file q → best_covers (record_all file rest) q).
  { unfold record_all. induction rest as [|c' rest IH]; intros file q Hq;
      [exact Hq|].
    cbn. by apply IH, write_scan_stats_keeps_cover. }
  assert (Hgen : ∀ file stats, load file = Return stats →
            best_covers (record_all file calls) (profit_pct o)).
  { unfold record_all in *.
    induction calls as [|c' rest IH]; intros file stats Hload;
      [inversion Hc|].
    cbn. apply elem_of_cons in Hc as [<- | Hc].
    - apply Hkeep. by eapply write_scan_stats_covers_cycle.
    - destruct (write_scan_stats_load file c' stats Hload)
        as (stats' & Hload' & _).
      by eapply IH. }
  by eapply (Hgen Absent).
Qed.

End StatsMore.

Lemma recorded_scan_is_read_back_witness :
  ∃ stats sc,
    StatsWriter.get_stats
      (StatsWriter.write_scan_stats Samples.file_after_one Samples.later_call)
    = Some stats
    ∧ StatsWriter.last_scan stats = Some sc
    ∧ last (StatsWriter.scan_history stats) = Some sc
    ∧ StatsWriter.timestamp sc = "2026-01-01T00:01:00+00:00".
Proof.
  edestruct (recorded_scan_is_read_back Samples.file_after_one
               Samples.later_call) as (stats & Hget & Hlast & Hhist);
    [vm_compute; reflexivity | vm_compute; reflexivity |].
  eexists stats, _. split; [exact Hget|]. split; [exact Hlast|].
  split; [exact Hhist | reflexivity].
Defined.

Lemma detected_opportunities_are_recorded_witness :
  ∃ sc, StatsWriter.scan_recorded Samples.sample_call = Some sc
    ∧ length (StatsWriter.opportunities sc) = 1%nat.
Proof.
  edestruct (detected_opportunities_are_recorded
               [(Samples.pm_btc, Samples.mf_btc_a)]
               PolymarketClient ManifoldPlatformClient 0.5%Q
               Samples.sample_call StatsWriter.Absent)
    as (sc & Hsc & _ & Hlen); [reflexivity | reflexivity |].
  exists sc. split; [exact Hsc | exact Hlen].
Defined.

Lemma opportunity_without_market_drops_the_record_witness :
  StatsWriter.write_scan_stats Samples.file_after_one marketless_call
  = Samples.file_after_one.
Proof.
  apply (opportunity_without_market_drops_the_record
           Samples.file_after_one marketless_call marketless_opp).
  - apply list_elem_of_further, list_elem_of_here.
  - right. reflexivity.
Defined.

Lemma record_previews_are_bounded_witness :
  ∃ sc, StatsWriter.scan_recorded Samples.sample_call = Some sc
    ∧ ∀ l, StatsWriter.manifold_sample sc = Some l → (0 < length l ≤ 5)%nat.
Proof.
  eexists. split; [vm_compute; reflexivity|].
  eapply (proj1 (proj2 (record_previews_are_bounded Samples.sample_call _ _))).
  Unshelve. vm_compute. reflexivity.
Defined.

Lemma best_opportunity_is_the_highest_ever_witness :
  best_covers
    (StatsWriter.record_all StatsWriter.Absent
       [Samples.sample_call; Samples.later_call])
    (Arbitrage.profit_pct sample_opp).
Proof.
  apply (best_opportunity_is_the_highest_ever
           [Samples.sample_call; Samples.later_call] Samples.sample_call).
  - apply list_elem_of_here.
  - eexists. vm_compute. reflexivity.
  - assert (Heq : StatsWriter.arg_opportunities Samples.sample_call
                  = [sample_opp]) by (vm_compute; reflexivity).
    rewrite Heq. apply list_elem_of_here.
Defined.

(** ** The scan loop: the dispatch of a whole cycle *)

Section PaperTraderMore.
Import Arbitrage StatsWriter PaperTrader.

(** What one turn of the loop does to its state. *)
Lemma dispatch_step st opp now :
  let st' :=
    if (dispatch_one (d_last_alerted st) (cooldown_key opp) now).2
    then {| d_last_alerted :=
              (dispatch_one (d_last_alerted st) (cooldown_key opp) now).1;
            d_alerts_sent := d_alerts_sent st + 1;
            d_alerts := d_alerts st ++ [opp] |}
    else st in
  (in_cooldown (d_last_alerted st) (cooldown_key opp) now = true ∧ st' = st)
  ∨ (in_cooldown (d_last_alerted st) (cooldown_key opp) now = false
     ∧ st' = {| d_last_alerted :=
                  <[cooldown_key opp := now]> (d_last_alerted st);
                d_alerts_sent := d_alerts_sent st + 1;
                d_alerts := d_alerts st ++ [opp] |}).
Proof.
  unfold dispatch_one.
  destruct (in_cooldown (d_last_alerted st) (cooldown_key opp) now);
    cbn; [by left | by right].
Qed.

(** The alerts of a loop are appended, in order, and counted. *)
Lemma dispatch_alerts opps clk i st :
  ∃ l, l `sublist_of` opps
    ∧ d_alerts (dispatch opps clk i st) = d_alerts st ++ l
    ∧ d_alerts_sent (dispatch opps clk i st)
      = d_alerts_sent st + Z.of_nat (length l).
Proof.
  revert i st. induction opps as [|opp rest IH]; intros i st.
  { exists []. cbn. rewrite app_nil_r. split; [done|]. split; [done | lia]. }
  rewrite dispatch_cons.
  destruct (dispatch_step st opp (clk i)) as [[_ ->] | [_ ->]].
  - destruct (IH (S i) st) as (l & Hsub & Hal & Hn).
    exists l. split; [by apply sublist_cons | done].
  - destruct (IH (S i)
                {| d_last_alerted :=
                     <[cooldown_key opp := clk i]> (d_last_alerted st);
                   d_alerts_sent := d_alerts_sent st + 1;
                   d_alerts := d_alerts st ++ [opp] |})
      as (l & Hsub & Hal & Hn).
    exists (opp :: l). split; [by apply sublist_skip|].
    rewrite Hal, Hn. cbn. rewrite <- app_assoc. split; [done | lia].
Qed.

(** X18.  The counter that the loop reports is the number of alerts that
    it sent, and these are some of the opportunities, in their order: a
    cycle never alerts more than it detects and never alerts twice on one
    detection. *)
Theorem alerts_sent_counts_the_alerts opps clk la :
  let st := dispatch opps clk O
              {| d_last_alerted := la; d_alerts_sent := 0; d_alerts := [] |} in
  d_alerts st `sublist_of` opps
  ∧ d_alerts_sent st = Z.of_nat (length (d_alerts st))
  ∧ 0 ≤ d_alerts_sent st ≤ Z.of_nat (length opps).
Proof.
  cbn zeta.
  destruct (dispatch_alerts opps clk O
              {| d_last_alerted := la; d_alerts_sent := 0; d_alerts := [] |})
    as (l & Hsub & Hal & Hn).
  cbn in Hal, Hn. rewrite Hal, Hn. split; [exact Hsub|]. split; [lia|].
  apply sublist_length in Hsub. lia.
Qed.

(** X19.  The cooldown map only grows: a loop removes no key, leaves the
    stamp of every key that none of its opportunities has, and writes no
    stamp other than the detection time of one of its opportunities under
    the key of that opportunity. *)
Theorem cooldown_map_only_grows opps clk i st :
  let la := d_last_alerted st in
  let la' := d_last_alerted (dispatch opps clk i st) in
  (∀ key, is_Some (la !! key) → is_Some (la' !! key))
  ∧ (∀ key, (∀ opp, opp ∈ opps → cooldown_key opp ≠ key) →
       la' !! key = la !! key)
  ∧ (∀ key t, la' !! key = Some t →
       la !! key = Some t
       ∨ ∃ j opp, opps !! j = Some opp ∧ cooldown_key opp = key
                  ∧ t = clk (i + j)%nat).
Proof.
  cbn zeta. revert i st. induction opps as [|opp rest IH]; intros i st.
  { cbn. split; [done|]. split; [done | by left]. }
  rewrite dispatch_cons.
  destruct (dispatch_step st opp (clk i)) as [[_ ->] | [_ ->]].
  - destruct (IH (S i) st) as (Hkeep & Hother & Hnew).
    split; [exact Hkeep|]. split.
    + intros key Hkey. apply Hother. intros o Ho. apply Hkey. by right.
    + intros key t Ht. destruct (Hnew key t Ht) as [H | (j & o & Hj & Hk & ->)];
        [by left|].
      right. exists (S j), o. split; [done|]. split; [done|].
      f_equal. lia.
  - destruct (IH (S i)
                {| d_last_alerted :=
                     <[cooldown_key opp := clk i]> (d_last_alerted st);
                   d_alerts_sent := d_alerts_sent st + 1;
                   d_alerts := d_alerts st ++ [opp] |})
      as (Hkeep & Hother & Hnew).
    cbn [d_last_alerted] in *. split; [|split].
    + intros key Hkey. apply Hkeep.
      destruct (decide (cooldown_key opp = key)) as [<- | Hne].
      * rewrite lookup_insert_eq. by eexists.
      * by rewrite lookup_insert_ne.
    + intros key Hkey. rewrite Hother.
      * apply lookup_insert_ne, Hkey. by left.
      * intros o Ho. apply Hkey. by right.
    + intros key t Ht.
      destruct (Hnew key t Ht) as [H | (j & o & Hj & Hk & ->)].
      * destruct (decide (cooldown_key opp = key)) as [<- | Hne].
        -- rewrite lookup_insert_eq in H. injection H as <-.
           right. exists O, opp. split; [done|]. split; [done|].
           f_equal. lia.
        -- rewrite lookup_insert_ne in H by done. by left.
      * right. exists (S j), o. split; [done|]. split; [done|].
        f_equal. lia.
Qed.

Lemma dispatch_alerts_grow opps clk i st o :
  o ∈ d_alerts st → o ∈ d_alerts (dispatch opps clk i st).
Proof.
  intros Ho. destruct (dispatch_alerts opps clk i st) as (l & _ & -> & _).
  apply elem_of_app. by left.
Qed.

(** X20.  A key that stays within its cooldown window during a whole
    cycle is not alerted in that cycle, by any of the opportunities, and
    keeps its stamp. *)
Theorem key_in_cooldown_stays_silent opps clk i st key T :
  d_last_alerted st !! key = Some T →
  (∀ j, (clk j - T < inject_Z ALERT_COOLDOWN_SECONDS)%Q) →
  d_last_alerted (dispatch opps clk i st) !! key = Some T
  ∧ ∀ opp, opp ∈ d_alerts (dispatch opps clk i st) →
      opp ∈ d_alerts st ∨ cooldown_key opp ≠ key.
Proof.
  intros HT Hclk. revert i st HT.
  induction opps as [|opp rest IH]; intros i st HT.
  { cbn. split; [exact HT | by left]. }
  rewrite dispatch_cons.
  destruct (dispatch_step st opp (clk i)) as [[_ ->] | [Hout ->]].
  - by apply IH.
  - assert (Hne : cooldown_key opp ≠ key).
    { intros Heq. apply in_cooldown_false in Hout.
      rewrite Heq, HT in Hout. cbn in Hout. specialize (Hclk i). lra. }
    destruct (IH (S i)
                {| d_last_alerted :=
                     <[cooldown_key opp := clk i]> (d_last_alerted st);
                   d_alerts_sent := d_alerts_sent st + 1;
                   d_alerts := d_alerts st ++ [opp] |})
      as [Hstamp Hsilent].
    { cbn [d_last_alerted]. rewrite lookup_insert_ne by done. exact HT. }
    split; [exact Hstamp|]. intros o Ho.
    destruct (Hsilent o Ho) as [Hold | Hkey]; [|by right].
    cbn [d_alerts] in Hold. apply elem_of_app in Hold as [Hold | Hold].
    + by left.
    + apply list_elem_of_singleton in Hold as ->. by right.
Qed.

(** X21.  An opportunity whose key is out of cooldown when it is
    detected, and is not the key of an earlier opportunity of the same
    loop, is alerted. *)
Theorem detection_out_of_cooldown_alerts opps clk i st j opp :
  opps !! j = Some opp →
  (∀ j' o, (j' < j)%nat → opps !! j' = Some o →
           cooldown_key o ≠ cooldown_key opp) →
  (inject_Z ALERT_COOLDOWN_SECONDS
   <= clk (i + j)%nat
      - default 0%Q (d_last_alerted st !! cooldown_key opp))%Q →
  opp ∈ d_alerts (dispatch opps clk i st).
Proof.
  revert i st j. induction opps as [|o0 rest IH]; intros i st j Hj Hfirst Hout;
    [done|].
  rewrite dispatch_cons. destruct j as [|j]; cbn in Hj.
  - injection Hj as ->. replace (i + 0)%nat with i in Hout by lia.
    apply in_cooldown_false in Hout.
    destruct (dispatch_step st opp (clk i)) as [[Hin _] | [_ ->]];
      [congruence|].
    apply dispatch_alerts_grow. cbn. apply elem_of_app. right.
    by apply list_elem_of_here.
  - assert (Hne : cooldown_key o0 ≠ cooldown_key opp).
    { apply (Hfirst O); [lia | done]. }
    replace (i + S j)%nat with (S i + j)%nat in Hout by lia.
    destruct (dispatch_step st o0 (clk i)) as [[_ ->] | [_ ->]].
    + apply (IH (S i) st j); [done | | done].
      intros j' o Hlt Ho. apply (Hfirst (S j')); [lia | done].
    + apply (IH (S i) _ j); [done | |].
      * intros j' o Hlt Ho. apply (Hfirst (S j')); [lia | done].
      * cbn [d_last_alerted]. by rewrite lookup_insert_ne.
Qed.

Lemma string_app_assoc (a b c : string) :
  ((a +:+ b) +:+ c = a +:+ (b +:+ c))%string.
Proof.
  induction a as [|ch a IH]; [done|].
  change (String ch ((a +:+ b) +:+ c) = String ch (a +:+ (b +:+ c))).
  by rewrite IH.
Qed.

(** X22.  The two directions of one pair have different cooldown keys: an
    alert for one direction never suppresses the other. *)
Theorem directions_have_separate_cooldowns o1 o2 :
  id (pm_event o1) = id (pm_event o2) →
  id (kalshi_event o1) = id (kalshi_event o2) →
  direction o1 ≠ direction o2 →
  cooldown_key o1 ≠ cooldown_key o2
  ∧ ∀ la now,
      (dispatch_one la (cooldown_key o1) now).1 !! cooldown_key o2
      = la !! cooldown_key o2.
Proof.
  intros HA HB Hdir.
  assert (Hne : cooldown_key o1 ≠ cooldown_key o2).
  { unfold cooldown_key. rewrite HA, HB. intros Heq.
    do 4 apply String.app_inj in Heq.
    destruct (direction o1), (direction o2); done. }
  split; [exact Hne|]. intros la now. unfold dispatch_one.
  destruct (in_cooldown la (cooldown_key o1) now); cbn; [done|].
  by apply lookup_insert_ne.
Qed.

(** X23.  The key is the concatenation of the two identifiers and of the
    direction with underscores: it does not tell an underscore of an
    identifier from a separator, so that two different pairs can share a
    key and a cooldown. *)
Theorem cooldown_key_is_not_injective o1 o2 a b c :
  id (pm_event o1) = (a +:+ "_" +:+ b)%string → id (kalshi_event o1) = c →
  id (pm_event o2) = a → id (kalshi_event o2) = (b +:+ "_" +:+ c)%string →
  direction o1 = direction o2 →
  cooldown_key o1 = cooldown_key o2.
Proof.
  intros H1 H2 H3 H4 Hd. unfold cooldown_key.
  rewrite H1, H2, H3, H4, Hd. by rewrite !string_app_assoc.
Qed.

(** The clients of the scan loop return and raise as the code of
    [platforms/] does on the reply to their request. *)
Lemma polymarket_client_get_events json_loads fromisoformat get_order_book
    cutoff_time reply :
  @get_events PolymarketClient
    (polymarket_outcome json_loads fromisoformat get_order_book cutoff_time
       reply)
  = Polymarket.get_events_raw json_loads fromisoformat get_order_book
      cutoff_time reply.
Proof.
  destruct reply as [events|]; [|reflexivity]. cbn.
  by destruct (Polymarket.normalize_events _ _ _ _ _ _).
Qed.

Lemma manifold_client_get_events fromtimestamp cutoff_time reply :
  @get_events ManifoldPlatformClient
    (manifold_outcome fromtimestamp cutoff_time reply)
  = Manifold.get_events_raw fromtimestamp cutoff_time reply.
Proof.
  destruct reply as [raw|]; [|reflexivity]. cbn.
  by destruct (Manifold.normalize_markets _ _ _).
Qed.

(** An iteration ends in the [except] branch of the loop exactly when
    one of the two calls of [get_events] raises, and then nothing is
    recorded and the state is kept. *)
Lemma raising_client_aborts_cycle ratio lower bot inp msg :
  (@get_events PolymarketClient (pm_response inp) = Raise msg
   ∨ (∃ evs, @get_events PolymarketClient (pm_response inp) = Return evs)
     ∧ @get_events ManifoldPlatformClient (manifold_response inp)
       = Raise msg) →
  scan_cycle ratio lower bot inp = (bot, LoopError msg, 10).
Proof.
  unfold scan_cycle. intros [-> | [[evs ->] ->]]; reflexivity.
Qed.


End PaperTraderMore.

Lemma cooldown_map_only_grows_witness :
  PaperTrader.d_last_alerted
    (PaperTrader.dispatch [sample_opp] (λ _, 1000000%Q) 0 (dispatch_start ∅))
    !! "pm-eth_mf-b_pm_yes_kalshi_no"
  = None.
Proof.
  rewrite (proj1 (proj2 (cooldown_map_only_grows [sample_opp]
                           (λ _, 1000000%Q) 0 (dispatch_start ∅)))
             "pm-eth_mf-b_pm_yes_kalshi_no").
  - apply lookup_empty.
  - intros opp Hopp. apply list_elem_of_singleton in Hopp as ->.
    vm_compute. discriminate.
Defined.

Lemma key_in_cooldown_stays_silent_witness :
  PaperTrader.d_last_alerted
    (PaperTrader.dispatch [sample_opp; sample_opp] (λ _, 1000060%Q) 0
       (dispatch_start {[ Samples.btc_key := 1000000%Q ]}))
    !! Samples.btc_key
  = Some 1000000%Q.
Proof.
  apply (key_in_cooldown_stays_silent [sample_opp; sample_opp]
           (λ _, 1000060%Q) 0
           (dispatch_start {[ Samples.btc_key := 1000000%Q ]})
           Samples.btc_key 1000000%Q).
  - apply lookup_singleton_eq.
  - intros _. reflexivity.
Defined.

Lemma detection_out_of_cooldown_alerts_witness :
  sample_opp
  ∈ PaperTrader.d_alerts
      (PaperTrader.dispatch [sample_opp] (λ _, 1000000%Q) 0
         (dispatch_start ∅)).
Proof.
  apply (detection_out_of_cooldown_alerts [sample_opp] (λ _, 1000000%Q) 0
           (dispatch_start ∅) 0 sample_opp).
  - reflexivity.
  - intros j' o Hlt. lia.
  - cbn [dispatch_start PaperTrader.d_last_alerted].
    rewrite lookup_empty. by vm_compute.
Defined.

Lemma directions_have_separate_cooldowns_witness :
  PaperTrader.cooldown_key sample_opp ≠ PaperTrader.cooldown_key sample_opp_no.
Proof.
  apply (directions_have_separate_cooldowns sample_opp sample_opp_no);
    [reflexivity | reflexivity | discriminate].
Defined.

Lemma cooldown_key_is_not_injective_witness :
  PaperTrader.cooldown_key (underscore_opp "a_b" "c")
  = PaperTrader.cooldown_key (underscore_opp "a" "b_c").
Proof.
  apply (cooldown_key_is_not_injective _ _ "a" "b" "c"); reflexivity.
Defined.


(** ** The Polymarket client: prices read from the order book *)

Section PolymarketPrices.
Import Polymarket.
Local Open Scope Q_scope.

Lemma asks_offered_cons ask rest :
  asks_offered (ask :: rest) →
  (∃ p s, price ask = Some p ∧ size ask = Some s ∧ 0 <= p ∧ 0 <= s)
  ∧ asks_offered rest.
Proof.
  intros Hall. split; [apply Hall; by left|].
  intros a Ha. apply Hall. by right.
Qed.

(** Adding a product of a price and a size that are not negative to a
    float gives at least that float. *)
Lemma fadd_fmul_ge filled p s :
  is_float filled → 0 <= p → 0 <= s → filled <= fadd filled (fmul p s).
Proof.
  intros Hf Hp Hs. unfold fadd. apply Qle_trans with (fl filled).
  { unfold is_float in Hf. rewrite Hf. apply Qle_refl. }
  apply fl_mono.
  assert (0 <= fmul p s) by (apply fl_nonneg, Qmult_le_0_compat; lra).
  lra.
Qed.

(** The dollars counted never decrease along the book. *)
Lemma depth_usd_ge asks filled :
  is_float filled → asks_offered asks → filled <= depth_usd asks filled.
Proof.
  revert filled. induction asks as [|ask rest IH]; intros filled Hf Hall;
    cbn [depth_usd]; [apply Qle_refl|].
  apply asks_offered_cons in Hall as [(p & s & -> & -> & Hp & Hs) Hrest].
  cbn -[fadd fmul depth_usd].
  pose proof (fadd_fmul_ge filled p s Hf Hp Hs).
  pose proof (IH (fadd filled (fmul p s)) (is_float_fl _) Hrest). lra.
Qed.

(** On a book that offers less than the amount the loop ends without
    filling the order. *)
Lemma walk_asks_thin asks amount filled shares :
  is_float filled → asks_offered asks →
  depth_usd asks filled < amount →
  ∃ filled' shares',
    walk_asks asks amount filled shares = Some (filled', shares')
    ∧ filled' < amount.
Proof.
  revert filled shares.
  induction asks as [|ask rest IH]; intros filled shares Hf Hall Hthin.
  { cbn in *. exists filled, shares. by split. }
  apply asks_offered_cons in Hall as [(p & s & Hp & Hs & Hp0 & Hs0) Hrest].
  cbn [depth_usd walk_asks] in Hthin |- *. rewrite Hp, Hs in Hthin |- *.
  cbn -[fadd fmul depth_usd] in Hthin.
  destruct (Qgeb (fadd filled (fmul p s)) amount) eqn:Hge.
  { apply Qgeb_true in Hge.
    pose proof (depth_usd_ge rest _ (is_float_fl (filled + fmul p s)) Hrest)
      as Hdepth.
    fold (fadd filled (fmul p s)) in Hdepth. lra. }
  apply IH; [apply is_float_fl | exact Hrest | exact Hthin].
Qed.

(** X25.  On a book whose asks, at prices and sizes that are not
    negative, offer less than the amount in all, counted as the loop
    counts them (each product and each sum rounded), the impact price is
    the best ask: the price of the first entry. *)
Theorem thin_book_gives_best_ask asks amount :
  asks_offered asks → depth_usd asks 0 < amount →
  _get_impact_price (BookAsks asks) amount = _get_best_ask (BookAsks asks).
Proof.
  intros Hall Hthin. destruct asks as [|best rest]; [done|].
  unfold _get_impact_price.
  destruct (walk_asks_thin (best :: rest) amount 0 0 is_float_0 Hall Hthin)
    as (filled' & shares' & -> & Hlt).
  destruct (Qgeb filled' amount) eqn:Hge; [|done].
  apply Qgeb_true in Hge. lra.
Qed.

End PolymarketPrices.

(** ** The clients: what the normalised events guarantee *)

Section ClientEvents.

Variable json_loads : string → option Polymarket.Json.
Variable fromisoformat : string → Polymarket.IsoDate.
Variable get_order_book : nat → string → Polymarket.Book.
Variable fromtimestamp : Z → Manifold.Stamp.

(** The cutoff of each client, three days after the time of its call. *)
Variable cutoff_time : Z.
Variable manifold_cutoff_time : Z.

(** A market with a YES price always gets a NO price: the one read from
    the book, or the complement of the YES price. *)
Lemma quote_no_price n yes_token no_token :
  let '(yes_price, no_price, _) :=
    Polymarket.quote get_order_book n yes_token no_token in
  is_Some yes_price → is_Some no_price.
Proof.
  unfold Polymarket.quote.
  destruct (Polymarket._get_impact_price (get_order_book n yes_token) _)
    as [yes|].
  - destruct (Polymarket._get_impact_price (get_order_book (S n) no_token) _)
      as [no|]; [by eauto|].
    destruct (Polymarket._get_best_ask _); by eauto.
  - destruct (Polymarket._get_best_ask (get_order_book (S n) yes_token))
      as [yes|].
    + destruct (Polymarket._get_impact_price _ _) as [no|]; [by eauto|].
      destruct (Polymarket._get_best_ask _); by eauto.
    + destruct (Polymarket._get_impact_price _ _) as [no|];
        intros [? [=]].
Qed.

Lemma polymarket_markets_priced n ms m :
  m ∈ (Polymarket.normalize_markets json_loads get_order_book n ms).1 →
  is_Some (yes_price m) ∧ is_Some (no_price m).
Proof.
  revert n. induction ms as [|raw rest IH]; intros n; cbn.
  { intros H. inversion H. }
  destruct (Polymarket._parse_clob_token_ids json_loads _)
    as [[|yes_token [|no_token ?]]|]; try apply IH.
  pose proof (quote_no_price n yes_token no_token) as Hq.
  destruct (Polymarket.quote get_order_book n yes_token no_token)
    as [[yes_p no_p] n'].
  destruct yes_p as [yes|]; [|apply IH].
  destruct (Polymarket.normalize_markets json_loads get_order_book n' rest)
    as [normalized n''] eqn:Hrest.
  cbn. intros Hm. apply elem_of_cons in Hm as [-> | Hm].
  - cbn. split; [by eauto | apply Hq; by eauto].
  - apply (IH n'). by rewrite Hrest.
Qed.

Lemma polymarket_event_spec n raw events e :
  Polymarket.normalize_events json_loads fromisoformat get_order_book
    cutoff_time n raw = Return events →
  e ∈ events →
  end_date e ≤ cutoff_time ∧ platform e = "polymarket" ∧ priced e.
Proof.
  revert events n.
  induction raw as [|event rest IH]; intros events n;
    cbn -[Polymarket.normalize_markets].
  { intros [= <-] H. inversion H. }
  destruct (Polymarket.endDate event) as [end_str|]; [|apply IH].
  destruct (String.eqb end_str ""); [apply IH|].
  destruct (fromisoformat end_str) as [end_dt| |];
    [|discriminate|apply IH].
  destruct (cutoff_time <? end_dt) eqn:Hcut; [apply IH|].
  apply Z.ltb_ge in Hcut.
  destruct (filter _ (Polymarket.raw_markets event)) as [|m ms];
    [apply IH|].
  cbn -[Polymarket.normalize_markets].
  pose proof (polymarket_markets_priced n (m :: ms)) as Hpriced.
  destruct (Polymarket.normalize_markets json_loads get_order_book n
              (m :: ms)) as [normalized n'].
  destruct normalized as [|m0 normalized]; [apply IH|].
  destruct (Polymarket.normalize_events json_loads fromisoformat
              get_order_book cutoff_time n' rest) as [evs|] eqn:Hrest;
    [|discriminate].
  intros [= <-] He. apply elem_of_cons in He as [-> | He].
  - cbn. split; [exact Hcut|]. split; [done|]. split; [done|].
    exact Hpriced.
  - by apply (IH evs n').
Qed.

(** The event that [event_of] returns for a market. *)
Lemma manifold_event_of market close_dt e :
  Manifold.event_of market close_dt = Return e →
  end_date e = close_dt ∧ platform e = "manifold"
  ∧ Manifold.raw_id market = Some (id e)
  ∧ ∃ m yes,
      markets e = [m] ∧ market_id m = id e
      ∧ (Manifold.probability market = Manifold.ProbabilityNumber yes
         ∨ (Manifold.probability market = Manifold.ProbabilityMissing
            ∧ yes = 0.5%Q))
      ∧ yes_price m = Some yes ∧ no_price m = Some (fsub 1 yes).
Proof.
  unfold Manifold.event_of.
  destruct (Manifold.probability market) as [|p|] eqn:Hp;
    [|  |discriminate];
    (destruct (Manifold.raw_id market) as [i|]; [|discriminate]);
    intros [= <-]; cbn; (split; [done|]); (split; [done|]);
    (split; [done|]); eexists _, _; repeat split; eauto.
Qed.

Lemma manifold_event_spec raw events e :
  Manifold.normalize_markets fromtimestamp manifold_cutoff_time raw
  = Return events →
  e ∈ events →
  end_date e ≤ manifold_cutoff_time ∧ platform e = "manifold"
  ∧ (∃ market, market ∈ raw ∧ Manifold.isResolved market = false
       ∧ Manifold.raw_id market = Some (id e))
  ∧ ∃ m yes,
      markets e = [m] ∧ market_id m = id e
      ∧ yes_price m = Some yes ∧ no_price m = Some (fsub 1 yes).
Proof.
  revert events.
  induction raw as [|market rest IH]; intros events; cbn.
  { intros [= <-] H. inversion H. }
  assert (Hskip : ∀ events,
            Manifold.normalize_markets fromtimestamp manifold_cutoff_time rest
            = Return events → e ∈ events →
            end_date e ≤ manifold_cutoff_time ∧ platform e = "manifold"
            ∧ (∃ market0, market0 ∈ market :: rest
                 ∧ Manifold.isResolved market0 = false
                 ∧ Manifold.raw_id market0 = Some (id e))
            ∧ ∃ m yes,
                markets e = [m] ∧ market_id m = id e
                ∧ yes_price m = Some yes ∧ no_price m = Some (fsub 1 yes)).
  { intros evs Hret He.
    destruct (IH evs Hret He) as (H1 & H2 & (m0 & Hm0 & Hres) & H4).
    split; [done|]. split; [done|]. split; [|done].
    exists m0. split; [by right | done]. }
  destruct (Manifold.closeTime market) as [close_time|]; [|apply Hskip].
  destruct (close_time =? 0); [apply Hskip|].
  destruct (fromtimestamp close_time) as [close_dt| |];
    [|apply Hskip|discriminate].
  destruct (manifold_cutoff_time <? close_dt) eqn:Hcut; [apply Hskip|].
  apply Z.ltb_ge in Hcut.
  destruct (Manifold.isResolved market) eqn:Hres; [apply Hskip|].
  destruct (Manifold.event_of market close_dt) as [event|] eqn:Hev;
    [|discriminate].
  destruct (Manifold.normalize_markets fromtimestamp manifold_cutoff_time
              rest) as [evs|]; [|discriminate].
  intros [= <-] He. apply elem_of_cons in He as [-> | He];
    [|by apply (Hskip evs)].
  destruct (manifold_event_of _ _ _ Hev)
    as (Hend & Htag & Hid & m & yes & Hm & Hmid & _ & Hy & Hn).
  split; [by rewrite Hend|]. split; [exact Htag|]. split.
  - exists market. split; [by left | done].
  - by exists m, yes.
Qed.

(** X27.  Every event that the Polymarket client returns resolves by the
    cutoff, is tagged polymarket and has at least one market; each of its
    markets has a YES price and a NO price. *)
Theorem polymarket_events_are_priced response events e :
  Polymarket.get_events_raw json_loads fromisoformat get_order_book
    cutoff_time response = Return events →
  e ∈ events →
  end_date e ≤ cutoff_time ∧ platform e = "polymarket" ∧ priced e.
Proof.
  destruct response as [raw|]; [|discriminate].
  apply polymarket_event_spec.
Qed.

(** X28.  Every event that the Manifold client returns resolves by the
    cutoff and comes from a market that is not resolved and has an
    identifier; it has a single market, which bears that identifier,
    whose YES price is the probability and whose NO price is the float
    [1.0 - probability]: for a probability between 0 and 1, a price
    between 0 and 1 that misses the exact complement by at most [2^-53].
    A failed request gives no event. *)
Theorem manifold_events_are_binary response events e :
  (Manifold.get_events_raw fromtimestamp manifold_cutoff_time None
   = Return [])
  ∧ (Manifold.get_events_raw fromtimestamp manifold_cutoff_time response
     = Return events →
     e ∈ events →
     end_date e ≤ manifold_cutoff_time ∧ platform e = "manifold"
     ∧ (∃ raw market, response = Some raw ∧ market ∈ raw
          ∧ Manifold.isResolved market = false
          ∧ Manifold.raw_id market = Some (id e))
     ∧ ∃ m yes no,
         markets e = [m] ∧ market_id m = id e
         ∧ yes_price m = Some yes ∧ no_price m = Some no
         ∧ no = fsub 1 yes
         ∧ ((0 <= yes)%Q → (yes <= 1)%Q →
            (0 <= no)%Q ∧ (no <= 1)%Q
            ∧ (Qabs (yes + no - 1) <= pow2 (-53))%Q)).
Proof.
  split; [reflexivity|]. destruct response as [raw|]; cbn.
  - intros Hret He.
    destruct (manifold_event_spec raw events e Hret He)
      as (Hend & Htag & (market & Hin & Hres & Hid)
          & m & yes & Hm & Hmid & Hy & Hn).
    split; [exact Hend|]. split; [exact Htag|]. split.
    + by exists raw, market.
    + exists m, yes, (fsub 1 yes). repeat split; try done;
        by apply complement_bounds.
  - intros [= <-] He. inversion He.
Qed.

(** X29.  A pair of an event of the Polymarket client and an event of the
    Manifold client is never skipped by the detector for want of a market
    or of a price: both directions are always evaluated, on the first
    Polymarket market and on the market of the Manifold event, whose NO
    price is the float [1.0 - probability]. *)
Theorem client_pairs_are_never_skipped pm_response mf_response
    pm_events mf_events A B :
  Polymarket.get_events_raw json_loads fromisoformat get_order_book
    cutoff_time pm_response = Return pm_events →
  Manifold.get_events_raw fromtimestamp manifold_cutoff_time mf_response
  = Return mf_events →
  A ∈ pm_events → B ∈ mf_events →
  ∃ mA mB yesA noA yesB noB,
    head (markets A) = Some mA ∧ head (markets B) = Some mB
    ∧ noB = fsub 1 yesB
    ∧ ∀ feeA feeB minp,
        Arbitrage.detect_pair feeA feeB minp (A, B)
        = (if Qgeb (Arbitrage.profit_pct_of
                      (Arbitrage.cost_with_fees yesA noB feeA feeB)) minp
           then [Arbitrage.scenario A B mA mB Arbitrage.pm_yes_kalshi_no
                   yesA noB feeA feeB]
           else [])
          ++ (if Qgeb (Arbitrage.profit_pct_of
                         (Arbitrage.cost_with_fees noA yesB feeA feeB)) minp
              then [Arbitrage.scenario A B mA mB Arbitrage.pm_no_kalshi_yes
                      noA yesB feeA feeB]
              else []).
Proof.
  intros Hpm Hmf HA HB.
  destruct pm_response as [pm_raw|]; [|discriminate].
  destruct mf_response as [mf_raw|]; cbn in Hmf;
    [|injection Hmf as <-; inversion HB].
  destruct (polymarket_event_spec _ _ _ _ Hpm HA)
    as (_ & _ & HneA & HpricedA).
  destruct (manifold_event_spec _ _ _ Hmf HB)
    as (_ & _ & _ & mB & yesB & HmB & _ & HyB & HnB).
  destruct (markets A) as [|mA restA] eqn:HmA; [done|].
  destruct (HpricedA mA) as [[yesA HyA] [noA HnA]]; [by left|].
  exists mA, mB, yesA, noA, yesB, (fsub 1 yesB).
  split; [done|]. split; [by rewrite HmB|]. split; [done|].
  intros feeA feeB minp.
  by apply (detect_pair_priced _ _ _ _ _ _ _ restA []).
Qed.

End ClientEvents.

(** ** The Kalshi client: the prices of a market *)

Lemma cents_to_decimal_range cents :
  0 ≤ cents ≤ 100 →
  (0 <= Kalshi._cents_to_decimal cents)%Q
  ∧ (Kalshi._cents_to_decimal cents <= 1)%Q.
Proof.
  intros Hc. unfold Kalshi._cents_to_decimal, fdiv, of_int.
  assert (Hf : (fl (inject_Z cents) == inject_Z cents)%Q)
    by (apply fl_inject; lia).
  assert (H0 : (0 <= inject_Z cents)%Q)
    by (change 0%Q with (inject_Z 0); rewrite <- Zle_Qle; lia).
  assert (H1 : (inject_Z cents <= 100)%Q)
    by (change 100%Q with (inject_Z 100); rewrite <- Zle_Qle; lia).
  split.
  - apply fl_nonneg. apply Qle_shift_div_l; [reflexivity | lra].
  - rewrite <- fl_1. apply fl_mono.
    apply Qle_shift_div_r; [reflexivity | lra].
Qed.

(** X30.  A Kalshi market is skipped exactly when none of its four quotes
    is there.  Otherwise it has both prices: the ask of each side when
    there is one, in dollars, and when a side has no quote at all the
    float [1.0 - price] of the other side.  With quotes between 0 and 100
    cents both prices are between 0 and 1, and a price that is such a
    complement misses the exact one by at most [2^-53]. *)
Theorem kalshi_market_prices_spec q :
  (Kalshi.market_prices q = None
   ↔ Kalshi.yes_bid q = None ∧ Kalshi.yes_ask q = None
     ∧ Kalshi.no_bid q = None ∧ Kalshi.no_ask q = None)
  ∧ (∀ ask, Kalshi.yes_ask q = Some ask →
       ∃ no, Kalshi.market_prices q
             = Some (Kalshi._cents_to_decimal ask, no))
  ∧ (∀ ask, Kalshi.no_ask q = Some ask →
       ∃ yes, Kalshi.market_prices q
              = Some (yes, Kalshi._cents_to_decimal ask))
  ∧ (∀ yes no, Kalshi.market_prices q = Some (yes, no) →
       (Kalshi.yes_bid q = None ∧ Kalshi.yes_ask q = None →
        yes = fsub 1 no)
       ∧ (Kalshi.no_bid q = None ∧ Kalshi.no_ask q = None →
          no = fsub 1 yes)
       ∧ (Kalshi.cents_in_range q →
          (0 <= yes)%Q ∧ (yes <= 1)%Q ∧ (0 <= no)%Q ∧ (no <= 1)%Q
          ∧ ((Kalshi.yes_bid q = None ∧ Kalshi.yes_ask q = None)
             ∨ (Kalshi.no_bid q = None ∧ Kalshi.no_ask q = None) →
             (Qabs (yes + no - 1) <= pow2 (-53))%Q))).
Proof.
  assert (Hcompl : ∀ p, (0 <= p)%Q ∧ (p <= 1)%Q →
            (0 <= fsub 1 p)%Q ∧ (fsub 1 p <= 1)%Q
            ∧ (Qabs (p + fsub 1 p - 1) <= pow2 (-53))%Q
            ∧ (Qabs (fsub 1 p + p - 1) <= pow2 (-53))%Q).
  { intros p [H0 H1]. destruct (complement_bounds p H0 H1) as (? & ? & Hs).
    repeat split; try done.
    by rewrite (Qplus_comm (fsub 1 p) p). }
  split; [|split; [|split]].
  - destruct q as [[yb|] [ya|] [nb|] [na|]]; unfold Kalshi.market_prices;
      cbn; (split; [try discriminate; done
                   | intros (? & ? & ? & ?); try discriminate; done]).
  - destruct q as [[yb|] [ya|] [nb|] [na|]]; unfold Kalshi.market_prices;
      cbn; (intros ask [= <-] || intros ask [=]); by eauto.
  - destruct q as [[yb|] [ya|] [nb|] [na|]]; unfold Kalshi.market_prices;
      cbn; (intros ask [= <-] || intros ask [=]); by eauto.
  - intros yes no Hq. split; [|split].
    + intros [Hb Ha]. unfold Kalshi.market_prices in Hq.
      rewrite Hb, Ha in Hq. cbn in Hq.
      destruct (Kalshi.no_ask q), (Kalshi.no_bid q); cbn in Hq;
        by (injection Hq as <- <- || discriminate).
    + intros [Hb Ha]. unfold Kalshi.market_prices in Hq.
      rewrite Hb, Ha in Hq. cbn in Hq.
      destruct (Kalshi.yes_ask q), (Kalshi.yes_bid q); cbn in Hq;
        by (injection Hq as <- <- || discriminate).
    + intros Hrange.
      assert (Hr : ∀ cents,
                (Kalshi.yes_bid q = Some cents ∨ Kalshi.yes_ask q = Some cents
                 ∨ Kalshi.no_bid q = Some cents
                 ∨ Kalshi.no_ask q = Some cents) →
                (0 <= Kalshi._cents_to_decimal cents)%Q
                ∧ (Kalshi._cents_to_decimal cents <= 1)%Q).
      { intros cents Hc. apply cents_to_decimal_range. by apply Hrange. }
      clear Hrange.
      destruct q as [[yb|] [ya|] [nb|] [na|]];
        unfold Kalshi.market_prices in Hq; cbn in Hq, Hr;
        try discriminate; injection Hq as <- <-;
        repeat match goal with
               | |- context [Kalshi._cents_to_decimal ?c] =>
                   lazymatch goal with
                   | _ : (0 <= Kalshi._cents_to_decimal c)%Q |- _ => fail
                   | _ => destruct (Hr c) as [? ?]; [by eauto|]
                   end
               end;
        repeat match goal with
               | |- context [fsub 1 ?p] =>
                   lazymatch goal with
                   | _ : (0 <= fsub 1 p)%Q |- _ => fail
                   | _ => destruct (Hcompl p) as (? & ? & ? & ?); [by split|]
                   end
               end;
        (split; [done|]); (split; [done|]); (split; [done|]);
        (split; [done|]); intros [[? ?] | [? ?]]; try discriminate; done.
Qed.

(** Decides [asks_offered] on a list of asks given in full. *)
Ltac each_ask :=
  let a := fresh "a" in
  let Ha := fresh "Ha" in
  intros a Ha;
  repeat (apply elem_of_cons in Ha as [-> | Ha];
          [eexists _, _; repeat split; by vm_compute|]);
  inversion Ha.

Lemma thin_book_gives_best_ask_witness :
  Polymarket._get_impact_price (Polymarket.BookAsks thin_asks) 1
  = Polymarket._get_best_ask (Polymarket.BookAsks thin_asks).
Proof.
  apply (thin_book_gives_best_ask thin_asks 1); [each_ask | by vm_compute].
Defined.

(** The floats of the loop on three books.  One share at 0.3 and one at
    0.7 are worth 1.0 as the loop counts: the order of one dollar fills,
    at 0.5.  One dollar on a single ask at 0.41 buys [1.0 / 0.41] shares,
    and is priced at [1.0 / (1.0 / 0.41)], the float after 0.41.  One
    dollar on the deep book buys one share at 0.40 and the rest at
    0.45. *)
Example impact_price_samples :
  Polymarket._get_impact_price
    (Polymarket.BookAsks [ask (fl 0.3) 1; ask (fl 0.7) 1]) 1
  = Some (fl 0.5)
  ∧ Polymarket._get_impact_price
      (Polymarket.BookAsks [ask (fl 0.41) 100]) 1
    = Some (fdiv 1 (fdiv 1 (fl 0.41)))
  ∧ (fl 0.41 < fdiv 1 (fdiv 1 (fl 0.41)))%Q
  ∧ Polymarket._get_impact_price (Polymarket.BookAsks deep_asks) 1
    = Some (fdiv 1 (fadd 1 (fdiv (fsub 1 (fl 0.40)) (fl 0.45)))).
Proof.
  split; [vm_compute; reflexivity|]. split; [vm_compute; reflexivity|].
  split; [by vm_compute | vm_compute; reflexivity].
Qed.

Lemma polymarket_events_are_priced_witness :
  ∃ e, sample_polymarket_events = Return [e] ∧ priced e
       ∧ end_date e ≤ sample_cutoff.
Proof.
  eexists. split; [vm_compute; reflexivity|].
  edestruct (polymarket_events_are_priced (λ _, None) sample_fromisoformat
               sample_books sample_cutoff (Some [sample_raw_event]))
    as (Hend & _ & Hpriced);
    [vm_compute; reflexivity | apply list_elem_of_here |].
  split; [exact Hpriced | exact Hend].
Defined.

(** The sample market, at the probability 0.55: the NO price is the
    float [1.0 - 0.55], which is not the float 0.45. *)
Lemma manifold_events_are_binary_witness :
  sample_manifold_events
  = Return [Samples.manifold "mf-a" "Bitcoin hits 100k" 90000000000 0.55%Q]
  ∧ (Qabs (fl 0.55 + fsub 1 (fl 0.55) - 1) <= pow2 (-53))%Q
  ∧ ¬ (fsub 1 (fl 0.55) == fl 0.45)%Q.
Proof.
  set (e := Samples.manifold "mf-a" "Bitcoin hits 100k" 90000000000 0.55%Q).
  assert (Hret : sample_manifold_events = Return [e])
    by (vm_compute; reflexivity).
  split; [exact Hret|].
  destruct (proj2 (manifold_events_are_binary sample_fromtimestamp
                     sample_cutoff (Some [sample_manifold_market]) [e] e)
              Hret (list_elem_of_here _ _))
    as (_ & _ & _ & m & yes & no & Hm & _ & Hy & Hn & Hno & Hsum).
  change (markets e)
    with [Samples.binary "mf-a" "Bitcoin hits 100k" (Some (fl 0.55))
            (Some (fsub 1 (fl 0.55)))] in Hm.
  injection Hm as <-.
  change (Some (fl 0.55) = Some yes) in Hy. injection Hy as <-.
  rewrite Hno in Hsum. split.
  - apply Hsum; apply Qle_bool_iff; vm_compute; reflexivity.
  - apply Qeq_bool_neq. vm_compute. reflexivity.
Defined.

Lemma client_pairs_are_never_skipped_witness :
  ∃ A B,
    sample_polymarket_events = Return [A]
    ∧ sample_manifold_events = Return [B]
    ∧ ∃ mA mB, head (markets A) = Some mA ∧ head (markets B) = Some mB.
Proof.
  eexists _, _. split; [vm_compute; reflexivity|].
  split; [vm_compute; reflexivity|].
  edestruct (client_pairs_are_never_skipped (λ _, None) sample_fromisoformat
               sample_books sample_fromtimestamp sample_cutoff sample_cutoff
               (Some [sample_raw_event]) (Some [sample_manifold_market]))
    as (mA & mB & yesA & noA & yesB & noB & HA & HB & _);
    [vm_compute; reflexivity | vm_compute; reflexivity
     | apply list_elem_of_here | apply list_elem_of_here |].
  exists mA, mB. split; [exact HA | exact HB].
Defined.

(** A market quoted on the YES side only, at 57 and 60 cents, and a
    market quoted at 10 cents: its NO price is the float 0.9, and the two
    prices add up to [1 + 2^-55]. *)
Lemma kalshi_market_prices_spec_witness :
  (∃ no,
     Kalshi.market_prices
       {| Kalshi.yes_bid := Some 57; Kalshi.yes_ask := Some 60;
          Kalshi.no_bid := None; Kalshi.no_ask := None |}
     = Some (Kalshi._cents_to_decimal 60, no)
     ∧ no = fsub 1 (Kalshi._cents_to_decimal 60))
  ∧ Kalshi.market_prices
      {| Kalshi.yes_bid := None; Kalshi.yes_ask := Some 10;
         Kalshi.no_bid := None; Kalshi.no_ask := None |}
    = Some (fl 0.1, fl 0.9)
  ∧ (fl 0.1 + fl 0.9 == 1 + pow2 (-55))%Q.
Proof.
  split; [|split; [vm_compute; reflexivity | vm_compute; reflexivity]].
  destruct (kalshi_market_prices_spec
              {| Kalshi.yes_bid := Some 57; Kalshi.yes_ask := Some 60;
                 Kalshi.no_bid := None; Kalshi.no_ask := None |})
    as (_ & Hask & _ & Hcompl).
  destruct (Hask 60 eq_refl) as [no Hno]. exists no.
  split; [exact Hno|].
  exact (proj1 (proj2 (Hcompl _ _ Hno)) (conj eq_refl eq_refl)).
Defined.
